(** * parse-jsonl: the record parser of the JSONL viewer

    A shallow embedding of [src/lib/parse-jsonl.ts] together with the
    parts of the JavaScript runtime it calls ([String.prototype.trim],
    [split], [startsWith], [JSON.parse], [JSON.stringify], [Object.keys],
    [Array.isArray], insertion-ordered [Set]).

    Strings are sequences of UTF-16 code units.  Exceptions are explicit:
    a computation that may throw returns a [completion], and the loop of
    [parseLines], which mutates three locals and catches inside its body,
    runs in a small state-and-exception monad in which the state survives
    a throw, as it does in JavaScript.

    A second part embeds what the components of the viewer do with a
    text and with the result, apart from drawing it: the drop zone, the
    search filter, the selection and its navigation, the colouring of a
    line in the raw view and in the detail panel, the position of the
    tree view. *)

From Stdlib Require Import Ascii String.
From Stdlib Require Import List NArith Arith Bool Lia.
From Stdlib Require Import ZArith Permutation Sorted DecimalNat.
Import ListNotations.

Set Implicit Arguments.

(* ================================================================== *)
(** ** Strings as UTF-16 code units *)
(* ================================================================== *)

Definition char16 := N.
Definition jsstring := list char16.

(** An ASCII literal as a JavaScript string. *)
Definition lit (s : string) : jsstring :=
  map N_of_ascii (list_ascii_of_string s).

(** The same, with every apostrophe standing for a quotation mark, to
    write JSON texts legibly. *)
Definition qlit (s : string) : jsstring :=
  map (fun c => if N.eqb c 39 then 34%N else c) (lit s).

(** The code units of ["\n"] and ["\r"]. *)
Definition LF : char16 := 10%N.
Definition CR : char16 := 13%N.

Fixpoint jsstring_eqb (a b : jsstring) : bool :=
  match a, b with
  | [], [] => true
  | x :: a', y :: b' => N.eqb x y && jsstring_eqb a' b'
  | _, _ => false
  end.

Module JSString.

(** ECMAScript WhiteSpace and LineTerminator code points: what
    [String.prototype.trim] strips. *)
Definition is_white_space (c : char16) : bool :=
  (N.leb 9 c && N.leb c 13)                      (* TAB LF VT FF CR *)
  || N.eqb c 32 || N.eqb c 160 || N.eqb c 5760   (* SP NBSP U+1680 *)
  || (N.leb 8192 c && N.leb c 8202)              (* U+2000 .. U+200A *)
  || N.eqb c 8232 || N.eqb c 8233                (* LS PS *)
  || N.eqb c 8239 || N.eqb c 8287 || N.eqb c 12288
  || N.eqb c 65279.                              (* ZWNBSP / BOM *)

Fixpoint trimStart (s : jsstring) : jsstring :=
  match s with
  | [] => []
  | c :: s' => if is_white_space c then trimStart s' else s
  end.

Definition trimEnd (s : jsstring) : jsstring := rev (trimStart (rev s)).

Definition trim (s : jsstring) : jsstring := trimEnd (trimStart s).

(** [s.startsWith(p)] *)
Fixpoint startsWith (s p : jsstring) {struct p} : bool :=
  match p, s with
  | [], _ => true
  | x :: p', y :: s' => N.eqb x y && startsWith s' p'
  | _ :: _, [] => false
  end.

(** [s.split(sep)] for a separator of one code unit.  The result is
    never empty: the empty string splits into one empty string. *)
Fixpoint split (sep : char16) (s : jsstring) : list jsstring :=
  match s with
  | [] => [[]]
  | c :: s' =>
      if N.eqb c sep then [] :: split sep s'
      else match split sep s' with
           | piece :: rest => (c :: piece) :: rest
           | [] => [[c]]
           end
  end.

(** [pieces.join(sep)] *)
Fixpoint join (sep : jsstring) (pieces : list jsstring) : jsstring :=
  match pieces with
  | [] => []
  | p :: rest =>
      match rest with
      | [] => p
      | _ :: _ => p ++ sep ++ join sep rest
      end
  end.

Fixpoint of_uint (u : Decimal.uint) : jsstring :=
  match u with
  | Decimal.Nil => []
  | Decimal.D0 u' => 48%N :: of_uint u'
  | Decimal.D1 u' => 49%N :: of_uint u'
  | Decimal.D2 u' => 50%N :: of_uint u'
  | Decimal.D3 u' => 51%N :: of_uint u'
  | Decimal.D4 u' => 52%N :: of_uint u'
  | Decimal.D5 u' => 53%N :: of_uint u'
  | Decimal.D6 u' => 54%N :: of_uint u'
  | Decimal.D7 u' => 55%N :: of_uint u'
  | Decimal.D8 u' => 56%N :: of_uint u'
  | Decimal.D9 u' => 57%N :: of_uint u'
  end.

(** What a template literal prints for a natural number: its decimal
    digits. *)
Definition of_nat (n : nat) : jsstring := of_uint (Nat.to_uint n).

End JSString.

(* ================================================================== *)
(** ** Completions: normal results and thrown exceptions *)
(* ================================================================== *)

Inductive exn : Type :=
| SyntaxError
| TypeError
| RangeError.

Inductive completion (A : Type) : Type :=
| Normal (a : A)
| Throw (e : exn).

Arguments Normal {A} a.
Arguments Throw {A} e.

(* ================================================================== *)
(** ** JSON values and the number model *)
(* ================================================================== *)

(** JavaScript numbers are IEEE 754 doubles.  Their arithmetic plays no
    part in the parser, so the carrier and the two conversions that
    [JSON.parse] and [JSON.stringify] use are an interface:
    [StringToNumber] is the Number denoted by a numeral of the JSON
    grammar, [NumberToJSON] the JSON text of a Number (its decimal form,
    or [null] when it is not finite). *)
Class JsNumber : Type := {
  Num : Type;
  StringToNumber : jsstring -> Num;
  NumberToJSON : Num -> jsstring
}.

(** The instance that keeps a number as the numeral that denoted it:
    enough to run the parser on sample texts.  The theorems are proved for
    every instance. *)
Definition numeralNumbers : JsNumber :=
  {| Num := jsstring;
     StringToNumber := fun s => s;
     NumberToJSON := fun s => s |}.

Section Runtime.

Context {number : JsNumber}.

(** The values [JSON.parse] can produce.  An object is its list of own
    properties in creation order. *)
Unset Elimination Schemes.
Inductive JsValue : Type :=
| JNull
| JBool (b : bool)
| JNumber (n : Num)
| JString (s : jsstring)
| JArray (elements : list JsValue)
| JObject (props : list (jsstring * JsValue)).
Set Elimination Schemes.

(** [typeof v === "object"], which holds of [null] too. *)
Definition typeof_object (v : JsValue) : bool :=
  match v with
  | JNull | JArray _ | JObject _ => true
  | _ => false
  end.

Definition Array_isArray (v : JsValue) : bool :=
  match v with
  | JArray _ => true
  | _ => false
  end.

(** [v === null] *)
Definition is_null (v : JsValue) : bool :=
  match v with
  | JNull => true
  | _ => false
  end.

(** *** Property order *)

Definition is_digit (c : char16) : bool := N.leb 48 c && N.leb c 57.

Fixpoint digits_value (acc : N) (s : jsstring) : N :=
  match s with
  | [] => acc
  | c :: s' => digits_value (acc * 10 + (c - 48)) s'
  end.

(** An array index is the canonical numeral of an integer in
    [0, 2^32 - 2]. *)
Definition array_index (k : jsstring) : option N :=
  match k with
  | [] => None
  | c :: rest =>
      if forallb is_digit k
         && (negb (N.eqb c 48) || match rest with [] => true | _ => false end)
         && Nat.leb (length k) 10
      then let v := digits_value 0 k in
           if N.leb v 4294967294 then Some v else None
      else None
  end.

Fixpoint insert_index (i : N) (k : jsstring) (l : list (N * jsstring))
  : list (N * jsstring) :=
  match l with
  | [] => [(i, k)]
  | (j, k') :: l' =>
      if N.leb i j then (i, k) :: l else (j, k') :: insert_index i k l'
  end.

Fixpoint index_keys (keys : list jsstring) : list (N * jsstring) :=
  match keys with
  | [] => []
  | k :: keys' =>
      match array_index k with
      | Some i => insert_index i k (index_keys keys')
      | None => index_keys keys'
      end
  end.

Definition is_array_index (k : jsstring) : bool :=
  match array_index k with Some _ => true | None => false end.

(** OrdinaryOwnPropertyKeys: array indices in ascending order, then the
    other keys in creation order. *)
Definition own_keys (keys : list jsstring) : list jsstring :=
  map snd (index_keys keys)
  ++ filter (fun k => negb (is_array_index k)) keys.

(** [Object.keys(v)] for a value of [JSON.parse]: the own keys of an
    object, the indices of an array or of a string, nothing for a number
    or a boolean; [null] has no properties to list and the call throws. *)
Definition Object_keys (v : JsValue) : completion (list jsstring) :=
  match v with
  | JObject props => Normal (own_keys (map fst props))
  | JArray elements => Normal (map JSString.of_nat (seq 0 (length elements)))
  | JString s => Normal (map JSString.of_nat (seq 0 (length s)))
  | JNumber _ | JBool _ => Normal []
  | JNull => Throw TypeError
  end.

(** CreateDataProperty: a key already present keeps its place and
    takes the new value. *)
Fixpoint define_property (props : list (jsstring * JsValue))
         (k : jsstring) (v : JsValue) : list (jsstring * JsValue) :=
  match props with
  | [] => [(k, v)]
  | (k', v') :: rest =>
      if jsstring_eqb k' k then (k', v) :: rest
      else (k', v') :: define_property rest k v
  end.

(* ================================================================== *)
(** ** [JSON.parse] *)
(* ================================================================== *)

(** *** Tokens of the JSON grammar

    The lexer is a machine that reads one code unit at a time, so that
    it is total by construction. *)

Inductive token : Type :=
| TLBracket | TRBracket | TLBrace | TRBrace | TColon | TComma
| TString (s : jsstring)
| TNumber (n : Num)
| TTrue | TFalse | TNull.

(** Where the lexer stands inside a numeral: an optional minus sign; an
    integer part, either a single 0 or a nonzero digit followed by any
    digits; an optional fraction, a point and at least one digit; an
    optional exponent, e or E, an optional sign and at least one digit. *)
Inductive num_state : Type :=
| NMinus | NZero | NInt | NDot | NFrac | NE | NESign | NExp.

Inductive lex_state : Type :=
| LIdle
| LString (acc : jsstring)                     (* reversed contents *)
| LEscape (acc : jsstring)                     (* after a backslash *)
| LHex (acc : jsstring) (todo : nat) (v : N)   (* inside \uXXXX *)
| LNumber (st : num_state) (acc : jsstring)    (* reversed numeral *)
| LWord (rest : jsstring) (t : token).         (* inside true/false/null *)

(** JSON white space: TAB, LF, CR, SP. *)
Definition is_json_ws (c : char16) : bool :=
  N.eqb c 9 || N.eqb c 10 || N.eqb c 13 || N.eqb c 32.

Definition hex_value (c : char16) : option N :=
  if N.leb 48 c && N.leb c 57 then Some (c - 48)%N
  else if N.leb 97 c && N.leb c 102 then Some (c - 87)%N
  else if N.leb 65 c && N.leb c 70 then Some (c - 55)%N
  else None.

Definition num_next (st : num_state) (c : char16) : option num_state :=
  let e := N.eqb c 101 || N.eqb c 69 in
  match st with
  | NMinus => if N.eqb c 48 then Some NZero
              else if is_digit c then Some NInt else None
  | NZero => if N.eqb c 46 then Some NDot
             else if e then Some NE else None
  | NInt => if is_digit c then Some NInt
            else if N.eqb c 46 then Some NDot
            else if e then Some NE else None
  | NDot => if is_digit c then Some NFrac else None
  | NFrac => if is_digit c then Some NFrac
             else if e then Some NE else None
  | NE => if N.eqb c 43 || N.eqb c 45 then Some NESign
          else if is_digit c then Some NExp else None
  | NESign => if is_digit c then Some NExp else None
  | NExp => if is_digit c then Some NExp else None
  end.

Definition num_complete (st : num_state) : bool :=
  match st with
  | NZero | NInt | NFrac | NExp => true
  | _ => false
  end.

(** A code unit met between tokens. *)
Definition lex_idle (c : char16) : option (lex_state * list token) :=
  if is_json_ws c then Some (LIdle, [])
  else if N.eqb c 91 then Some (LIdle, [TLBracket])
  else if N.eqb c 93 then Some (LIdle, [TRBracket])
  else if N.eqb c 123 then Some (LIdle, [TLBrace])
  else if N.eqb c 125 then Some (LIdle, [TRBrace])
  else if N.eqb c 58 then Some (LIdle, [TColon])
  else if N.eqb c 44 then Some (LIdle, [TComma])
  else if N.eqb c 34 then Some (LString [], [])
  else if N.eqb c 45 then Some (LNumber NMinus [c], [])
  else if N.eqb c 48 then Some (LNumber NZero [c], [])
  else if is_digit c then Some (LNumber NInt [c], [])
  else if N.eqb c 116 then Some (LWord (lit "rue") TTrue, [])
  else if N.eqb c 102 then Some (LWord (lit "alse") TFalse, [])
  else if N.eqb c 110 then Some (LWord (lit "ull") TNull, [])
  else None.

Definition lex_escape (acc : jsstring) (c : char16) : option lex_state :=
  if N.eqb c 34 || N.eqb c 92 || N.eqb c 47 then Some (LString (c :: acc))
  else if N.eqb c 98 then Some (LString (8%N :: acc))
  else if N.eqb c 102 then Some (LString (12%N :: acc))
  else if N.eqb c 110 then Some (LString (10%N :: acc))
  else if N.eqb c 114 then Some (LString (13%N :: acc))
  else if N.eqb c 116 then Some (LString (9%N :: acc))
  else if N.eqb c 117 then Some (LHex acc 4 0%N)
  else None.

Definition lex_step (st : lex_state) (c : char16)
  : option (lex_state * list token) :=
  match st with
  | LIdle => lex_idle c
  | LString acc =>
      if N.eqb c 34 then Some (LIdle, [TString (rev acc)])
      else if N.eqb c 92 then Some (LEscape acc, [])
      else if N.ltb c 32 then None
      else Some (LString (c :: acc), [])
  | LEscape acc =>
      match lex_escape acc c with
      | Some st' => Some (st', [])
      | None => None
      end
  | LHex acc todo v =>
      match hex_value c with
      | Some d =>
          let v' := (v * 16 + d)%N in
          match todo with
          | 0 | 1 => Some (LString (v' :: acc), [])
          | S todo' => Some (LHex acc todo' v', [])
          end
      | None => None
      end
  | LNumber ns acc =>
      match num_next ns c with
      | Some ns' => Some (LNumber ns' (c :: acc), [])
      | None =>
          if num_complete ns then
            match lex_idle c with
            | Some (st', toks) =>
                Some (st', TNumber (StringToNumber (rev acc)) :: toks)
            | None => None
            end
          else None
      end
  | LWord rest t =>
      match rest with
      | [] => None
      | x :: rest' =>
          if N.eqb c x then
            match rest' with
            | [] => Some (LIdle, [t])
            | _ => Some (LWord rest' t, [])
            end
          else None
      end
  end.

Definition lex_end (st : lex_state) : option (list token) :=
  match st with
  | LIdle => Some []
  | LNumber ns acc =>
      if num_complete ns then Some [TNumber (StringToNumber (rev acc))]
      else None
  | _ => None
  end.

Fixpoint lex_from (st : lex_state) (s : jsstring) : option (list token) :=
  match s with
  | [] => lex_end st
  | c :: s' =>
      match lex_step st c with
      | Some (st', toks) =>
          match lex_from st' s' with
          | Some more => Some (toks ++ more)
          | None => None
          end
      | None => None
      end
  end.

Definition lex (s : jsstring) : option (list token) := lex_from LIdle s.

(** *** The grammar, as a machine with a stack of open containers *)

Inductive frame : Type :=
| InArray (elements : list JsValue)
| InObject (props : list (jsstring * JsValue)) (key : jsstring).

Inductive parse_state : Type :=
| PValue (stack : list frame)        (* a value must follow *)
| PArrayOpen (stack : list frame)    (* after '[': a value, or ']' *)
| PArrayNext (elements : list JsValue) (stack : list frame)
| PObjectOpen (stack : list frame)   (* after '{': a key, or '}' *)
| PObjectKey (props : list (jsstring * JsValue)) (stack : list frame)
| PObjectColon (props : list (jsstring * JsValue)) (key : jsstring)
               (stack : list frame)
| PObjectNext (props : list (jsstring * JsValue)) (stack : list frame)
| PDone (v : JsValue).

(** A value is complete: it goes into the innermost open container. *)
Definition deliver (v : JsValue) (stack : list frame) : parse_state :=
  match stack with
  | [] => PDone v
  | InArray elements :: stack' => PArrayNext (elements ++ [v]) stack'
  | InObject props key :: stack' =>
      PObjectNext (define_property props key v) stack'
  end.

Definition parse_value (t : token) (stack : list frame)
  : option parse_state :=
  match t with
  | TNull => Some (deliver JNull stack)
  | TTrue => Some (deliver (JBool true) stack)
  | TFalse => Some (deliver (JBool false) stack)
  | TNumber n => Some (deliver (JNumber n) stack)
  | TString s => Some (deliver (JString s) stack)
  | TLBracket => Some (PArrayOpen stack)
  | TLBrace => Some (PObjectOpen stack)
  | _ => None
  end.

Definition parse_step (st : parse_state) (t : token) : option parse_state :=
  match st with
  | PValue stack => parse_value t stack
  | PArrayOpen stack =>
      match t with
      | TRBracket => Some (deliver (JArray []) stack)
      | _ => parse_value t (InArray [] :: stack)
      end
  | PArrayNext elements stack =>
      match t with
      | TComma => Some (PValue (InArray elements :: stack))
      | TRBracket => Some (deliver (JArray elements) stack)
      | _ => None
      end
  | PObjectOpen stack =>
      match t with
      | TRBrace => Some (deliver (JObject []) stack)
      | TString key => Some (PObjectColon [] key stack)
      | _ => None
      end
  | PObjectKey props stack =>
      match t with
      | TString key => Some (PObjectColon props key stack)
      | _ => None
      end
  | PObjectColon props key stack =>
      match t with
      | TColon => Some (PValue (InObject props key :: stack))
      | _ => None
      end
  | PObjectNext props stack =>
      match t with
      | TComma => Some (PObjectKey props stack)
      | TRBrace => Some (deliver (JObject props) stack)
      | _ => None
      end
  | PDone _ => None
  end.

Fixpoint parse_from (st : parse_state) (toks : list token) : option JsValue :=
  match toks with
  | [] => match st with PDone v => Some v | _ => None end
  | t :: toks' =>
      match parse_step st t with
      | Some st' => parse_from st' toks'
      | None => None
      end
  end.

(** [JSON.parse(text)] without a reviver: the value of the text, or a
    thrown SyntaxError. *)
Definition JSON_parse (text : jsstring) : completion JsValue :=
  match lex text with
  | Some toks =>
      match parse_from (PValue []) toks with
      | Some v => Normal v
      | None => Throw SyntaxError
      end
  | None => Throw SyntaxError
  end.

(* ================================================================== *)
(** ** [JSON.stringify] *)
(* ================================================================== *)

Definition hex_digit (d : N) : char16 :=
  if N.ltb d 10 then (48 + d)%N else (87 + d)%N.

(** UnicodeEscape: backslash, u, four lower-case hexadecimal digits. *)
Definition unicode_escape (c : char16) : jsstring :=
  [92%N; 117%N;
   hex_digit (N.modulo (N.div c 4096) 16); hex_digit (N.modulo (N.div c 256) 16);
   hex_digit (N.modulo (N.div c 16) 16); hex_digit (N.modulo c 16)].

Definition is_lead_surrogate (c : char16) : bool :=
  N.leb 55296 c && N.leb c 56319.

Definition is_trail_surrogate (c : char16) : bool :=
  N.leb 56320 c && N.leb c 57343.

Definition quote_unit (c : char16) : jsstring :=
  if N.eqb c 8 then lit "\b"
  else if N.eqb c 9 then lit "\t"
  else if N.eqb c 10 then lit "\n"
  else if N.eqb c 12 then lit "\f"
  else if N.eqb c 13 then lit "\r"
  else if N.eqb c 34 then [92%N; 34%N]
  else if N.eqb c 92 then [92%N; 92%N]
  else if N.ltb c 32 || is_lead_surrogate c || is_trail_surrogate c
       then unicode_escape c
  else [c].

(** The code units of a string between the quotation marks: a surrogate
    pair stays as it is, a lone surrogate is escaped. *)
Fixpoint quote_units (s : jsstring) : jsstring :=
  match s with
  | [] => []
  | c :: s' =>
      match s' with
      | d :: s'' =>
          if is_lead_surrogate c && is_trail_surrogate d
          then c :: d :: quote_units s''
          else quote_unit c ++ quote_units s'
      | [] => quote_unit c
      end
  end.

Definition QuoteJSONString (s : jsstring) : jsstring :=
  34%N :: quote_units s ++ [34%N].

Fixpoint member_text (members : list (jsstring * jsstring)) (k : jsstring)
  : jsstring :=
  match members with
  | [] => []
  | (k', text) :: rest =>
      if jsstring_eqb k' k then text else member_text rest k
  end.

(** The text of [JSON.stringify(v)] with no replacer and no indentation,
    for a value of [JSON.parse]: the operation SerializeJSONProperty of
    the language specification. *)
Fixpoint SerializeJSONProperty (v : JsValue) : jsstring :=
  match v with
  | JNull => lit "null"
  | JBool true => lit "true"
  | JBool false => lit "false"
  | JNumber n => NumberToJSON n
  | JString s => QuoteJSONString s
  | JArray elements =>
      lit "[" ++ JSString.join (lit ",") (map SerializeJSONProperty elements)
      ++ lit "]"
  | JObject props =>
      let members :=
        map (fun kv : jsstring * JsValue =>
               let (k, x) := kv in
               (k, QuoteJSONString k ++ lit ":" ++ SerializeJSONProperty x))
            props in
      lit "{"
      ++ JSString.join (lit ",")
           (map (member_text members) (own_keys (map fst props)))
      ++ lit "}"
  end.

(** How deep the arrays and objects of a value are nested. *)
Fixpoint depth (v : JsValue) : nat :=
  match v with
  | JArray elements =>
      S (fold_right (fun x d => Nat.max (depth x) d) 0 elements)
  | JObject props =>
      S (fold_right (fun (kv : jsstring * JsValue) d =>
                       let (_, x) := kv in Nat.max (depth x) d)
                    0 props)
  | _ => 0
  end.

(** The engines serialize a value by a function that calls itself for
    each level of nesting, into one string.  On a value nested deeper
    than the stack has room for, or whose text would be longer than a
    string may be, [JSON.stringify] throws a RangeError.  How much room
    there is is the engine's and the moment's: [stringify_exhausts]
    says on which values the serialization runs out. *)
Class JsEngine : Type := {
  stringify_exhausts : JsValue -> bool
}.

(** An engine whose stack has room for [levels] levels of nesting. *)
Definition stack_of (levels : nat) : JsEngine :=
  {| stringify_exhausts := fun v => Nat.ltb levels (depth v) |}.

Context {engine : JsEngine}.

(** [JSON.stringify(v)] for a value of [JSON.parse]. *)
Definition JSON_stringify (v : JsValue) : completion jsstring :=
  if stringify_exhausts v then Throw RangeError
  else Normal (SerializeJSONProperty v).

(* ================================================================== *)
(** ** Mutable locals and exceptions *)
(* ================================================================== *)

(** A statement over locals [St]: it ends normally or throws, and leaves
    the locals as they were at that point. *)
Definition M (St A : Type) : Type := St -> completion A * St.

Definition ret {St A} (a : A) : M St A := fun s => (Normal a, s).

Definition bind {St A B} (m : M St A) (f : A -> M St B) : M St B :=
  fun s =>
    match m s with
    | (Normal a, s') => f a s'
    | (Throw e, s') => (Throw e, s')
    end.

(** A call whose result is a completion and which touches no local. *)
Definition call {St A} (c : completion A) : M St A := fun s => (c, s).

(** [try { body } catch { handler }] *)
Definition try_catch {St A} (body : M St A) (handler : M St A) : M St A :=
  fun s =>
    match body s with
    | (Normal a, s') => (Normal a, s')
    | (Throw _, s') => handler s'
    end.

Definition modify {St} (f : St -> St) : M St unit :=
  fun s => (Normal tt, f s).

Definition when {St} (b : bool) (m : M St unit) : M St unit :=
  if b then m else ret tt.

(** [for (const x of l) body] *)
Fixpoint for_of {St A} (l : list A) (body : A -> M St unit) : M St unit :=
  match l with
  | [] => ret tt
  | x :: l' => bind (body x) (fun _ => for_of l' body)
  end.

(** [for (let i = from; i < from + l.length; i++) body(i, l[i])] *)
Fixpoint for_index {St A} (from : nat) (l : list A)
         (body : nat -> A -> M St unit) : M St unit :=
  match l with
  | [] => ret tt
  | x :: l' => bind (body from x) (fun _ => for_index (S from) l' body)
  end.

(** [list.map((x, i) => f(x, i))] *)
Fixpoint Array_map {A B} (from : nat) (f : A -> nat -> B) (l : list A)
  : list B :=
  match l with
  | [] => []
  | x :: l' => f x from :: Array_map (S from) f l'
  end.

(** The same for a callback that may throw: the first throw ends the
    map, and is what the map throws. *)
Fixpoint Array_map_throwing {A B} (from : nat) (f : A -> nat -> completion B)
         (l : list A) : completion (list B) :=
  match l with
  | [] => Normal []
  | x :: l' =>
      match f x from with
      | Normal y =>
          match Array_map_throwing (S from) f l' with
          | Normal ys => Normal (y :: ys)
          | Throw e => Throw e
          end
      | Throw e => Throw e
      end
  end.

(** A [Set] of strings iterates in insertion order. *)
Definition Set_has (set : list jsstring) (k : jsstring) : bool :=
  existsb (jsstring_eqb k) set.

Definition Set_add (k : jsstring) (set : list jsstring) : list jsstring :=
  if Set_has set k then set else set ++ [k].

Definition Array_from (set : list jsstring) : list jsstring := set.

(* ================================================================== *)
(** ** src/lib/parse-jsonl.ts *)
(* ================================================================== *)

Record ParsedRecord : Type := {
  index : nat;
  data : JsValue;                 (* [JNull] is the source's [null] *)
  raw : jsstring;
  error : option jsstring         (* [None]: the object has no such key *)
}.

Record ParseResult : Type := {
  records : list ParsedRecord;
  columns : list jsstring;
  errorCount : nat
}.

(** The argument of [buildResult]. *)
Record Item : Type := {
  item_data : JsValue;
  item_raw : jsstring;
  item_index : nat
}.

(** The locals of [parseLines] ([errorCount] stays 0 in [buildResult],
    which has the other two only). *)
Record Locals : Type := {
  var_records : list ParsedRecord;
  var_columnSet : list jsstring;
  var_errorCount : nat
}.

Definition fresh_locals : Locals :=
  {| var_records := []; var_columnSet := []; var_errorCount := 0 |}.

Definition columnSet_add (key : jsstring) : M Locals unit :=
  modify (fun s =>
    {| var_records := var_records s;
       var_columnSet := Set_add key (var_columnSet s);
       var_errorCount := var_errorCount s |}).

(** [records.push(r)], where [r] may read [records.length]. *)
Definition records_push (r : nat -> ParsedRecord) : M Locals unit :=
  modify (fun s =>
    {| var_records := var_records s ++ [r (length (var_records s))];
       var_columnSet := var_columnSet s;
       var_errorCount := var_errorCount s |}).

Definition errorCount_incr : M Locals unit :=
  modify (fun s =>
    {| var_records := var_records s;
       var_columnSet := var_columnSet s;
       var_errorCount := S (var_errorCount s) |}).

(** [typeof d === "object" && d !== null && !Array.isArray(d)] guarding
    the loop over [Object.keys(d)]. *)
Definition add_columns (d : JsValue) : M Locals unit :=
  when (typeof_object d && negb (is_null d) && negb (Array_isArray d))
       (bind (call (Object_keys d))
             (fun keys => for_of keys columnSet_add)).

Definition malformed (line_number : nat) : jsstring :=
  lit "Malformed JSON on line " ++ JSString.of_nat line_number.

(** One turn of the loop of [parseLines], lines 61 to 80. *)
Definition parseLines_body (i : nat) (lines_i : jsstring) : M Locals unit :=
  let line := JSString.trim lines_i in
  if jsstring_eqb line [] then ret tt
  else
    try_catch
      (bind (call (JSON_parse line)) (fun d =>
       bind (add_columns d) (fun _ =>
       records_push (fun len =>
         {| index := len; data := d; raw := line; error := None |}))))
      (bind errorCount_incr (fun _ =>
       records_push (fun len =>
         {| index := len; data := JNull; raw := line;
            error := Some (malformed (i + 1)) |}))).

Definition parseLines (text : jsstring) : completion ParseResult :=
  let lines := JSString.split LF text in
  match for_index 0 lines parseLines_body fresh_locals with
  | (Normal _, s) =>
      Normal {| records := var_records s;
                columns := Array_from (var_columnSet s);
                errorCount := var_errorCount s |}
  | (Throw e, _) => Throw e
  end.

Definition buildResult_body (item : Item) : M Locals unit :=
  bind (add_columns (item_data item)) (fun _ =>
  records_push (fun _ =>
    {| index := item_index item; data := item_data item;
       raw := item_raw item; error := None |})).

Definition buildResult (items : list Item) : completion ParseResult :=
  match for_of items buildResult_body fresh_locals with
  | (Normal _, s) =>
      Normal {| records := var_records s;
                columns := Array_from (var_columnSet s);
                errorCount := 0 |}
  | (Throw e, _) => Throw e
  end.

(** The callback of [parsed.map], lines 31 to 35. *)
Definition array_item (item : JsValue) (i : nat) : completion Item :=
  let d := if typeof_object item && negb (is_null item) then item
           else JObject [(lit "value", item)] in
  match JSON_stringify item with
  | Normal text =>
      Normal {| item_data := d; item_raw := text; item_index := i |}
  | Throw e => Throw e
  end.

(** The [try] block of [parseJsonl]: [Some r] when it returns [r],
    [None] when control leaves it at its end. *)
Definition whole_document (trimmed : jsstring)
  : M unit (option ParseResult) :=
  bind (call (JSON_parse trimmed)) (fun parsed =>
  if Array_isArray parsed then
    match parsed with
    | JArray elements =>
        bind (call (Array_map_throwing 0 array_item elements)) (fun items =>
        bind (call (buildResult items)) (fun r => ret (Some r)))
    | _ => ret None
    end
  else if typeof_object parsed && negb (is_null parsed) then
    bind (call (buildResult
                  [{| item_data := parsed; item_raw := trimmed;
                      item_index := 0 |}]))
         (fun r => ret (Some r))
  else ret None).

Definition parseJsonl (text : jsstring) : completion ParseResult :=
  let trimmed := JSString.trim text in
  let attempt : M unit (option ParseResult) :=
    if JSString.startsWith trimmed (lit "[")
       || JSString.startsWith trimmed (lit "{")
    then try_catch (whole_document trimmed) (ret None)
    else ret None in
  match attempt tt with
  | (Normal (Some r), _) => Normal r
  | (Normal None, _) => parseLines text
  | (Throw e, _) => Throw e
  end.

(* ================================================================== *)
(** ** What the results are compared with *)
(* ================================================================== *)

(** [r.error] is present. *)
Definition has_error (r : ParsedRecord) : bool :=
  match error r with
  | Some _ => true
  | None => false
  end.

(** The keys a record brings to the columns: those of its data when it
    was parsed and its data is an object that is not an array. *)
Definition record_keys (r : ParsedRecord) : list jsstring :=
  match error r, data r with
  | None, JObject props => own_keys (map fst props)
  | _, _ => []
  end.

(** The duplicate-free union of a sequence of keys, each key standing
    where it first appears. *)
Fixpoint ordered_union (keys : list jsstring) : list jsstring :=
  match keys with
  | [] => []
  | k :: keys' =>
      k :: filter (fun k' => negb (jsstring_eqb k k')) (ordered_union keys')
  end.

Definition is_blank (line : jsstring) : bool :=
  jsstring_eqb (JSString.trim line) [].

(** How many of the lines are neither empty nor white space only. *)
Definition count_nonblank (lines : list jsstring) : nat :=
  length (filter (fun l => negb (is_blank l)) lines).

(** The record of the physical line numbered [line_number] (from 1),
    whose trimmed text [line] is not empty, when it is emitted as the
    record numbered [idx] (from 0). *)
Definition line_record (line_number idx : nat) (line : jsstring)
  : ParsedRecord :=
  match JSON_parse line with
  | Normal d => {| index := idx; data := d; raw := line; error := None |}
  | Throw _ =>
      {| index := idx; data := JNull; raw := line;
         error := Some (malformed line_number) |}
  end.

(** The records of consecutive physical lines, the first of which is
    numbered [line_number], when [idx] records precede them. *)
Fixpoint lines_records (line_number idx : nat) (lines : list jsstring)
  : list ParsedRecord :=
  match lines with
  | [] => []
  | l :: rest =>
      if is_blank l then lines_records (S line_number) idx rest
      else line_record line_number idx (JSString.trim l)
           :: lines_records (S line_number) (S idx) rest
  end.

Definition item_record (item : Item) : ParsedRecord :=
  {| index := item_index item; data := item_data item;
     raw := item_raw item; error := None |}.

(** The record of the element at position [i] of a top-level array. *)
Definition element_record (item : JsValue) (i : nat) : ParsedRecord :=
  {| index := i;
     data := match item with
             | JArray _ | JObject _ => item
             | _ => JObject [(lit "value", item)]
             end;
     raw := SerializeJSONProperty item;
     error := None |}.

(** A result whose columns and error count are read off its records. *)
Definition result_of (recs : list ParsedRecord) : ParseResult :=
  {| records := recs;
     columns := ordered_union (flat_map record_keys recs);
     errorCount := length (filter has_error recs) |}.

(** The shape of a result: the index and error of each record, the
    columns, the error count. *)
Definition shape (c : completion ParseResult)
  : option (list (nat * option jsstring) * list jsstring * nat) :=
  match c with
  | Normal r =>
      Some (map (fun rec => (index rec, error rec)) (records r),
            columns r, errorCount r)
  | Throw _ => None
  end.

(** Exactly one of: the data is not null, the error is present. *)
Definition exactly_one_of_data_and_error (r : ParsedRecord) : Prop :=
  (is_null (data r) = false /\ has_error r = false)
  \/ (is_null (data r) = true /\ has_error r = true).

(** The value is an array or an object: what the whole-document path
    of [parseJsonl] accepts. *)
Definition is_array_or_object (v : JsValue) : bool :=
  match v with
  | JArray _ | JObject _ => true
  | _ => false
  end.

(** The locals of a loop that has pushed the records [recs]. *)
Definition state_of (recs : list ParsedRecord) : Locals :=
  {| var_records := recs;
     var_columnSet := ordered_union (flat_map record_keys recs);
     var_errorCount := length (filter has_error recs) |}.

(** The records of the whole-document path, when [parseJsonl] takes it:
    the trimmed text starts with a bracket or a brace and parses to an
    object, or to an array on none of whose elements [JSON.stringify]
    runs out. *)
Definition whole_document_records (text : jsstring)
  : option (list ParsedRecord) :=
  let trimmed := JSString.trim text in
  if JSString.startsWith trimmed (lit "[")
     || JSString.startsWith trimmed (lit "{")
  then match JSON_parse trimmed with
       | Normal (JArray elements) =>
           if existsb stringify_exhausts elements then None
           else Some (Array_map 0 element_record elements)
       | Normal (JObject props) =>
           Some [{| index := 0; data := JObject props; raw := trimmed;
                    error := None |}]
       | _ => None
       end
  else None.

(** The records of a text, on whichever path. *)
Definition parsed_records (text : jsstring) : list ParsedRecord :=
  match whole_document_records text with
  | Some recs => recs
  | None => lines_records 1 0 (JSString.split LF text)
  end.

(** The lines as they come out of a text whose lines end in CR LF: all
    but the last keep the carriage return. *)
Fixpoint with_CR (ls : list jsstring) : list jsstring :=
  match ls with
  | [] => []
  | l :: rest =>
      match rest with
      | [] => [l]
      | _ :: _ => (l ++ [CR]) :: with_CR rest
      end
  end.

(** What the proofs about the grammar need: the tokens that are values
    by themselves, and the kind of container a parse is building. *)
Definition scalar_token (t : token) : bool :=
  match t with
  | TString _ | TNumber _ | TTrue | TFalse | TNull => true
  | _ => false
  end.

(** The lexer is inside a token, which is a scalar. *)
Definition inside_scalar (st : lex_state) : bool :=
  match st with
  | LIdle => false
  | LWord _ t => scalar_token t
  | _ => true
  end.

Inductive kind : Type := KArray | KObject.

Definition frame_kind (f : frame) : kind :=
  match f with
  | InArray _ => KArray
  | InObject _ _ => KObject
  end.

(** The outermost open container, [own] when the stack is empty. *)
Definition outermost (stack : list frame) (own : kind) : kind :=
  last (map frame_kind stack) own.

Definition kind_of (v : JsValue) : option kind :=
  match v with
  | JArray _ => Some KArray
  | JObject _ => Some KObject
  | _ => None
  end.

(** The kind of the value the parser is building at the top level. *)
Definition root (st : parse_state) : option kind :=
  match st with
  | PValue [] => None
  | PValue stack => Some (outermost stack KArray)
  | PArrayOpen stack | PArrayNext _ stack => Some (outermost stack KArray)
  | PObjectOpen stack | PObjectKey _ stack | PObjectColon _ _ stack
  | PObjectNext _ stack => Some (outermost stack KObject)
  | PDone v => kind_of v
  end.

End Runtime.

(* ================================================================== *)
(** ** The viewer around the parser *)
(* ================================================================== *)

(** What the components do with a text and with the result of
    [parseJsonl], apart from drawing it. *)

(** [s.includes(q)]: [q] occurs in [s] as a run of code units. *)
Fixpoint String_includes (s q : jsstring) : bool :=
  JSString.startsWith s q
  || match s with
     | [] => false
     | _ :: s' => String_includes s' q
     end.

(** [l.find(p)]; [None] is [undefined]. *)
Fixpoint Array_find {A} (p : A -> bool) (l : list A) : option A :=
  match l with
  | [] => None
  | x :: l' => if p x then Some x else Array_find p l'
  end.

(** [l.findIndex(p)]: the first position where [p] holds, or -1. *)
Fixpoint Array_findIndex {A} (p : A -> bool) (l : list A) : Z :=
  match l with
  | [] => (-1)%Z
  | x :: l' =>
      if p x then 0%Z
      else let i := Array_findIndex p l' in
           if Z.eqb i (-1) then (-1)%Z else (i + 1)%Z
  end.

(** A [Set] of numbers, in insertion order. *)
Definition NumberSet_add (i : nat) (set : list nat) : list nat :=
  if existsb (Nat.eqb i) set then set else set ++ [i].

Definition NumberSet_of (l : list nat) : list nat :=
  fold_left (fun set i => NumberSet_add i set) l [].

Definition NumberSet_has (set : list nat) (i : nat) : bool :=
  existsb (Nat.eqb i) set.

Section Viewer.

Context {number : JsNumber} {engine : JsEngine}.

(** [String.prototype.toLowerCase] follows the Unicode case tables,
    which are not part of the repository: any function stands for it. *)
Variable toLowerCase : jsstring -> jsstring.

(** *** view-switcher.tsx, [DropZone]: the text of a file *)

(** What the drop zone does with the text of a file once it is read
    ([reader.onload], lines 98 to 107): it refuses a text that trims to
    the empty string, and hands any other text to [handleFileLoad],
    which parses it (jsonl-viewer.tsx, line 49). *)
Inductive Outcome : Type :=
| ShowError (message : jsstring)
| ShowViewer (parseResult : ParseResult).

Definition readFile_onload (text : jsstring) : completion Outcome :=
  if jsstring_eqb (JSString.trim text) []
  then Normal (ShowError (lit "File is empty"))
  else match parseJsonl text with
       | Normal result => Normal (ShowViewer result)
       | Throw e => Throw e
       end.

(** *** jsonl-viewer.tsx: search and selection *)

(** An array of records as the viewer passes it around: the array
    [parseResult.records] itself, or an array made anew. *)
Inductive RecordsRef : Type :=
| SameArray (items : list ParsedRecord)
| NewArray (items : list ParsedRecord).

Definition items_of (ref : RecordsRef) : list ParsedRecord :=
  match ref with
  | SameArray items | NewArray items => items
  end.

(** [ref !== parseResult.records] *)
Definition is_new_array (ref : RecordsRef) : bool :=
  match ref with
  | SameArray _ => false
  | NewArray _ => true
  end.

(** jsonl-viewer.tsx, lines 72 to 76: the memo [filteredRecords]. *)
Definition filteredRecords (parseResult : option ParseResult)
           (searchQuery : jsstring) : RecordsRef :=
  match parseResult with
  | None => NewArray []
  | Some result =>
      if jsstring_eqb (JSString.trim searchQuery) []
      then SameArray (records result)
      else
        let q := toLowerCase searchQuery in
        NewArray (filter (fun r => String_includes (toLowerCase (raw r)) q)
                         (records result))
  end.

Definition matchCount (parseResult : option ParseResult)
           (searchQuery : jsstring) : nat :=
  length (items_of (filteredRecords parseResult searchQuery)).

Definition totalCount (parseResult : option ParseResult) : nat :=
  match parseResult with
  | Some result => length (records result)
  | None => 0
  end.

Inductive Direction : Type := Prev | Next.

(** jsonl-viewer.tsx, lines 87 to 99: the value of [selectedRecord]
    after [handleNavigateRecord(direction)].  The read of
    [records[newIdx]] is guarded by the test on [newIdx]. *)
Definition handleNavigateRecord (selectedRecord : option nat)
           (parseResult : option ParseResult)
           (filtered : list ParsedRecord) (direction : Direction)
  : option nat :=
  match selectedRecord, parseResult with
  | Some selected, Some _ =>
      let currentIdx :=
        Array_findIndex (fun r => Nat.eqb (index r) selected) filtered in
      if Z.eqb currentIdx (-1) then selectedRecord
      else
        let newIdx := match direction with
                      | Prev => (currentIdx - 1)%Z
                      | Next => (currentIdx + 1)%Z
                      end in
        if Z.leb 0 newIdx && Z.ltb newIdx (Z.of_nat (length filtered))
        then match nth_error filtered (Z.to_nat newIdx) with
             | Some r => Some (index r)
             | None => selectedRecord
             end
        else selectedRecord
  | _, _ => selectedRecord
  end.

(** jsonl-viewer.tsx, lines 166 to 169: [selectedData]. *)
Definition selectedData (selectedRecord : option nat)
           (parseResult : ParseResult) : option ParsedRecord :=
  match selectedRecord with
  | Some selected =>
      Array_find (fun r => Nat.eqb (index r) selected) (records parseResult)
  | None => None
  end.

(** raw-view.tsx, lines 127 and 207 to 208: whether a line is dimmed. *)
Definition isFiltered (filtered : RecordsRef) (record : ParsedRecord)
  : bool :=
  let filteredSet := NumberSet_of (map index (items_of filtered)) in
  is_new_array filtered && negb (NumberSet_has filteredSet (index record)).

(** *** jsonl-viewer.tsx, [JsonlViewer]: the state and what changes it *)

(** The state of the viewer, as far as the records go.  [file] is set
    and cleared together with [parseResult]. *)
Record ViewerState : Type := {
  parseResult : option ParseResult;
  selectedRecord : option nat;
  detailOpen : bool;
  searchQuery : jsstring;
  showKeyboardHelp : bool
}.

Definition initial_ViewerState : ViewerState :=
  {| parseResult := None; selectedRecord := None; detailOpen := false;
     searchQuery := []; showKeyboardHelp := false |}.

(** What the user can do.  A row of the table view is one of the
    records the search keeps, a line of the raw view is one of all the
    records; a click on a row or line that is not there does not
    happen, and is taken as changing nothing.  The events are taken in
    any state, also one in which the component that sends them is not
    on the screen. *)
Inductive ViewerEvent : Type :=
| FileRead (text : jsstring)
| ClickReset
| ClickRow (k : nat)
| ClickLine (k : nat)
| ClickNavigate (direction : Direction)
| CloseDetail
| TypeSearch (query : jsstring)
| ToggleKeyboardHelp
| CloseKeyboardHelp
| KeyEscape
| KeyArrow (direction : Direction).

(** [handleSelectRecord], lines 82 to 85. *)
Definition handleSelectRecord (s : ViewerState) (index : nat) : ViewerState :=
  {| parseResult := parseResult s; selectedRecord := Some index;
     detailOpen := true; searchQuery := searchQuery s;
     showKeyboardHelp := showKeyboardHelp s |}.

(** [handleNavigateRecord] on the state. *)
Definition navigate (s : ViewerState) (direction : Direction) : ViewerState :=
  {| parseResult := parseResult s;
     selectedRecord :=
       handleNavigateRecord (selectedRecord s) (parseResult s)
         (items_of (filteredRecords (parseResult s)
                      (searchQuery s)))
         direction;
     detailOpen := detailOpen s; searchQuery := searchQuery s;
     showKeyboardHelp := showKeyboardHelp s |}.

Definition Viewer_step (s : ViewerState) (e : ViewerEvent) : ViewerState :=
  match e with
  | FileRead text =>
      (* the drop zone, then [handleFileLoad], lines 46 to 60 *)
      match readFile_onload text with
      | Normal (ShowViewer result) =>
          {| parseResult := Some result; selectedRecord := None;
             detailOpen := false; searchQuery := [];
             showKeyboardHelp := showKeyboardHelp s |}
      | _ => s
      end
  | ClickReset =>
      (* [handleReset], lines 62 to 69 *)
      {| parseResult := None; selectedRecord := None; detailOpen := false;
         searchQuery := []; showKeyboardHelp := showKeyboardHelp s |}
  | ClickRow k =>
      match nth_error (items_of (filteredRecords (parseResult s)
                                   (searchQuery s))) k with
      | Some record => handleSelectRecord s (index record)
      | None => s
      end
  | ClickLine k =>
      match parseResult s with
      | Some result =>
          match nth_error (records result) k with
          | Some record => handleSelectRecord s (index record)
          | None => s
          end
      | None => s
      end
  | ClickNavigate direction => navigate s direction
  | CloseDetail =>
      {| parseResult := parseResult s; selectedRecord := selectedRecord s;
         detailOpen := false; searchQuery := searchQuery s;
         showKeyboardHelp := showKeyboardHelp s |}
  | TypeSearch query =>
      {| parseResult := parseResult s; selectedRecord := selectedRecord s;
         detailOpen := detailOpen s; searchQuery := query;
         showKeyboardHelp := showKeyboardHelp s |}
  | ToggleKeyboardHelp =>
      {| parseResult := parseResult s; selectedRecord := selectedRecord s;
         detailOpen := detailOpen s; searchQuery := searchQuery s;
         showKeyboardHelp := negb (showKeyboardHelp s) |}
  | CloseKeyboardHelp =>
      {| parseResult := parseResult s; selectedRecord := selectedRecord s;
         detailOpen := detailOpen s; searchQuery := searchQuery s;
         showKeyboardHelp := false |}
  | KeyEscape =>
      (* lines 129 to 137 *)
      if detailOpen s then
        {| parseResult := parseResult s; selectedRecord := selectedRecord s;
           detailOpen := false; searchQuery := searchQuery s;
           showKeyboardHelp := showKeyboardHelp s |}
      else if negb (jsstring_eqb (searchQuery s) []) then
        {| parseResult := parseResult s; selectedRecord := selectedRecord s;
           detailOpen := detailOpen s; searchQuery := [];
           showKeyboardHelp := showKeyboardHelp s |}
      else if showKeyboardHelp s then
        {| parseResult := parseResult s; selectedRecord := selectedRecord s;
           detailOpen := detailOpen s; searchQuery := searchQuery s;
           showKeyboardHelp := false |}
      else s
  | KeyArrow direction =>
      (* lines 148 to 154 *)
      if detailOpen s then navigate s direction else s
  end.

Definition Viewer_run (events : list ViewerEvent) : ViewerState :=
  fold_left Viewer_step events initial_ViewerState.

(** What holds of the state after any events. *)
Definition Viewer_invariant (s : ViewerState) : Prop :=
  (forall r, parseResult s = Some r -> exists text, parseJsonl text = Normal r)
  /\ (forall i, selectedRecord s = Some i ->
        exists r, parseResult s = Some r /\ i < length (records r))
  /\ (detailOpen s = true -> selectedRecord s <> None).

(** *** raw-view.tsx: copying all the records *)

(** The text that "Copy all" puts on the clipboard (raw-view.tsx,
    [handleCopyAll]). *)
Definition handleCopyAll_text (records : list ParsedRecord) : jsstring :=
  JSString.join [LF] (map raw records).

(** *** What the results are compared with, continued *)

(** Every code unit of the string is white space. *)
Definition all_white_space (s : jsstring) : bool :=
  forallb JSString.is_white_space s.

(** The line is not blank and [JSON.parse] throws on its trimmed text. *)
Definition line_fails (l : jsstring) : bool :=
  negb (is_blank l)
  && match JSON_parse (JSString.trim l) with
     | Normal _ => false
     | Throw _ => true
     end.

(** The data, raw text and error flag of a record: all of it but the
    index and the line number in the message. *)
Definition content (r : ParsedRecord) : JsValue * jsstring * bool :=
  (data r, raw r, has_error r).

(** What holds of the record of a line: its raw text is not empty, is
    trimmed, and [JSON.parse] of it gives the data, or throws when the
    record has an error. *)
Definition raw_agrees (rec : ParsedRecord) : Prop :=
  raw rec <> []
  /\ JSString.trim (raw rec) = raw rec
  /\ match JSON_parse (raw rec) with
     | Normal v => error rec = None /\ data rec = v
     | Throw _ => has_error rec = true /\ data rec = JNull
     end.

(** The keys of the properties are distinct. *)
Definition keys_distinct (props : list (jsstring * JsValue)) : Prop :=
  NoDup (map fst props).

Definition frame_keys_distinct (f : frame) : Prop :=
  match f with
  | InArray _ => True
  | InObject props _ => keys_distinct props
  end.

(** The own keys of the value, when it is an object, are distinct. *)
Definition own_keys_distinct (v : JsValue) : Prop :=
  match v with
  | JObject props => keys_distinct props
  | _ => True
  end.

Definition state_keys_distinct (st : parse_state) : Prop :=
  match st with
  | PValue stack | PArrayOpen stack | PArrayNext _ stack
  | PObjectOpen stack => Forall frame_keys_distinct stack
  | PObjectKey props stack | PObjectColon props _ stack
  | PObjectNext props stack =>
      keys_distinct props /\ Forall frame_keys_distinct stack
  | PDone v => own_keys_distinct v
  end.

End Viewer.

(** ** raw-view.tsx: [SyntaxLine] *)

Module Segment.
Record t : Type := { text : jsstring; className : jsstring }.
End Segment.

(** [c === " " || c === "\t"] *)
Definition is_space_or_tab (c : char16) : bool := N.eqb c 32 || N.eqb c 9.

(** [c >= "0" && c <= "9"] *)
Definition is_ascii_digit (c : char16) : bool := N.leb 48 c && N.leb c 57.

(** The test of the loop that gathers a number, lines 68 to 76. *)
Definition is_number_char (c : char16) : bool :=
  N.eqb c 45 || N.eqb c 46 || N.eqb c 101 || N.eqb c 69 || N.eqb c 43
  || is_ascii_digit c.

(** [while (i < text.length && p(text[i])) { acc += text[i]; i++; }]:
    what is gathered, and the text from the place where the loop ends. *)
Fixpoint gather (p : char16 -> bool) (rest : jsstring) : jsstring * jsstring :=
  match rest with
  | [] => ([], [])
  | c :: rest' =>
      if p c then let (acc, stop) := gather p rest' in (c :: acc, stop)
      else ([], rest)
  end.

(** The loop over the inside of a string, lines 40 to 49: a backslash
    takes the code unit after it along, whatever it is. *)
Fixpoint gather_string (rest : jsstring) : jsstring * jsstring :=
  match rest with
  | [] => ([], [])
  | c :: rest' =>
      if N.eqb c 34 then ([], rest)
      else if N.eqb c 92 then
        match rest' with
        | [] => ([c], [])
        | d :: rest'' =>
            let (acc, stop) := gather_string rest'' in (c :: d :: acc, stop)
        end
      else let (acc, stop) := gather_string rest' in (c :: acc, stop)
  end.

(** One turn of the outer loop on the text from [i] on, which is not
    empty: the segment pushed, and the text from the new [i] on. *)
Definition SyntaxLine_turn (c : char16) (after : jsstring)
  : Segment.t * jsstring :=
  let rest := c :: after in
  if is_space_or_tab c then
    let (ws, stop) := gather is_space_or_tab rest in
    ({| Segment.text := ws; Segment.className := lit "" |}, stop)
  else if N.eqb c 34 then
    let (inside, stop) := gather_string after in
    let (str, stop') :=
      match stop with
      | [] => (34%N :: inside, [])
      | _ :: stop' => (34%N :: inside ++ [34%N], stop')
      end in
    let isKey := match snd (gather (N.eqb 32) stop') with
                 | j :: _ => N.eqb j 58
                 | [] => false
                 end in
    ({| Segment.text := str;
        Segment.className := if isKey then lit "text-syntax-key"
                             else lit "text-syntax-string" |}, stop')
  else if N.eqb c 45 || is_ascii_digit c then
    let (num, stop) := gather is_number_char rest in
    ({| Segment.text := num; Segment.className := lit "text-syntax-number" |},
     stop)
  else if JSString.startsWith rest (lit "true") then
    ({| Segment.text := lit "true";
        Segment.className := lit "text-syntax-boolean" |}, skipn 4 rest)
  else if JSString.startsWith rest (lit "false") then
    ({| Segment.text := lit "false";
        Segment.className := lit "text-syntax-boolean" |}, skipn 5 rest)
  else if JSString.startsWith rest (lit "null") then
    ({| Segment.text := lit "null";
        Segment.className := lit "text-syntax-null" |}, skipn 4 rest)
  else
    ({| Segment.text := [c]; Segment.className := lit "text-syntax-bracket" |},
     after).

(** The outer loop, [while (i < text.length)], with a bound on the
    number of turns: [None] when the bound is reached. *)
Fixpoint SyntaxLine_loop (fuel : nat) (rest : jsstring)
  : option (list Segment.t) :=
  match rest with
  | [] => Some []
  | c :: after =>
      match fuel with
      | 0 => None
      | S fuel' =>
          let (segment, rest') := SyntaxLine_turn c after in
          match SyntaxLine_loop fuel' rest' with
          | Some segments => Some (segment :: segments)
          | None => None
          end
      end
  end.

(** The spans [SyntaxLine] renders.  As many turns as the text has code
    units are allowed, which is enough (see below). *)
Definition SyntaxLine (text : jsstring) (isError : bool)
  : option (list Segment.t) :=
  if isError
  then Some [{| Segment.text := text;
                Segment.className := lit "text-destructive" |}]
  else SyntaxLine_loop (length text) text.

(** What a segment may be, class by class. *)
Definition segment_well_formed (s : Segment.t) : Prop :=
  (Segment.className s = lit ""
   /\ Segment.text s <> []
   /\ Forall (fun c => is_space_or_tab c = true) (Segment.text s))
  \/ ((Segment.className s = lit "text-syntax-key"
       \/ Segment.className s = lit "text-syntax-string")
      /\ exists inside, Segment.text s = 34%N :: inside)
  \/ (Segment.className s = lit "text-syntax-number"
      /\ Forall (fun c => is_number_char c = true) (Segment.text s)
      /\ exists c rest, Segment.text s = c :: rest
                        /\ (N.eqb c 45 || is_ascii_digit c) = true)
  \/ (Segment.className s = lit "text-syntax-boolean"
      /\ (Segment.text s = lit "true" \/ Segment.text s = lit "false"))
  \/ (Segment.className s = lit "text-syntax-null"
      /\ Segment.text s = lit "null")
  \/ (Segment.className s = lit "text-syntax-bracket"
      /\ exists c, Segment.text s = [c]
                   /\ is_space_or_tab c = false /\ N.eqb c 34 = false
                   /\ (N.eqb c 45 || is_ascii_digit c) = false).

(** ** Regular expressions, as [String.prototype.match] runs them *)

(** The patterns of [HighlightLine], which have no flag: they match
    code unit by code unit. *)
Inductive regex : Type :=
| Empty                               (* the empty pattern *)
| Chars (p : char16 -> bool)          (* one code unit: [x], [\s], [.] *)
| Seq (r1 r2 : regex)                 (* r1 r2 *)
| Alt (r1 r2 : regex)                 (* r1 | r2 *)
| Star (r : regex).                   (* r*, greedy *)

(** [r+] *)
Definition Plus (r : regex) : regex := Seq r (Star r).

(** [r?], greedy *)
Definition Opt (r : regex) : regex := Alt r Empty.

(** One given code unit. *)
Definition Char (c : char16) : regex := Chars (N.eqb c).

(** The code units of a literal, one after the other. *)
Fixpoint Literal (s : jsstring) : regex :=
  match s with
  | [] => Empty
  | c :: s' => Seq (Char c) (Literal s')
  end.

(** The turns of a star: a further turn is tried before the star is
    left, and a turn that takes nothing is refused. *)
Fixpoint star_loop {A} (body : jsstring -> (jsstring -> option A) -> option A)
         (k : jsstring -> option A) (turns : nat) (s : jsstring)
  : option A :=
  match turns with
  | 0 => k s
  | S turns' =>
      match body s (fun s1 => if Nat.ltb (length s1) (length s)
                              then star_loop body k turns' s1 else None) with
      | Some x => Some x
      | None => k s
      end
  end.

(** The matcher of a pattern, in the style of the ECMAScript
    specification: it takes the text from the current position and a
    continuation for the rest of the pattern, tries the alternatives in
    order, the left one first, and comes back to the next choice when
    the continuation fails.  [fuel] bounds the turns of each star; the
    length of the text is enough. *)
Fixpoint rmatch {A} (r : regex) (fuel : nat) (s : jsstring)
         (k : jsstring -> option A) {struct r} : option A :=
  match r with
  | Empty => k s
  | Chars p =>
      match s with
      | c :: s' => if p c then k s' else None
      | [] => None
      end
  | Seq r1 r2 => rmatch r1 fuel s (fun s1 => rmatch r2 fuel s1 k)
  | Alt r1 r2 =>
      match rmatch r1 fuel s k with
      | Some x => Some x
      | None => rmatch r2 fuel s k
      end
  | Star r1 => star_loop (rmatch r1 fuel) k fuel s
  end.

(** [s.match(/^(r1)(r2)/)]: the texts of the two groups and what
    follows the match, or [None] for [null].  With [^] and no flag, the
    pattern matches at the start of the string or not at all. *)
Definition match_groups (r1 r2 : regex) (s : jsstring)
  : option (jsstring * jsstring * jsstring) :=
  rmatch r1 (length s) s
    (fun s1 =>
       rmatch r2 (length s) s1
         (fun s2 =>
            Some (firstn (length s - length s1) s,
                  firstn (length s1 - length s2) s1,
                  s2))).

(** [\s] *)
Definition re_space : regex := Chars JSString.is_white_space.

(** [\d] *)
Definition re_digit : regex := Chars (fun c => N.leb 48 c && N.leb c 57).

(** [.]: any code unit but a line terminator. *)
Definition re_dot : regex :=
  Chars (fun c => negb (N.eqb c 10 || N.eqb c 13
                        || N.eqb c 8232 || N.eqb c 8233)).

(** The pattern of a string: a quotation mark; then, any number of
    times, a code unit that is neither a quotation mark nor a
    backslash, or a backslash and [.]; then a quotation mark. *)
Definition re_string : regex :=
  Seq (Char 34%N)
      (Seq (Star (Alt (Chars (fun c => negb (N.eqb c 34 || N.eqb c 92)))
                      (Seq (Char 92%N) re_dot)))
           (Char 34%N)).

(** [\s*:] *)
Definition re_colon : regex := Seq (Star re_space) (Char 58%N).

(** [,?] *)
Definition re_comma : regex := Opt (Char 44%N).

(** [-?\d+(?:\.\d+)?(?:[eE][+-]?\d+)?] *)
Definition re_number : regex :=
  Seq (Opt (Char 45%N))
      (Seq (Plus re_digit)
           (Seq (Opt (Seq (Char 46%N) (Plus re_digit)))
                (Opt (Seq (Chars (fun c => N.eqb c 101 || N.eqb c 69))
                          (Seq (Opt (Chars (fun c => N.eqb c 43
                                                     || N.eqb c 45)))
                               (Plus re_digit)))))).

(** [true|false] *)
Definition re_boolean : regex := Alt (Literal (lit "true")) (Literal (lit "false")).

(** [null] *)
Definition re_null : regex := Literal (lit "null").

(** ** The record detail panel (src/unnamed/part_002): [HighlightLine] *)

(** A span of [segments]. *)

Definition span (text : jsstring) (className : string) : Segment.t :=
  {| Segment.text := text; Segment.className := lit className |}.

(** A value and the comma after it, when there is one: the spans
    pushed for a match of a string, a number, a boolean or null. *)
Definition value_spans (className : string) (value comma : jsstring)
  : list Segment.t :=
  span value className
  :: (if jsstring_eqb comma [] then []
      else [span comma "text-syntax-bracket"]).

(** One turn of the loop on [remaining], which is not empty: the spans
    pushed, and the new [remaining]. *)
Definition HighlightLine_turn (c : char16) (after : jsstring)
  : list Segment.t * jsstring :=
  let remaining := c :: after in
  match match_groups (Plus re_space) Empty remaining with
  | Some (ws, _, rest) => ([span ws ""], rest)
  | None =>
  match match_groups re_string re_colon remaining with
  | Some (key, _, rest) =>
      let trimmed := JSString.trimStart rest in
      (span key "text-syntax-key" :: span (lit ": ") "text-syntax-bracket"
       :: (if jsstring_eqb trimmed rest then []
           else [span (firstn (length rest - length trimmed) rest) ""]),
       trimmed)
  | None =>
  match match_groups re_string re_comma remaining with
  | Some (str, comma, rest) => (value_spans "text-syntax-string" str comma, rest)
  | None =>
  match match_groups re_number re_comma remaining with
  | Some (num, comma, rest) => (value_spans "text-syntax-number" num comma, rest)
  | None =>
  match match_groups re_boolean re_comma remaining with
  | Some (b, comma, rest) => (value_spans "text-syntax-boolean" b comma, rest)
  | None =>
  match match_groups re_null re_comma remaining with
  | Some (n, comma, rest) =>
      (value_spans "text-syntax-null italic" n comma, rest)
  | None => ([span [c] "text-syntax-bracket"], after)
  end end end end end end.

(** The loop [while (remaining.length > 0)], with a bound on the number
    of turns: [None] when the bound is reached. *)
Fixpoint HighlightLine_loop (fuel : nat) (remaining : jsstring)
  : option (list Segment.t) :=
  match remaining with
  | [] => Some []
  | c :: after =>
      match fuel with
      | 0 => None
      | S fuel' =>
          let (spans, remaining') := HighlightLine_turn c after in
          match HighlightLine_loop fuel' remaining' with
          | Some segments => Some (spans ++ segments)
          | None => None
          end
      end
  end.

Definition HighlightLine (line : jsstring) : option (list Segment.t) :=
  HighlightLine_loop (length line) line.

(** The text without its white space. *)
Definition without_white_space (s : jsstring) : jsstring :=
  filter (fun c => negb (JSString.is_white_space c)) s.

(** What is shown for a list of spans. *)
Definition shown (segments : list Segment.t) : jsstring :=
  concat (map Segment.text segments).

(** The words of a pattern. *)
Inductive matches : regex -> jsstring -> Prop :=
| matches_Empty : matches Empty []
| matches_Chars p c : p c = true -> matches (Chars p) [c]
| matches_Seq r1 r2 w1 w2 :
    matches r1 w1 -> matches r2 w2 -> matches (Seq r1 r2) (w1 ++ w2)
| matches_Alt_l r1 r2 w : matches r1 w -> matches (Alt r1 r2) w
| matches_Alt_r r1 r2 w : matches r2 w -> matches (Alt r1 r2) w
| matches_Star_nil r : matches (Star r) []
| matches_Star_cons r w1 w2 :
    matches r w1 -> matches (Star r) w2 -> matches (Star r) (w1 ++ w2).

(** The pattern has the empty word, as far as its shape tells. *)
Fixpoint nullable (r : regex) : bool :=
  match r with
  | Empty => true
  | Chars _ => false
  | Seq r1 r2 => nullable r1 && nullable r2
  | Alt r1 r2 => nullable r1 || nullable r2
  | Star _ => true
  end.

(** The span is that of a key. *)
Definition is_key_span (s : Segment.t) : bool :=
  jsstring_eqb (Segment.className s) (lit "text-syntax-key").

(** ** The tree view (src/unnamed/part_000): moving between records *)

(** The digits at the start of the string, as [Number.parseInt] reads
    them in radix 10: their value so far, whether one was read, and
    nothing of what follows them. *)
Fixpoint leading_digits (acc : Z) (seen : bool) (s : jsstring) : option Z :=
  match s with
  | [] => if seen then Some acc else None
  | c :: s' =>
      if N.leb 48 c && N.leb c 57
      then leading_digits (acc * 10 + Z.of_N (c - 48)) true s'
      else if seen then Some acc else None
  end.

(** [Number.parseInt(s, 10)]: white space is skipped, a sign is read,
    then the digits; [None] is [NaN].  The value is exact, where the
    engine rounds to a double: the two compare alike with the length of
    an array. *)
Definition Number_parseInt (s : jsstring) : option Z :=
  match JSString.trimStart s with
  | [] => None
  | c :: s' =>
      if N.eqb c 45 then option_map Z.opp (leading_digits 0 false s')
      else if N.eqb c 43 then leading_digits 0 false s'
      else leading_digits 0 false (c :: s')
  end.

(** What can happen to the position of the tree view. *)
Inductive TreeEvent : Type :=
| ClickPrev
| ClickNext
| TypeIndex (value : jsstring).

(** [handlePrev]: [setCurrentIndex((i) => Math.max(0, i - 1))] *)
Definition handlePrev (i : Z) : Z := Z.max 0 (i - 1).

(** [handleNext]: [setCurrentIndex((i) => Math.min(records.length - 1, i + 1))] *)
Definition handleNext (length : nat) (i : Z) : Z :=
  Z.min (Z.of_nat length - 1) (i + 1).

(** [handleIndexInput], with [value] for [e.target.value]. *)
Definition handleIndexInput (length : nat) (value : jsstring) (i : Z) : Z :=
  match Number_parseInt value with
  | Some val =>
      if Z.leb 1 val && Z.leb val (Z.of_nat length) then (val - 1)%Z else i
  | None => i
  end.

Definition TreeView_step (length : nat) (i : Z) (e : TreeEvent) : Z :=
  match e with
  | ClickPrev => handlePrev i
  | ClickNext => handleNext length i
  | TypeIndex value => handleIndexInput length value i
  end.

(** ** view-switcher.tsx, [DropZone]: the highlight while a file is
    dragged over the zone *)

Inductive DragEvent : Type := DragEnter | DragLeave | DropFile.

(** The ref [dragCounter] and the state [isDragging]. *)
Record DragState : Type := {
  dragCounter : Z;
  isDragging : bool
}.

Definition initial_DragState : DragState :=
  {| dragCounter := 0; isDragging := false |}.

(** [handleDragEnter], [handleDragLeave] and [handleDrop], as far as
    the counter and the highlight go. *)
Definition DropZone_step (s : DragState) (e : DragEvent) : DragState :=
  match e with
  | DragEnter =>
      {| dragCounter := dragCounter s + 1; isDragging := true |}
  | DragLeave =>
      let counter := (dragCounter s - 1)%Z in
      {| dragCounter := counter;
         isDragging := if Z.eqb counter 0 then false else isDragging s |}
  | DropFile => {| dragCounter := 0; isDragging := false |}
  end.

(** No element is left that was not entered: what a browser sends. *)
Fixpoint leaves_follow_enters (counter : Z) (events : list DragEvent)
  : Prop :=
  match events with
  | [] => True
  | e :: events' =>
      match e with
      | DragEnter => leaves_follow_enters (counter + 1) events'
      | DragLeave =>
          (0 < counter)%Z /\ leaves_follow_enters (counter - 1) events'
      | DropFile => leaves_follow_enters 0 events'
      end
  end.

(* ================================================================== *)
(** ** Arrays nested in one another *)
(* ================================================================== *)

Section NestedArrays.
Context {number : JsNumber}.

(** [n + 1] arrays, each the only element of the one around it. *)
Fixpoint nested_arrays (n : nat) : JsValue :=
  match n with
  | 0 => JArray []
  | S n' => JArray [nested_arrays n']
  end.

(** The text of [n + 1] arrays nested in one another. *)
Definition nested_brackets (n : nat) : jsstring :=
  repeat 91%N (S n) ++ repeat 93%N (S n).

(** An array on two lines: the number 1, then [n + 1] arrays nested in
    one another. *)
Definition text_deep_array (n : nat) : jsstring :=
  lit "[1," ++ [LF] ++ nested_brackets n ++ lit "]".

End NestedArrays.

(* ================================================================== *)
(** ** Sample texts *)
(* ================================================================== *)

(** A first line that starts with a brace and is not JSON, then a line
    that is. *)
Definition text_bad_then_good : jsstring :=
  lit " {bad}" ++ [LF] ++ qlit "{'a':1}".

(** An array of a number, a string, null, an object and an array, with
    white space around it. *)
Definition text_mixed_array : jsstring :=
  qlit " [1, 'a', null, {'k': true}, [2]] ".

(** The value of [text_mixed_array], numbers being kept as numerals. *)
Definition mixed_array : list (@JsValue numeralNumbers) :=
  [@JNumber numeralNumbers (lit "1"); JString (lit "a"); JNull;
   JObject [(lit "k", JBool true)];
   JArray [@JNumber numeralNumbers (lit "2")]].

(** Four lines: the first parses, the second is empty, the third fails,
    the fourth parses. *)
Definition text_with_bad_line : jsstring :=
  qlit "{'id':1}" ++ [LF] ++ [LF] ++ lit "  bad " ++ [LF] ++ qlit "{'id':2}".

(** Two lines: a number, then [null] in white space. *)
Definition text_with_null_line : jsstring :=
  lit "1" ++ [LF] ++ lit " null ".

(** Four lines: an object, an empty line, a line that fails, [null]
    after a space. *)
Definition some_lines : list jsstring :=
  [qlit "{'a':1}"; lit ""; lit "bad"; lit " null"].

(** An object in white space, with a key given twice and two keys that
    are array indices. *)
Definition text_one_object : jsstring :=
  qlit " {'b':1,'2':true,'b':null,'1':[]} ".

(** The properties of the value of [text_one_object], in their order of
    creation. *)
Definition one_object : list (jsstring * @JsValue numeralNumbers) :=
  [(lit "b", JNull); (lit "2", JBool true); (lit "1", JArray [])].

(** The engine of the sample runs: its stack has room for 4096 levels
    of nesting. *)
Definition sample_engine : @JsEngine numeralNumbers := stack_of 4096.

(** Three lines with white space around them, and the same lines
    without it. *)
Definition indented_lines : list jsstring :=
  [qlit "  {'a':1}"; [9%N]; lit "bad " ++ [CR]].

Definition bare_lines : list jsstring :=
  [qlit "{'a':1}"; lit ""; lit "bad"].

(** The pointer enters the zone, then a child of it, leaves the child
    and the zone, and comes back. *)
Definition pointer_in_and_out : list DragEvent :=
  [DragEnter; DragEnter; DragLeave; DragLeave; DragEnter].

(* ================================================================== *)
(** ** Strings *)
(* ================================================================== *)

Lemma jsstring_eqb_eq (a b : jsstring) : jsstring_eqb a b = true <-> a = b.
Proof.
  revert b; induction a as [|x a IH]; intros [|y b]; simpl;
    try (split; [discriminate | discriminate]); try tauto.
  rewrite andb_true_iff, N.eqb_eq, IH. split.
  - intros [-> ->]; reflexivity.
  - intros E; injection E; auto.
Qed.

Lemma jsstring_eqb_refl (a : jsstring) : jsstring_eqb a a = true.
Proof. apply jsstring_eqb_eq; reflexivity. Qed.

Lemma jsstring_eqb_neq (a b : jsstring) : jsstring_eqb a b = false <-> a <> b.
Proof.
  rewrite <- jsstring_eqb_eq. destruct (jsstring_eqb a b); split; congruence.
Qed.

Lemma jsstring_eqb_sym (a b : jsstring) : jsstring_eqb a b = jsstring_eqb b a.
Proof.
  destruct (jsstring_eqb b a) eqn:E.
  - apply jsstring_eqb_eq in E; subst; apply jsstring_eqb_refl.
  - apply jsstring_eqb_neq. apply jsstring_eqb_neq in E. congruence.
Qed.

Section Properties.

Context {number : JsNumber} {engine : JsEngine}.

(* ================================================================== *)
(** ** The loops, run *)
(* ================================================================== *)

Lemma Set_has_false_filter (k : jsstring) (l : list jsstring) :
  Set_has l k = false -> filter (fun k' => negb (jsstring_eqb k k')) l = l.
Proof.
  unfold Set_has. induction l as [|a l IH]; simpl; intros H; [reflexivity|].
  apply orb_false_iff in H as [H1 H2]. rewrite H1; simpl. now rewrite IH.
Qed.

Lemma Set_has_filter (k a : jsstring) (l : list jsstring) :
  Set_has (filter (fun k' => negb (jsstring_eqb a k')) l) k
  = negb (jsstring_eqb a k) && Set_has l k.
Proof.
  unfold Set_has. induction l as [|b l IH]; simpl.
  - now rewrite andb_false_r.
  - destruct (jsstring_eqb a b) eqn:Eab; simpl.
    + rewrite IH. apply jsstring_eqb_eq in Eab; subst b.
      rewrite (jsstring_eqb_sym k a).
      destruct (jsstring_eqb a k); reflexivity.
    + rewrite IH.
      destruct (jsstring_eqb k b) eqn:Ekb; simpl.
      * apply jsstring_eqb_eq in Ekb; subst b. now rewrite Eab.
      * reflexivity.
Qed.

Lemma Set_has_app (l1 l2 : list jsstring) (k : jsstring) :
  Set_has (l1 ++ l2) k = Set_has l1 k || Set_has l2 k.
Proof. unfold Set_has. apply existsb_app. Qed.

(** Adding to the set is adding to the sequence of keys seen so far. *)
Lemma ordered_union_snoc (l : list jsstring) (k : jsstring) :
  ordered_union (l ++ [k]) = Set_add k (ordered_union l).
Proof.
  induction l as [|a l IH]; simpl.
  - reflexivity.
  - rewrite IH. unfold Set_add.
    change (Set_has (a :: ?x) k) with (jsstring_eqb k a || Set_has x k).
    rewrite Set_has_filter, (jsstring_eqb_sym k a).
    destruct (jsstring_eqb a k) eqn:Eak; simpl.
    + destruct (Set_has (ordered_union l) k) eqn:Eh; [reflexivity|].
      rewrite filter_app; simpl. rewrite Eak; simpl. now rewrite app_nil_r.
    + destruct (Set_has (ordered_union l) k) eqn:Eh; [reflexivity|].
      rewrite filter_app; simpl. rewrite Eak; simpl. reflexivity.
Qed.

Lemma fold_Set_add (keys l : list jsstring) :
  fold_left (fun set k => Set_add k set) keys (ordered_union l)
  = ordered_union (l ++ keys).
Proof.
  revert l; induction keys as [|k keys IH]; intros l; simpl.
  - now rewrite app_nil_r.
  - rewrite <- ordered_union_snoc, IH, <- app_assoc. reflexivity.
Qed.

Lemma for_of_columnSet_add (keys : list jsstring) (s : Locals) :
  for_of keys columnSet_add s
  = (Normal tt,
     {| var_records := var_records s;
        var_columnSet :=
          fold_left (fun set k => Set_add k set) keys (var_columnSet s);
        var_errorCount := var_errorCount s |}).
Proof.
  revert s; induction keys as [|k keys IH]; intros s; simpl.
  - destruct s; reflexivity.
  - unfold bind at 1. simpl. rewrite IH. reflexivity.
Qed.

(** The keys [add_columns] feeds to the set are those of a record that
    holds the data and no error. *)
Lemma add_columns_run (d : JsValue) (s : Locals) :
  add_columns d s
  = (Normal tt,
     {| var_records := var_records s;
        var_columnSet :=
          fold_left (fun set k => Set_add k set)
            (record_keys {| index := 0; data := d; raw := []; error := None |})
            (var_columnSet s);
        var_errorCount := var_errorCount s |}).
Proof.
  unfold add_columns, record_keys; destruct d; simpl;
    try (destruct s; reflexivity).
  unfold bind, call. apply for_of_columnSet_add.
Qed.

Lemma record_keys_parsed (r : ParsedRecord) :
  error r = None ->
  record_keys r
  = record_keys {| index := 0; data := data r; raw := []; error := None |}.
Proof. unfold record_keys; simpl. now intros ->. Qed.

Lemma record_keys_failed (r : ParsedRecord) :
  has_error r = true -> record_keys r = [].
Proof. unfold has_error, record_keys. destruct (error r); [reflexivity | discriminate]. Qed.

Lemma state_of_snoc (recs : list ParsedRecord) (r : ParsedRecord) :
  state_of (recs ++ [r])
  = {| var_records := recs ++ [r];
       var_columnSet :=
         fold_left (fun set k => Set_add k set) (record_keys r)
           (ordered_union (flat_map record_keys recs));
       var_errorCount :=
         (if has_error r then 1 else 0) + length (filter has_error recs) |}.
Proof.
  unfold state_of. rewrite fold_Set_add, flat_map_app, filter_app, length_app.
  simpl. rewrite app_nil_r. f_equal. destruct (has_error r); simpl; lia.
Qed.

(** A parsed record is pushed after its keys went to the set. *)
Lemma push_parsed (r : nat -> ParsedRecord) (d : JsValue)
      (recs : list ParsedRecord) :
  (forall len, data (r len) = d /\ error (r len) = None) ->
  bind (add_columns d) (fun _ => records_push r) (state_of recs)
  = (Normal tt, state_of (recs ++ [r (length recs)])).
Proof.
  intros Hr. unfold bind. rewrite add_columns_run. unfold records_push, modify.
  simpl. rewrite state_of_snoc. destruct (Hr (length recs)) as [Hd He].
  rewrite (record_keys_parsed (r (length recs))), Hd by exact He.
  unfold has_error; rewrite He. reflexivity.
Qed.

(** A failed record is pushed after the error count went up. *)
Lemma push_failed (r : nat -> ParsedRecord) (recs : list ParsedRecord) :
  (forall len, has_error (r len) = true) ->
  bind errorCount_incr (fun _ => records_push r) (state_of recs)
  = (Normal tt, state_of (recs ++ [r (length recs)])).
Proof.
  intros Hr. unfold bind, errorCount_incr, records_push, modify. simpl.
  rewrite state_of_snoc, record_keys_failed, Hr by apply Hr. reflexivity.
Qed.

Lemma parseLines_body_run (i : nat) (l : jsstring) (recs : list ParsedRecord) :
  parseLines_body i l (state_of recs)
  = (Normal tt, state_of (recs ++ lines_records (i + 1) (length recs) [l])).
Proof.
  unfold parseLines_body; simpl. unfold is_blank.
  destruct (jsstring_eqb (JSString.trim l) []) eqn:Eb.
  - now rewrite app_nil_r.
  - unfold try_catch, line_record.
    unfold bind at 1, call.
    destruct (JSON_parse (JSString.trim l)) as [d | e].
    + rewrite push_parsed with (d := d) by (intros; split; reflexivity). reflexivity.
    + rewrite push_failed by reflexivity. reflexivity.
Qed.

Lemma lines_records_length (n idx : nat) (lines : list jsstring) :
  length (lines_records n idx lines) = count_nonblank lines.
Proof.
  unfold count_nonblank.
  revert n idx; induction lines as [|l lines IH]; intros n idx; simpl.
  - reflexivity.
  - destruct (is_blank l); simpl; now rewrite IH.
Qed.

Lemma for_index_parseLines_body (lines : list jsstring) (i : nat)
      (recs : list ParsedRecord) :
  for_index i lines parseLines_body (state_of recs)
  = (Normal tt,
     state_of (recs ++ lines_records (i + 1) (length recs) lines)).
Proof.
  revert i recs; induction lines as [|l lines IH]; intros i recs.
  - simpl. now rewrite app_nil_r.
  - cbn [for_index]. unfold bind. rewrite parseLines_body_run.
    rewrite IH. f_equal. f_equal. rewrite <- app_assoc. f_equal.
    cbn [lines_records]. rewrite length_app.
    destruct (is_blank l); simpl.
    + now rewrite Nat.add_0_r.
    + replace (length recs + 1) with (S (length recs)) by lia. reflexivity.
Qed.

(** [parseLines] never throws, and its result is read off the records of
    the lines. *)
Lemma parseLines_result (text : jsstring) :
  parseLines text
  = Normal (result_of (lines_records 1 0 (JSString.split LF text))).
Proof.
  unfold parseLines. change fresh_locals with (state_of []).
  rewrite for_index_parseLines_body. reflexivity.
Qed.

Lemma buildResult_body_run (item : Item) (recs : list ParsedRecord) :
  buildResult_body item (state_of recs)
  = (Normal tt, state_of (recs ++ [item_record item])).
Proof.
  unfold buildResult_body.
  rewrite push_parsed with (d := item_data item) by (intros; split; reflexivity).
  reflexivity.
Qed.

Lemma for_of_buildResult_body (items : list Item) (recs : list ParsedRecord) :
  for_of items buildResult_body (state_of recs)
  = (Normal tt, state_of (recs ++ map item_record items)).
Proof.
  revert recs; induction items as [|item items IH]; intros recs.
  - simpl. now rewrite app_nil_r.
  - cbn [for_of]. unfold bind. rewrite buildResult_body_run, IH.
    now rewrite <- app_assoc.
Qed.

Lemma filter_has_error_item_records (items : list Item) :
  filter has_error (map item_record items) = [].
Proof. induction items; simpl; auto. Qed.

(** [buildResult] never throws; its error count, the constant 0, is the
    number of its records that have an error. *)
Lemma buildResult_result (items : list Item) :
  buildResult items = Normal (result_of (map item_record items)).
Proof.
  unfold buildResult. change fresh_locals with (state_of []).
  rewrite for_of_buildResult_body. simpl. unfold result_of.
  now rewrite filter_has_error_item_records.
Qed.

Lemma item_record_array_item (item : JsValue) (i : nat) :
  stringify_exhausts item = false ->
  exists it, array_item item i = Normal it
             /\ item_record it = element_record item i.
Proof.
  intros H. unfold array_item, JSON_stringify. rewrite H.
  eexists; split; [reflexivity|]. destruct item; reflexivity.
Qed.

(** The map over the elements of an array: it throws when
    [JSON.stringify] runs out on one of them, and gives the items of
    the records otherwise. *)
Lemma Array_map_throwing_array_item (elements : list JsValue) (from : nat) :
  match Array_map_throwing from array_item elements with
  | Normal items =>
      existsb stringify_exhausts elements = false
      /\ map item_record items = Array_map from element_record elements
  | Throw _ => existsb stringify_exhausts elements = true
  end.
Proof.
  revert from; induction elements as [|x l IH]; intros from; simpl.
  - split; reflexivity.
  - destruct (stringify_exhausts x) eqn:Ex.
    + unfold array_item, JSON_stringify. rewrite Ex. reflexivity.
    + destruct (item_record_array_item x from Ex) as (it & -> & Hit).
      specialize (IH (S from)).
      destruct (Array_map_throwing (S from) array_item l) as [items|e].
      * destruct IH as [IH1 IH2]. simpl. split; [exact IH1|].
        now rewrite Hit, IH2.
      * exact IH.
Qed.

(** The dispatch of [parseJsonl]: the whole-document records when there
    are some, the records of the lines otherwise. *)
Lemma parseJsonl_dispatch (text : jsstring) :
  parseJsonl text
  = match whole_document_records text with
    | Some recs => Normal (result_of recs)
    | None => parseLines text
    end.
Proof.
  unfold parseJsonl, whole_document_records.
  destruct (JSString.startsWith (JSString.trim text) (lit "[")
            || JSString.startsWith (JSString.trim text) (lit "{"));
    [|reflexivity].
  unfold try_catch, whole_document. unfold bind at 1, call.
  destruct (JSON_parse (JSString.trim text)) as [v | e]; [|reflexivity].
  destruct v; try reflexivity.
  - simpl. unfold bind at 1, call.
    pose proof (Array_map_throwing_array_item elements 0) as Hmap.
    destruct (Array_map_throwing 0 array_item elements) as [items|e].
    + destruct Hmap as [-> Hitems]. unfold bind, call.
      rewrite buildResult_result, Hitems. reflexivity.
    + rewrite Hmap. reflexivity.
  - simpl. unfold bind, call. rewrite buildResult_result. reflexivity.
Qed.

Lemma parseJsonl_result (text : jsstring) :
  parseJsonl text = Normal (result_of (parsed_records text)).
Proof.
  rewrite parseJsonl_dispatch. unfold parsed_records.
  destruct (whole_document_records text); [reflexivity|].
  apply parseLines_result.
Qed.

(** *** Indices *)

Lemma lines_records_index (lines : list jsstring) (n idx : nat) :
  map index (lines_records n idx lines) = seq idx (count_nonblank lines).
Proof.
  unfold count_nonblank.
  revert n idx; induction lines as [|l lines IH]; intros n idx; simpl.
  - reflexivity.
  - destruct (is_blank l); simpl; [apply IH|].
    rewrite IH. f_equal. unfold line_record.
    destruct (JSON_parse (JSString.trim l)); reflexivity.
Qed.

Lemma Array_map_length {A B} (f : A -> nat -> B) (l : list A) (from : nat) :
  length (Array_map from f l) = length l.
Proof. revert from; induction l; intros; simpl; auto. Qed.

Lemma element_records_index (elements : list JsValue) (from : nat) :
  map index (Array_map from element_record elements)
  = seq from (length elements).
Proof.
  revert from; induction elements as [|x l IH]; intros from; simpl.
  - reflexivity.
  - now rewrite IH.
Qed.

Lemma Array_map_nth_error {A B} (f : A -> nat -> B) (l : list A)
      (from i : nat) (x : A) :
  nth_error l i = Some x ->
  nth_error (Array_map from f l) i = Some (f x (from + i)).
Proof.
  revert from i; induction l as [|y l IH]; intros from [|i]; simpl;
    try discriminate.
  - intros [= ->]. now rewrite Nat.add_0_r.
  - intros H. rewrite (IH (S from) i H). f_equal. f_equal. lia.
Qed.

(** *** Trimming *)

Lemma trimStart_head (s : jsstring) (c : char16) (rest : jsstring) :
  JSString.trimStart s = c :: rest -> JSString.is_white_space c = false.
Proof.
  induction s as [|a s IH]; simpl; [discriminate|].
  destruct (JSString.is_white_space a) eqn:E; [exact IH|].
  intros [= <- _]. exact E.
Qed.

Lemma trimStart_snoc_keeps (l : jsstring) (c : char16) :
  JSString.is_white_space c = false ->
  exists l', JSString.trimStart (l ++ [c]) = l' ++ [c].
Proof.
  intros Hc. induction l as [|a l IH]; simpl.
  - rewrite Hc. now exists [].
  - destruct (JSString.is_white_space a); [exact IH|].
    now exists (a :: l).
Qed.

(** What [trim] returns does not start with white space. *)
Lemma trim_head (s : jsstring) (c : char16) (rest : jsstring) :
  JSString.trim s = c :: rest -> JSString.is_white_space c = false.
Proof.
  unfold JSString.trim, JSString.trimEnd.
  destruct (JSString.trimStart s) as [|a t] eqn:E; [discriminate|].
  apply trimStart_head in E. simpl.
  destruct (trimStart_snoc_keeps (rev t) a E) as [l' ->].
  rewrite rev_app_distr. simpl. intros [= <- _]. exact E.
Qed.

Lemma trimStart_snoc_white (l : jsstring) (c : char16) :
  JSString.is_white_space c = true ->
  (JSString.trimStart l = [] /\ JSString.trimStart (l ++ [c]) = [])
  \/ (JSString.trimStart l <> []
      /\ JSString.trimStart (l ++ [c]) = JSString.trimStart l ++ [c]).
Proof.
  intros Hc. induction l as [|a l IH]; simpl.
  - rewrite Hc. now left.
  - destruct (JSString.is_white_space a); [exact IH|].
    right. split; [discriminate | reflexivity].
Qed.

Lemma trimEnd_snoc_white (l : jsstring) (c : char16) :
  JSString.is_white_space c = true ->
  JSString.trimEnd (l ++ [c]) = JSString.trimEnd l.
Proof.
  intros Hc. unfold JSString.trimEnd. rewrite rev_app_distr. simpl.
  now rewrite Hc.
Qed.

(** White space at the end of a line, a carriage return for one, does
    not change what the line trims to. *)
Lemma trim_snoc_white (l : jsstring) (c : char16) :
  JSString.is_white_space c = true ->
  JSString.trim (l ++ [c]) = JSString.trim l.
Proof.
  intros Hc. unfold JSString.trim.
  destruct (trimStart_snoc_white l c Hc) as [[E1 E2] | [_ E]].
  - now rewrite E1, E2.
  - rewrite E. now apply trimEnd_snoc_white.
Qed.

(** *** Splitting and joining *)

Lemma split_no_sep (sep : char16) (p : jsstring) :
  ~ In sep p -> JSString.split sep p = [p].
Proof.
  induction p as [|c p IH]; simpl; intros H; [reflexivity|].
  destruct (N.eqb_spec c sep) as [->|_]; [tauto|].
  rewrite IH by tauto. reflexivity.
Qed.

Lemma split_app_sep (sep : char16) (p s : jsstring) :
  ~ In sep p ->
  JSString.split sep (p ++ sep :: s) = p :: JSString.split sep s.
Proof.
  induction p as [|c p IH]; simpl; intros H.
  - now rewrite N.eqb_refl.
  - destruct (N.eqb_spec c sep) as [->|_]; [tauto|].
    rewrite IH by tauto. reflexivity.
Qed.

(** Joining with a line feed and splitting on it gives the lines back. *)
Lemma split_join_LF (l : jsstring) (ls : list jsstring) :
  Forall (fun l => ~ In LF l) (l :: ls) ->
  JSString.split LF (JSString.join [LF] (l :: ls)) = l :: ls.
Proof.
  revert l; induction ls as [|l' ls IH]; intros l H.
  - simpl. apply split_no_sep. now inversion H.
  - change (JSString.join [LF] (l :: l' :: ls))
      with (l ++ LF :: JSString.join [LF] (l' :: ls)).
    inversion H; subst. rewrite split_app_sep by assumption.
    now rewrite IH.
Qed.

Lemma split_join_CRLF (l : jsstring) (ls : list jsstring) :
  Forall (fun l => ~ In LF l) (l :: ls) ->
  JSString.split LF (JSString.join [CR; LF] (l :: ls)) = with_CR (l :: ls).
Proof.
  revert l; induction ls as [|l' ls IH]; intros l H.
  - simpl. apply split_no_sep. now inversion H.
  - change (JSString.join [CR; LF] (l :: l' :: ls))
      with (l ++ [CR; LF] ++ JSString.join [CR; LF] (l' :: ls)).
    change (l ++ [CR; LF] ++ ?x) with (l ++ [CR] ++ LF :: x).
    rewrite app_assoc. inversion H; subst.
    rewrite split_app_sep.
    + rewrite IH by assumption. reflexivity.
    + rewrite in_app_iff. simpl. intros [?|[?|[]]]; [tauto | discriminate].
Qed.

Lemma is_blank_snoc_CR (l : jsstring) : is_blank (l ++ [CR]) = is_blank l.
Proof. unfold is_blank. now rewrite trim_snoc_white. Qed.

Lemma lines_records_with_CR (ls : list jsstring) (n idx : nat) :
  lines_records n idx (with_CR ls) = lines_records n idx ls.
Proof.
  revert n idx; induction ls as [|l ls IH]; intros n idx; [reflexivity|].
  destruct ls as [|l' ls]; [reflexivity|].
  change (with_CR (l :: l' :: ls)) with ((l ++ [CR]) :: with_CR (l' :: ls)).
  cbn [lines_records]. rewrite is_blank_snoc_CR, trim_snoc_white, !IH by reflexivity.
  reflexivity.
Qed.

(** *** The first code unit of an array or object text *)

Lemma lex_from_inside_scalar (s : jsstring) (st : lex_state)
      (toks : list token) :
  lex_from st s = Some toks -> inside_scalar st = true ->
  exists t rest, toks = t :: rest /\ scalar_token t = true.
Proof.
  revert st toks; induction s as [|c s IH]; intros st toks.
  - simpl. destruct st; simpl; try discriminate.
    destruct (num_complete st); [|discriminate].
    intros [= <-] _. eauto.
  - cbn [lex_from].
    destruct (lex_step st c) as [[st' toks0]|] eqn:Es; [|discriminate].
    destruct (lex_from st' s) as [more|] eqn:El; [|discriminate].
    intros [= <-] Hin.
    assert (Hcase : (exists t r, toks0 = t :: r /\ scalar_token t = true)
                    \/ (toks0 = [] /\ inside_scalar st' = true)).
    { destruct st; simpl in Es, Hin; try discriminate.
      - destruct (N.eqb c 34); [injection Es as <- <-; left; eauto|].
        destruct (N.eqb c 92); [injection Es as <- <-; now right|].
        destruct (N.ltb c 32); [discriminate|].
        injection Es as <- <-; now right.
      - unfold lex_escape in Es.
        repeat match type of Es with
               | context [if ?b then _ else _] => destruct b
               end; try discriminate; injection Es as <- <-; now right.
      - destruct (hex_value c); [|discriminate].
        destruct todo as [|[|todo]]; injection Es as <- <-; now right.
      - destruct (num_next st c); [injection Es as <- <-; now right|].
        destruct (num_complete st); [|discriminate].
        destruct (lex_idle c) as [[st1 toks1]|]; [|discriminate].
        injection Es as <- <-. left; eauto.
      - destruct rest as [|x rest]; [discriminate|].
        destruct (N.eqb c x); [|discriminate].
        destruct rest; injection Es as <- <-; [left; eauto | now right]. }
    destruct Hcase as [(t & r & -> & Ht) | [-> Hst']].
    + simpl. eauto.
    + simpl. eapply IH; eassumption.
Qed.

(** A text that starts with neither white space nor a bracket has no
    opening bracket as its first token; likewise for braces. *)
Lemma lex_first_token (c : char16) (s : jsstring) (toks : list token) :
  lex (c :: s) = Some toks -> is_json_ws c = false ->
  exists t rest, toks = t :: rest
    /\ (t = TLBracket -> c = 91%N) /\ (t = TLBrace -> c = 123%N).
Proof.
  unfold lex. cbn [lex_from]. unfold lex_step.
  destruct (lex_idle c) as [[st' toks0]|] eqn:Es; [|discriminate].
  destruct (lex_from st' s) as [more|] eqn:El; [|discriminate].
  intros [= <-] Hws.
  assert (Hcase : (exists t, toks0 = [t] /\ (t = TLBracket -> c = 91%N)
                             /\ (t = TLBrace -> c = 123%N))
                  \/ (toks0 = [] /\ inside_scalar st' = true)).
  { unfold lex_idle in Es. rewrite Hws in Es.
    destruct (N.eqb_spec c 91);
      [injection Es as <- <-; left; eexists; repeat split; [auto|discriminate]|].
    destruct (N.eqb c 93);
      [injection Es as <- <-; left; eexists; repeat split; discriminate|].
    destruct (N.eqb_spec c 123);
      [injection Es as <- <-; left; eexists; repeat split; [discriminate|auto]|].
    destruct (N.eqb c 125);
      [injection Es as <- <-; left; eexists; repeat split; discriminate|].
    destruct (N.eqb c 58);
      [injection Es as <- <-; left; eexists; repeat split; discriminate|].
    destruct (N.eqb c 44);
      [injection Es as <- <-; left; eexists; repeat split; discriminate|].
    repeat match type of Es with
           | context [if ?b then _ else _] => destruct b
           end; try discriminate; injection Es as <- <-; now right. }
  destruct Hcase as [(t & -> & H1 & H2) | [-> Hst']].
  - simpl. eauto.
  - simpl.
    destruct (@lex_from_inside_scalar s st' more El Hst') as (t & rest & -> & Ht).
    exists t, rest. repeat split; intros ->; discriminate.
Qed.

Lemma last_cons {A} (l : list A) (a d : A) : last (a :: l) d = last l a.
Proof.
  revert a d; induction l as [|b l IH]; intros a d; [reflexivity|].
  change (last (a :: b :: l) d) with (last (b :: l) d).
  now rewrite !IH.
Qed.

Lemma outermost_cons (f : frame) (stack : list frame) (own : kind) :
  outermost (f :: stack) own = outermost stack (frame_kind f).
Proof. unfold outermost. simpl map. apply last_cons. Qed.

Lemma root_deliver (v : JsValue) (stack : list frame) (own : kind) :
  kind_of v = Some own \/ stack <> [] ->
  root (deliver v stack) = Some (outermost stack own).
Proof.
  destruct stack as [|[elements | props key] stack]; simpl.
  - intros [H|H]; [exact H | congruence].
  - intros _. now rewrite outermost_cons.
  - intros _. now rewrite outermost_cons.
Qed.

Lemma root_parse_value (t : token) (f : frame) (stack : list frame)
      (st' : parse_state) (own : kind) :
  parse_value t (f :: stack) = Some st' ->
  root st' = Some (outermost (f :: stack) own).
Proof.
  assert (Hd : forall v, root (deliver v (f :: stack))
                         = Some (outermost (f :: stack) own)).
  { intros v. apply root_deliver. right. discriminate. }
  destruct t; cbn [parse_value]; try discriminate; intros [= <-];
    try apply Hd; cbn [root]; now rewrite !outermost_cons.
Qed.

(** A step keeps the kind of the top-level value. *)
Lemma parse_step_root (st st' : parse_state) (t : token) (k : kind) :
  parse_step st t = Some st' -> root st = Some k -> root st' = Some k.
Proof.
  destruct st as [stack|stack|elements stack|stack|props stack
                  |props key stack|props stack|v]; cbn [parse_step root].
  - destruct stack as [|f stack]; [discriminate|].
    intros H [= <-]. now apply root_parse_value with (t := t).
  - intros H [= <-].
    assert (Hv : forall t', parse_value t' (InArray [] :: stack) = Some st' ->
                            root st' = Some (outermost stack KArray)).
    { intros t' Hv.
      rewrite root_parse_value with (t := t') (f := InArray [])
                                    (stack := stack) (own := KArray)
        by exact Hv.
      f_equal. apply (outermost_cons (InArray []) stack KArray). }
    destruct t; try apply (Hv _ H).
    injection H as <-. apply root_deliver. now left.
  - intros H [= <-]. destruct t; try discriminate; injection H as <-.
    + apply root_deliver. now left.
    + cbn [root]. now rewrite outermost_cons.
  - intros H [= <-]. destruct t; try discriminate; injection H as <-.
    + apply root_deliver. now left.
    + reflexivity.
  - intros H [= <-]. destruct t; try discriminate; injection H as <-.
    reflexivity.
  - intros H [= <-]. destruct t; try discriminate; injection H as <-.
    cbn [root]. now rewrite outermost_cons.
  - intros H [= <-]. destruct t; try discriminate; injection H as <-.
    + apply root_deliver. now left.
    + reflexivity.
  - discriminate.
Qed.

Lemma parse_from_root (toks : list token) (st : parse_state) (v : JsValue)
      (k : kind) :
  parse_from st toks = Some v -> root st = Some k -> kind_of v = Some k.
Proof.
  revert st; induction toks as [|t toks IH]; intros st; simpl.
  - destruct st; try discriminate. intros [= ->]. auto.
  - destruct (parse_step st t) as [st'|] eqn:Es; [|discriminate].
    intros H Hk. apply (IH st' H). eapply parse_step_root; eassumption.
Qed.

(** The first token of a text decides whether its value is an array,
    an object, or neither. *)
Lemma parse_first_token (t : token) (toks : list token) (v : JsValue) :
  parse_from (PValue []) (t :: toks) = Some v ->
  match kind_of v with
  | Some KArray => t = TLBracket
  | Some KObject => t = TLBrace
  | None => scalar_token t = true
  end.
Proof.
  cbn [parse_from parse_step].
  destruct (parse_value t []) as [st'|] eqn:Ev; [|discriminate].
  intros H.
  destruct t; simpl in Ev; try discriminate; injection Ev as <-;
    try (destruct toks; simpl in H; [injection H as <-; reflexivity
                                    | discriminate]).
  - now rewrite parse_from_root with (1 := H) (k := KArray).
  - now rewrite parse_from_root with (1 := H) (k := KObject).
Qed.

Lemma JSON_parse_head (text : jsstring) (v : JsValue) :
  JSON_parse text = Normal v ->
  exists toks, lex text = Some toks /\ parse_from (PValue []) toks = Some v.
Proof.
  unfold JSON_parse. destruct (lex text) as [toks|]; [|discriminate].
  destruct (parse_from (PValue []) toks) as [v'|] eqn:E; [|discriminate].
  intros [= <-]. eauto.
Qed.

(** What [trim] leaves of a text that parses to an array starts with an
    opening bracket, and with an opening brace for an object. *)
Lemma JSON_parse_trim_startsWith (text : jsstring) (v : JsValue) :
  JSON_parse (JSString.trim text) = Normal v ->
  match v with
  | JArray _ => JSString.startsWith (JSString.trim text) (lit "[") = true
  | JObject _ => JSString.startsWith (JSString.trim text) (lit "{") = true
  | _ => True
  end.
Proof.
  intros H. destruct (@JSON_parse_head _ v H) as (toks & Hl & Hp).
  destruct (JSString.trim text) as [|c s] eqn:Et.
  { compute in Hl. injection Hl as <-. discriminate. }
  assert (Hws : is_json_ws c = false).
  { apply trim_head in Et. unfold is_json_ws.
    destruct (N.eqb_spec c 9) as [->|_]; [discriminate|].
    destruct (N.eqb_spec c 10) as [->|_]; [discriminate|].
    destruct (N.eqb_spec c 13) as [->|_]; [discriminate|].
    destruct (N.eqb_spec c 32) as [->|_]; [discriminate|]. reflexivity. }
  destruct (@lex_first_token c s toks Hl Hws) as (t & rest & -> & Ha & Ho).
  apply parse_first_token in Hp.
  destruct v; simpl in Hp; try exact I.
  - rewrite (Ha Hp). reflexivity.
  - rewrite (Ho Hp). reflexivity.
Qed.

(** *** Records of the lines, by position *)

Lemma lines_records_nth (lines : list jsstring) (n idx i : nat)
      (l : jsstring) :
  nth_error lines i = Some l -> is_blank l = false ->
  nth_error (lines_records n idx lines) (count_nonblank (firstn i lines))
  = Some (line_record (n + i) (idx + count_nonblank (firstn i lines))
                      (JSString.trim l)).
Proof.
  unfold count_nonblank.
  revert n idx i; induction lines as [|a lines IH]; intros n idx [|i];
    simpl; try discriminate.
  - intros [= ->] Hb. rewrite Hb. simpl. now rewrite !Nat.add_0_r.
  - intros Hi Hb. destruct (is_blank a); simpl.
    + rewrite (IH (S n) idx i Hi Hb). f_equal. f_equal. lia.
    + rewrite (IH (S n) (S idx) i Hi Hb). f_equal. f_equal; lia.
Qed.

Lemma nth_error_split {A} (l : list A) (k : nat) (x : A) :
  nth_error l k = Some x -> l = firstn k l ++ x :: skipn (S k) l.
Proof.
  revert k; induction l as [|a l IH]; intros [|k]; simpl; try discriminate.
  - now intros [= ->].
  - intros H. f_equal. now apply IH.
Qed.

(** *** The ordered union *)

Lemma In_Set_has (l : list jsstring) (k : jsstring) :
  Set_has l k = true <-> In k l.
Proof.
  unfold Set_has. rewrite existsb_exists. split.
  - intros (x & Hx & E). apply jsstring_eqb_eq in E. now subst.
  - intros H. exists k. split; [exact H | apply jsstring_eqb_refl].
Qed.

Lemma ordered_union_In (keys : list jsstring) (k : jsstring) :
  In k (ordered_union keys) <-> In k keys.
Proof.
  induction keys as [|a keys IH]; simpl; [tauto|].
  rewrite filter_In, IH, negb_true_iff, jsstring_eqb_neq.
  destruct (jsstring_eqb a k) eqn:E.
  - apply jsstring_eqb_eq in E. tauto.
  - apply jsstring_eqb_neq in E. tauto.
Qed.

Lemma ordered_union_NoDup (keys : list jsstring) : NoDup (ordered_union keys).
Proof.
  induction keys as [|a keys IH]; simpl; constructor.
  - rewrite filter_In, jsstring_eqb_refl. simpl. intros [_ H]; discriminate.
  - now apply NoDup_filter.
Qed.

(* ================================================================== *)
(** ** Properties of [parseJsonl] and [parseLines] *)
(* ================================================================== *)

(** C1. For every text, the empty one included, [parseJsonl] returns a
    result and throws nothing.  A failure of the whole-document parse is
    absorbed: the result is that of the line-oriented parse of the text.
    A failure on a line is recorded: the line-oriented parse returns too,
    and its records hold one with the error message of that line. *)
Theorem parseJsonl_never_throws (text : jsstring) :
  (exists r, parseJsonl text = Normal r)
  /\ (forall e, JSON_parse (JSString.trim text) = Throw e ->
              parseJsonl text = parseLines text)
  /\ (exists r, parseLines text = Normal r
       /\ forall i l e,
            nth_error (JSString.split LF text) i = Some l ->
            is_blank l = false ->
            JSON_parse (JSString.trim l) = Throw e ->
            exists rec, In rec (records r)
                        /\ data rec = JNull
                        /\ error rec = Some (malformed (i + 1))).
Proof.
  split; [|split].
  - rewrite parseJsonl_result. eauto.
  - intros e He. rewrite parseJsonl_dispatch. unfold whole_document_records.
    rewrite He. now destruct (_ || _).
  - rewrite parseLines_result. eexists; split; [reflexivity|].
    intros i l e Hi Hb He. simpl records.
    pose proof (lines_records_nth _ 1 0 _ Hi Hb) as Hn.
    apply nth_error_In in Hn. eexists; split; [exact Hn|].
    unfold line_record. rewrite He. simpl. split; [reflexivity|].
    do 2 f_equal. lia.
Qed.

Lemma lines_records_Forall (P : ParsedRecord -> Prop) (lines : list jsstring)
      (n idx : nat) :
  (forall n idx l, is_blank l = false ->
                   P (line_record n idx (JSString.trim l))) ->
  Forall P (lines_records n idx lines).
Proof.
  intros HP. revert n idx; induction lines as [|l lines IH]; intros n idx.
  - constructor.
  - cbn [lines_records]. destruct (is_blank l) eqn:Eb; [apply IH|].
    constructor; [now apply HP | apply IH].
Qed.

Lemma Array_map_Forall {A B} (P : B -> Prop) (f : A -> nat -> B)
      (l : list A) (from : nat) :
  (forall x i, P (f x i)) -> Forall P (Array_map from f l).
Proof.
  intros HP. revert from; induction l as [|x l IH]; intros from; simpl;
    constructor; auto.
Qed.

(** C2, as amended.  A record with an error has null data: never both.
    A record of a result that is that of the line-oriented parse, and
    whose raw text is JSON for [null], has null data and no error.
    Every other record has exactly one of the two: data that is not
    null, or an error. *)
Theorem record_data_or_error (text : jsstring) :
  exists r, parseJsonl text = Normal r
    /\ Forall (fun rec =>
                 (has_error rec = true -> data rec = JNull)
                 /\ (parseJsonl text = parseLines text
                     /\ JSON_parse (raw rec) = Normal JNull ->
                     data rec = JNull /\ error rec = None)
                 /\ (~ (parseJsonl text = parseLines text
                        /\ JSON_parse (raw rec) = Normal JNull) ->
                     exactly_one_of_data_and_error rec))
              (records r).
Proof.
  exists (result_of (parsed_records text)).
  split; [apply parseJsonl_result|]. simpl records.
  assert (Hlines :
            Forall (fun rec =>
                      (has_error rec = true -> data rec = JNull)
                      /\ (JSON_parse (raw rec) = Normal JNull ->
                          data rec = JNull /\ error rec = None)
                      /\ (JSON_parse (raw rec) <> Normal JNull ->
                          exactly_one_of_data_and_error rec))
                   (lines_records 1 0 (JSString.split LF text))).
  { apply lines_records_Forall. intros n idx l _.
    unfold line_record, exactly_one_of_data_and_error, has_error.
    destruct (JSON_parse (JSString.trim l)) as [d|e] eqn:Ed; simpl;
      rewrite Ed.
    - split; [discriminate|]. split.
      + intros [= ->]. split; reflexivity.
      + intros Hd. left. split; [|reflexivity].
        destruct d; try reflexivity. contradiction.
    - split; [reflexivity|]. split; [discriminate|]. auto. }
  rewrite Forall_forall in Hlines. apply Forall_forall. intros rec Hin.
  unfold parsed_records in Hin.
  destruct (whole_document_records text) as [recs|] eqn:E.
  - assert (Hrec : exactly_one_of_data_and_error rec
                   /\ has_error rec = false).
    { revert rec Hin. apply Forall_forall.
      unfold whole_document_records in E.
      destruct (_ || _); [|discriminate].
      destruct (JSON_parse (JSString.trim text))
        as [[| | | |elements|props]|]; try discriminate.
      - destruct (existsb stringify_exhausts elements); [discriminate|].
        injection E as <-. apply Array_map_Forall. intros x i.
        unfold exactly_one_of_data_and_error, has_error.
        destruct x; simpl; auto.
      - injection E as <-. repeat constructor. }
    destruct Hrec as [Hone Hnone]. split; [|split].
    + rewrite Hnone. discriminate.
    + intros [Heq Hnull].
      rewrite parseJsonl_dispatch, E, parseLines_result in Heq.
      apply (f_equal (fun c => match c with
                               | Normal x => records x
                               | Throw _ => []
                               end)) in Heq.
      simpl in Heq. rewrite Heq in Hin.
      now apply (Hlines rec Hin).
    + intros _. exact Hone.
  - destruct (Hlines rec Hin) as (H1 & H2 & H3). split; [exact H1|].
    split.
    + intros [_ Hnull]. now apply H2.
    + intros Hnot. apply H3. intros Hnull. apply Hnot. split; [|exact Hnull].
      now rewrite parseJsonl_dispatch, E.
Qed.

(** C3. When the trimmed text does not start with a bracket or a brace
    (a text of white space only is such a text), or starts with one and
    does not parse, or parses to a value that is neither an array nor an
    object, the result of [parseJsonl] is that of the line-oriented
    parse of the original text, not of the trimmed one. *)
Theorem fallback_is_line_oriented (text : jsstring) :
  let trimmed := JSString.trim text in
  JSString.startsWith trimmed (lit "[") || JSString.startsWith trimmed (lit "{")
  = false
  \/ (exists e, JSON_parse trimmed = Throw e)
  \/ (exists v, JSON_parse trimmed = Normal v /\ is_array_or_object v = false) ->
  parseJsonl text = parseLines text.
Proof.
  intros trimmed H. rewrite parseJsonl_dispatch.
  unfold whole_document_records. fold trimmed.
  destruct H as [-> | [[e ->] | (v & -> & Hv)]].
  - reflexivity.
  - now destruct (_ || _).
  - destruct (_ || _); [|reflexivity]. destruct v; try discriminate; reflexivity.
Qed.

Lemma filter_has_error_none (recs : list ParsedRecord) :
  Forall (fun rec => error rec = None) recs -> filter has_error recs = [].
Proof.
  induction 1 as [|rec recs Hrec _ IH]; simpl; [reflexivity|].
  unfold has_error at 1. now rewrite Hrec.
Qed.

(** X20. When the trimmed text parses to an array and [JSON.stringify]
    gives a text for every element, [parseJsonl] returns one record for
    each element, in the order of the array.  The record of the element
    at position [i] has index [i]; its data is the element itself when
    the element is an object (in the sense of [typeof]: an object or an
    array), and the object with the single key [value] bound to the
    element otherwise; its raw text is the text [JSON.stringify] gives
    for the element; it has no error.  The error count is 0.  When
    [JSON.stringify] throws on an element, the result is that of the
    line-oriented parse of the text. *)
Theorem whole_document_array (text : jsstring) (elements : list JsValue) :
  JSON_parse (JSString.trim text) = Normal (JArray elements) ->
  ((forall item, In item elements ->
                 exists s, JSON_stringify item = Normal s) ->
   exists r, parseJsonl text = Normal r
     /\ length (records r) = length elements
     /\ (forall i item, nth_error elements i = Some item ->
           exists s, JSON_stringify item = Normal s
             /\ nth_error (records r) i
                = Some {| index := i;
                          data := if is_array_or_object item then item
                                  else JObject [(lit "value", item)];
                          raw := s;
                          error := None |})
     /\ Forall (fun rec => error rec = None) (records r)
     /\ errorCount r = 0)
  /\ ((exists item e, In item elements /\ JSON_stringify item = Throw e) ->
      parseJsonl text = parseLines text).
Proof.
  intros H. pose proof (JSON_parse_trim_startsWith _ H) as Hs.
  assert (Hdispatch :
            parseJsonl text
            = if existsb stringify_exhausts elements then parseLines text
              else Normal (result_of (Array_map 0 element_record elements))).
  { rewrite parseJsonl_dispatch. unfold whole_document_records.
    rewrite Hs, H. simpl orb. cbv iota.
    now destruct (existsb stringify_exhausts elements). }
  rewrite Hdispatch. split.
  - intros Hall.
    assert (Hnone : forall item, In item elements ->
                                 stringify_exhausts item = false).
    { intros item Hin. destruct (Hall item Hin) as [s Hitem].
      unfold JSON_stringify in Hitem.
      now destruct (stringify_exhausts item). }
    assert (Hex : existsb stringify_exhausts elements = false).
    { destruct (existsb stringify_exhausts elements) eqn:E; [|reflexivity].
      apply existsb_exists in E as (x & Hx & Hxe).
      rewrite (Hnone x Hx) in Hxe. discriminate. }
    rewrite Hex. eexists; split; [reflexivity|]. simpl records.
    split; [apply Array_map_length|]. split; [|split].
    + intros i item Hi. exists (SerializeJSONProperty item). split.
      * unfold JSON_stringify.
        now rewrite (Hnone item (nth_error_In _ _ Hi)).
      * rewrite (Array_map_nth_error element_record _ 0 _ Hi).
        simpl. f_equal. unfold element_record. f_equal. now destruct item.
    + apply Array_map_Forall. reflexivity.
    + simpl. rewrite filter_has_error_none; [reflexivity|].
      apply Array_map_Forall. reflexivity.
  - intros (item & e & Hin & Hthrow).
    assert (Hex : existsb stringify_exhausts elements = true).
    { apply existsb_exists. exists item. split; [exact Hin|].
      unfold JSON_stringify in Hthrow.
      now destruct (stringify_exhausts item). }
    now rewrite Hex.
Qed.

Lemma parsed_records_index (text : jsstring) :
  map index (parsed_records text) = seq 0 (length (parsed_records text)).
Proof.
  unfold parsed_records, whole_document_records.
  destruct (_ || _).
  1: destruct (JSON_parse (JSString.trim text)) as [[| | | |elements|props]|].
  all: try (rewrite lines_records_length; apply lines_records_index).
  - destruct (existsb stringify_exhausts elements).
    + rewrite lines_records_length. apply lines_records_index.
    + now rewrite Array_map_length, element_records_index.
  - reflexivity.
Qed.

(** C5. The indices of the records of a result are 0, 1, ..., N-1 in
    this order, N being the number of records.  In the line-oriented
    parse there are as many records as lines that are not blank, and
    the record of such a line, whether it parsed or failed, has for
    index the number of lines before it that are not blank. *)
Theorem indices_are_contiguous (text : jsstring) :
  (exists r, parseJsonl text = Normal r
     /\ map index (records r) = seq 0 (length (records r)))
  /\ (exists r, parseLines text = Normal r
       /\ map index (records r) = seq 0 (length (records r))
       /\ length (records r) = count_nonblank (JSString.split LF text)
       /\ forall i l, nth_error (JSString.split LF text) i = Some l ->
            is_blank l = false ->
            exists rec,
              nth_error (records r)
                (count_nonblank (firstn i (JSString.split LF text)))
              = Some rec
              /\ index rec
                 = count_nonblank (firstn i (JSString.split LF text))
              /\ has_error rec
                 = match JSON_parse (JSString.trim l) with
                   | Normal _ => false
                   | Throw _ => true
                   end).
Proof.
  split.
  - rewrite parseJsonl_result. eexists; split; [reflexivity|].
    apply parsed_records_index.
  - rewrite parseLines_result. eexists; split; [reflexivity|].
    simpl records. rewrite lines_records_length. repeat split.
    + apply lines_records_index.
    + intros i l Hi Hb. rewrite (lines_records_nth _ 1 0 _ Hi Hb).
      eexists; split; [reflexivity|]. unfold line_record, has_error.
      destruct (JSON_parse (JSString.trim l)); split; reflexivity.
Qed.

(** C6. The error count of a result is the number of its records that
    have an error. *)
Theorem errorCount_counts_errors (text : jsstring) :
  exists r, parseJsonl text = Normal r
    /\ errorCount r = length (filter has_error (records r)).
Proof.
  rewrite parseJsonl_result. eexists; split; reflexivity.
Qed.

(** C7. In the line-oriented parse, a line whose trimmed text is not
    empty and does not parse gives a record with null data, the trimmed
    text as raw text, and the message that names the line by its place
    among all the lines of the text, counted from 1.  Blank lines give
    no record: there are as many records as lines that are not blank,
    and the record of the failed line stands after those of the lines
    before it that are not blank. *)
Theorem failed_line_record (text : jsstring) (i : nat) (l : jsstring)
        (e : exn) :
  nth_error (JSString.split LF text) i = Some l ->
  is_blank l = false ->
  JSON_parse (JSString.trim l) = Throw e ->
  exists r, parseLines text = Normal r
    /\ length (records r) = count_nonblank (JSString.split LF text)
    /\ nth_error (records r)
         (count_nonblank (firstn i (JSString.split LF text)))
       = Some {| index := count_nonblank (firstn i (JSString.split LF text));
                 data := JNull;
                 raw := JSString.trim l;
                 error := Some (lit "Malformed JSON on line "
                                ++ JSString.of_nat (i + 1)) |}.
Proof.
  intros Hi Hb He. rewrite parseLines_result.
  eexists; split; [reflexivity|]. simpl records. split.
  - apply lines_records_length.
  - rewrite (lines_records_nth _ 1 0 _ Hi Hb). unfold line_record.
    rewrite He. unfold malformed. rewrite Nat.add_1_r. reflexivity.
Qed.

(** C8. The columns of a result are the union, without duplicates, of
    the keys of its records, each key standing where it first appears
    when the records are read in order; the keys of a record are those
    of its data when it has no error and its data is an object that is
    not an array.  So a record whose data is an array brings no column,
    nor does a record that failed, and a wrapped scalar brings the key
    [value] and nothing else. *)
Theorem columns_are_ordered_union (text : jsstring) :
  exists r, parseJsonl text = Normal r
    /\ columns r = ordered_union (flat_map record_keys (records r))
    /\ NoDup (columns r)
    /\ (forall k, In k (columns r)
                  <-> exists rec, In rec (records r) /\ In k (record_keys rec))
    /\ Forall (fun rec =>
                 (Array_isArray (data rec) = true -> record_keys rec = [])
                 /\ (has_error rec = true -> record_keys rec = [])
                 /\ (forall x, error rec = None ->
                               data rec = JObject [(lit "value", x)] ->
                               record_keys rec = [lit "value"]))
              (records r).
Proof.
  rewrite parseJsonl_result. eexists; split; [reflexivity|].
  simpl records; simpl columns. repeat split.
  - apply ordered_union_NoDup.
  - rewrite ordered_union_In, in_flat_map. auto.
  - rewrite ordered_union_In, in_flat_map. auto.
  - apply Forall_forall. intros rec _. repeat split.
    + unfold record_keys. destruct (error rec); [reflexivity|].
      destruct (data rec); now try discriminate.
    + apply record_keys_failed.
    + intros x He Hd. unfold record_keys. rewrite He, Hd. reflexivity.
Qed.

Lemma JSON_parse_null : JSON_parse (lit "null") = Normal JNull.
Proof. reflexivity. Qed.

(** C9. In the line-oriented parse, a line whose trimmed text is [null]
    parses: its record has null data, the raw text [null] and no error.
    The record adds nothing to the error count nor to the columns, which
    are those of the other records. *)
Theorem null_line_record (text : jsstring) (i : nat) (l : jsstring) :
  nth_error (JSString.split LF text) i = Some l ->
  JSString.trim l = lit "null" ->
  exists r, parseLines text = Normal r
    /\ let k := count_nonblank (firstn i (JSString.split LF text)) in
       let others := firstn k (records r) ++ skipn (S k) (records r) in
       nth_error (records r) k
       = Some {| index := k; data := JNull; raw := lit "null";
                 error := None |}
       /\ errorCount r = length (filter has_error others)
       /\ columns r = ordered_union (flat_map record_keys others).
Proof.
  intros Hi Ht. rewrite parseLines_result.
  eexists; split; [reflexivity|]. intros k others.
  assert (Hb : is_blank l = false) by (unfold is_blank; now rewrite Ht).
  assert (Hk : nth_error (records (result_of
                 (lines_records 1 0 (JSString.split LF text)))) k
               = Some {| index := k; data := JNull; raw := lit "null";
                         error := None |}).
  { simpl records. subst k. rewrite (lines_records_nth _ 1 0 _ Hi Hb).
    unfold line_record. now rewrite Ht, JSON_parse_null. }
  split; [exact Hk|]. simpl errorCount; simpl columns.
  rewrite (nth_error_split _ _ Hk) at 1 2. fold others. subst others.
  rewrite !filter_app, !flat_map_app. simpl. split; reflexivity.
Qed.

(** C10. Whether the lines of a text end in a line feed or in a
    carriage return and a line feed, the line-oriented parse gives the
    same result: a carriage return left at the end of a line goes when
    the line is trimmed. *)
Theorem parseLines_CRLF (ls : list jsstring) :
  Forall (fun l => ~ In LF l /\ ~ In CR l) ls ->
  parseLines (JSString.join [CR; LF] ls) = parseLines (JSString.join [LF] ls).
Proof.
  intros H. destruct ls as [|l ls]; [reflexivity|].
  assert (H' : Forall (fun l => ~ In LF l) (l :: ls)).
  { eapply Forall_impl; [|exact H]. simpl. tauto. }
  rewrite !parseLines_result, split_join_CRLF, split_join_LF by exact H'.
  now rewrite lines_records_with_CR.
Qed.

End Properties.

(* ================================================================== *)
(** ** More properties of [parseJsonl] and [parseLines] *)
(* ================================================================== *)

Section MoreProperties.

Context {number : JsNumber} {engine : JsEngine}.

(** *** White space only *)

Lemma trimStart_nil_iff (s : jsstring) :
  JSString.trimStart s = [] <-> all_white_space s = true.
Proof.
  unfold all_white_space. induction s as [|c s IH]; simpl; [tauto|].
  destruct (JSString.is_white_space c); simpl; [exact IH|].
  split; discriminate.
Qed.

Lemma trim_nil_iff (s : jsstring) :
  JSString.trim s = [] <-> all_white_space s = true.
Proof.
  rewrite <- trimStart_nil_iff. unfold JSString.trim, JSString.trimEnd.
  split.
  - destruct (JSString.trimStart s) as [|c t] eqn:E; [reflexivity|].
    intros H. apply (f_equal (@rev _)) in H. rewrite rev_involutive in H.
    simpl in H. apply trimStart_head in E.
    destruct (trimStart_snoc_keeps (rev t) c E) as [l' Hl'].
    rewrite Hl' in H. now destruct l'.
  - now intros ->.
Qed.

Lemma is_blank_iff (l : jsstring) :
  is_blank l = true <-> all_white_space l = true.
Proof.
  unfold is_blank. rewrite jsstring_eqb_eq. apply trim_nil_iff.
Qed.

Lemma split_all_white_space (text : jsstring) :
  all_white_space text = true
  <-> Forall (fun l => is_blank l = true) (JSString.split LF text).
Proof.
  induction text as [|c text IH]; simpl.
  - split; [repeat constructor | reflexivity].
  - destruct (N.eqb_spec c LF) as [->|Hc].
    + simpl. rewrite IH. split.
      * intros H. constructor; [reflexivity | exact H].
      * intros H. now inversion H.
    + destruct (JSString.split LF text) as [|piece rest] eqn:Es.
      * rewrite andb_true_iff, IH. split.
        -- intros [Hw _]. constructor; [|constructor].
           apply is_blank_iff. simpl. now rewrite Hw.
        -- intros H. inversion H as [|? ? Hb _]; subst.
           apply is_blank_iff in Hb. simpl in Hb.
           apply andb_true_iff in Hb. split; [tauto | constructor].
      * rewrite andb_true_iff, IH. split.
        -- intros [Hw H]. inversion H as [|? ? Hb Hrest]; subst.
           constructor; [|exact Hrest].
           apply is_blank_iff. apply is_blank_iff in Hb. simpl.
           now rewrite Hw.
        -- intros H. inversion H as [|? ? Hb Hrest]; subst.
           apply is_blank_iff in Hb. simpl in Hb.
           apply andb_true_iff in Hb as [Hw Hp]. split; [exact Hw|].
           constructor; [now apply is_blank_iff | exact Hrest].
Qed.

Lemma lines_records_nil_iff (lines : list jsstring) (n idx : nat) :
  lines_records n idx lines = []
  <-> Forall (fun l => is_blank l = true) lines.
Proof.
  revert n idx; induction lines as [|l lines IH]; intros n idx; simpl.
  - split; [constructor | reflexivity].
  - destruct (is_blank l) eqn:Eb.
    + rewrite IH. split.
      * now constructor.
      * intros H; now inversion H.
    + split; [discriminate|]. intros H; inversion H; congruence.
Qed.


(** *** The keys of a parsed object *)

Lemma Set_add_NoDup (k : jsstring) (set : list jsstring) :
  NoDup set -> NoDup (Set_add k set).
Proof.
  intros H. unfold Set_add. destruct (Set_has set k) eqn:E; [exact H|].
  apply NoDup_app; [exact H | repeat constructor; simpl; tauto |].
  intros x Hx [<-|[]]. apply In_Set_has in Hx. congruence.
Qed.

(** Defining a property adds its key to the keys as to a set. *)
Lemma define_property_keys (props : list (jsstring * JsValue))
      (k : jsstring) (v : JsValue) :
  map fst (define_property props k v) = Set_add k (map fst props).
Proof.
  unfold Set_add, Set_has. induction props as [|[k' v'] props IH]; simpl.
  - reflexivity.
  - rewrite (jsstring_eqb_sym k k').
    destruct (jsstring_eqb k' k); simpl; [reflexivity|].
    rewrite IH. now destruct (existsb (jsstring_eqb k) (map fst props)).
Qed.

Lemma deliver_keys_distinct (v : JsValue) (stack : list frame) :
  own_keys_distinct v -> Forall frame_keys_distinct stack ->
  state_keys_distinct (deliver v stack).
Proof.
  intros Hv Hs. destruct stack as [|[elements|props key] stack]; simpl.
  - exact Hv.
  - now inversion Hs.
  - inversion Hs as [|? ? Hf Hrest]; subst. split; [|exact Hrest].
    unfold keys_distinct. rewrite define_property_keys.
    now apply Set_add_NoDup.
Qed.

Lemma parse_step_keys_distinct (st st' : parse_state) (t : token) :
  parse_step st t = Some st' ->
  state_keys_distinct st -> state_keys_distinct st'.
Proof.
  assert (Hval : forall stack,
             Forall frame_keys_distinct stack ->
             parse_value t stack = Some st' -> state_keys_distinct st').
  { intros stack Hs H. destruct t; simpl in H; try discriminate;
      injection H as <-; try (now apply deliver_keys_distinct); exact Hs. }
  destruct st; cbn [parse_step state_keys_distinct]; intros H Hok.
  - now apply (Hval stack).
  - destruct t; try (apply (Hval (InArray [] :: stack));
                     [constructor; [exact I | exact Hok] | exact H]).
    injection H as <-. now apply deliver_keys_distinct.
  - destruct t; try discriminate; injection H as <-.
    + now apply deliver_keys_distinct.
    + simpl. constructor; [exact I | exact Hok].
  - destruct t; try discriminate; injection H as <-.
    + apply deliver_keys_distinct; [constructor | exact Hok].
    + simpl. split; [constructor | exact Hok].
  - destruct t; try discriminate; injection H as <-. exact Hok.
  - destruct t; try discriminate; injection H as <-. simpl.
    destruct Hok. now constructor.
  - destruct Hok as [Hp Hs].
    destruct t; try discriminate; injection H as <-.
    + now apply deliver_keys_distinct.
    + now split.
  - discriminate.
Qed.

Lemma parse_from_keys_distinct (toks : list token) (st : parse_state)
      (v : JsValue) :
  parse_from st toks = Some v -> state_keys_distinct st ->
  own_keys_distinct v.
Proof.
  revert st; induction toks as [|t toks IH]; intros st; simpl.
  - destruct st; try discriminate. now intros [= ->].
  - destruct (parse_step st t) as [st'|] eqn:Es; [|discriminate].
    intros H Hok. apply (IH st' H).
    eapply parse_step_keys_distinct; eassumption.
Qed.

(** An object that [JSON.parse] returns has distinct keys. *)
Lemma JSON_parse_keys_distinct (text : jsstring)
      (props : list (jsstring * JsValue)) :
  JSON_parse text = Normal (JObject props) -> NoDup (map fst props).
Proof.
  intros H. destruct (@JSON_parse_head _ text _ H) as (toks & _ & Hp).
  change (own_keys_distinct (JObject props)).
  eapply parse_from_keys_distinct; [exact Hp | constructor].
Qed.

Lemma insert_index_perm (i : N) (k : jsstring) (l : list (N * jsstring)) :
  Permutation (insert_index i k l) ((i, k) :: l).
Proof.
  induction l as [|[j k'] l IH]; simpl; [reflexivity|].
  destruct (N.leb i j); [reflexivity|].
  rewrite IH. apply perm_swap.
Qed.

Lemma index_keys_perm (keys : list jsstring) :
  Permutation (map snd (index_keys keys)) (filter is_array_index keys).
Proof.
  induction keys as [|k keys IH]; simpl; [reflexivity|].
  unfold is_array_index at 1. destruct (array_index k) as [i|]; [|exact IH].
  rewrite insert_index_perm. simpl. now constructor.
Qed.

Lemma filter_partition_perm {A} (p : A -> bool) (l : list A) :
  Permutation (filter p l ++ filter (fun x => negb (p x)) l) l.
Proof.
  induction l as [|x l IH]; simpl; [reflexivity|].
  destruct (p x); simpl.
  - now constructor.
  - rewrite <- Permutation_middle. now constructor.
Qed.

(** [Object.keys] lists every key once: it permutes the keys in their
    order of creation. *)
Lemma own_keys_perm (keys : list jsstring) : Permutation (own_keys keys) keys.
Proof.
  unfold own_keys. rewrite index_keys_perm. apply filter_partition_perm.
Qed.

Lemma ordered_union_NoDup_id (keys : list jsstring) :
  NoDup keys -> ordered_union keys = keys.
Proof.
  induction 1 as [|k keys Hk _ IH]; simpl; [reflexivity|].
  rewrite IH. f_equal. apply Set_has_false_filter.
  destruct (Set_has keys k) eqn:E; [|reflexivity].
  apply In_Set_has in E. contradiction.
Qed.

(** X1. When the trimmed text parses to an object, the result has one
    record: index 0, the object as data, the trimmed text itself as raw
    text, no error.  The columns are the keys of the object in the order
    of [Object.keys], each of them once, and the error count is 0. *)
Theorem whole_document_object (text : jsstring)
        (props : list (jsstring * JsValue)) :
  JSON_parse (JSString.trim text) = Normal (JObject props) ->
  parseJsonl text
  = Normal {| records := [{| index := 0; data := JObject props;
                             raw := JSString.trim text; error := None |}];
              columns := own_keys (map fst props);
              errorCount := 0 |}
  /\ Object_keys (JObject props) = Normal (own_keys (map fst props))
  /\ NoDup (own_keys (map fst props)).
Proof.
  intros H.
  assert (Hnd : NoDup (own_keys (map fst props))).
  { eapply Permutation_NoDup.
    - symmetry. apply own_keys_perm.
    - eapply JSON_parse_keys_distinct. exact H. }
  split; [|split; [reflexivity | exact Hnd]].
  pose proof (JSON_parse_trim_startsWith _ H) as Hs. cbv iota in Hs.
  rewrite parseJsonl_dispatch. unfold whole_document_records.
  rewrite Hs, H, orb_true_r. unfold result_of. simpl.
  rewrite app_nil_r, ordered_union_NoDup_id; [reflexivity | exact Hnd].
Qed.


(** *** Texts with no record *)

Lemma Array_map_nil_iff {A B} (f : A -> nat -> B) (l : list A) (from : nat) :
  Array_map from f l = [] <-> l = [].
Proof. destruct l; simpl; split; congruence. Qed.

Lemma parsed_records_nil_iff (text : jsstring) :
  parsed_records text = []
  <-> JSString.trim text = []
      \/ JSON_parse (JSString.trim text) = Normal (JArray []).
Proof.
  unfold parsed_records, whole_document_records.
  assert (Hlines : lines_records 1 0 (JSString.split LF text) = []
                   <-> JSString.trim text = []).
  { now rewrite lines_records_nil_iff, <- split_all_white_space,
      trim_nil_iff. }
  destruct (JSString.startsWith (JSString.trim text) (lit "[")
            || JSString.startsWith (JSString.trim text) (lit "{")) eqn:Es.
  - assert (Hne : JSString.trim text <> []).
    { intros E. rewrite E in Es. discriminate. }
    destruct (JSON_parse (JSString.trim text)) as [[| | | |elements|props]|];
      try (rewrite Hlines; split; [tauto | intros [?|?]; [tauto|discriminate]]).
    + destruct (existsb stringify_exhausts elements) eqn:Ex.
      * rewrite Hlines. split; [tauto|].
        intros [?|[= ->]]; [contradiction | discriminate Ex].
      * rewrite Array_map_nil_iff. split.
        -- intros ->. now right.
        -- intros [?|[= ->]]; [contradiction | reflexivity].
    + split; [discriminate | intros [?|?]; [contradiction | discriminate]].
  - rewrite Hlines. split; [tauto|]. intros [E|H]; [exact E|].
    apply JSON_parse_trim_startsWith in H. rewrite H in Es. discriminate.
Qed.

(** X2. A text of white space only gives the empty result.  Any other
    text gives no record exactly when what is left of it after trimming
    parses to the empty array. *)
Theorem no_record_iff (text : jsstring) :
  exists r, parseJsonl text = Normal r
    /\ (records r = []
        <-> JSString.trim text = []
            \/ JSON_parse (JSString.trim text) = Normal (JArray []))
    /\ (JSString.trim text = [] ->
        r = {| records := []; columns := []; errorCount := 0 |}).
Proof.
  rewrite parseJsonl_result. eexists; split; [reflexivity|]. split.
  - apply parsed_records_nil_iff.
  - intros E. assert (H : parsed_records text = []).
    { apply parsed_records_nil_iff. now left. }
    now rewrite H.
Qed.

(** X3. The drop zone refuses a file exactly when its text is white
    space only; for any other text the viewer opens on the result of
    [parseJsonl], which has a record unless the text is an empty array. *)
Theorem readFile_onload_outcome (text : jsstring) :
  (all_white_space text = true
   /\ readFile_onload text = Normal (ShowError (lit "File is empty")))
  \/ (all_white_space text = false
      /\ exists r, readFile_onload text = Normal (ShowViewer r)
           /\ parseJsonl text = Normal r
           /\ (records r = []
               <-> JSON_parse (JSString.trim text) = Normal (JArray []))).
Proof.
  unfold readFile_onload.
  destruct (jsstring_eqb (JSString.trim text) []) eqn:E.
  - left. apply jsstring_eqb_eq in E. split; [|reflexivity].
    now apply trim_nil_iff.
  - right. apply jsstring_eqb_neq in E. split.
    + destruct (all_white_space text) eqn:Ew; [|reflexivity].
      apply trim_nil_iff in Ew. contradiction.
    + rewrite parseJsonl_result. eexists. split; [reflexivity|].
      split; [reflexivity|]. simpl records.
      rewrite parsed_records_nil_iff. tauto.
Qed.


(** *** Lines that parse, lines that fail *)

Lemma filter_has_error_lines_records (lines : list jsstring) (n idx : nat) :
  length (filter has_error (lines_records n idx lines))
  = length (filter line_fails lines).
Proof.
  revert n idx; induction lines as [|l lines IH]; intros n idx; simpl;
    [reflexivity|].
  unfold line_fails at 1. destruct (is_blank l); simpl; [apply IH|].
  unfold line_record, has_error at 1.
  destruct (JSON_parse (JSString.trim l)); simpl; now rewrite IH.
Qed.

(** X4. In the line-oriented parse, a line whose trimmed text parses
    gives a record whose data is the parsed value as it is, whatever
    its type, with the trimmed text as raw text and no error. *)
Theorem parsed_line_record (text : jsstring) (i : nat) (l : jsstring)
        (v : JsValue) :
  nth_error (JSString.split LF text) i = Some l ->
  is_blank l = false ->
  JSON_parse (JSString.trim l) = Normal v ->
  exists r, parseLines text = Normal r
    /\ nth_error (records r)
         (count_nonblank (firstn i (JSString.split LF text)))
       = Some {| index := count_nonblank (firstn i (JSString.split LF text));
                 data := v;
                 raw := JSString.trim l;
                 error := None |}.
Proof.
  intros Hi Hb Hv. rewrite parseLines_result.
  eexists; split; [reflexivity|]. simpl records.
  rewrite (lines_records_nth _ 1 0 _ Hi Hb). unfold line_record.
  now rewrite Hv.
Qed.

(** X5. The error count of the line-oriented parse is the number of
    lines of the text that are not blank and do not parse; it is at
    most the number of records, and it is 0 exactly when every line
    that is not blank parses. *)
Theorem errorCount_counts_failed_lines (text : jsstring) :
  exists r, parseLines text = Normal r
    /\ errorCount r = length (filter line_fails (JSString.split LF text))
    /\ errorCount r <= length (records r)
    /\ (errorCount r = 0
        <-> Forall (fun l => is_blank l = true
                             \/ exists v, JSON_parse (JSString.trim l)
                                          = Normal v)
                   (JSString.split LF text)).
Proof.
  rewrite parseLines_result. eexists; split; [reflexivity|].
  simpl records; simpl errorCount.
  rewrite filter_has_error_lines_records. repeat split.
  - rewrite lines_records_length. unfold count_nonblank.
    induction (JSString.split LF text) as [|l lines IH]; simpl; [lia|].
    unfold line_fails at 1. destruct (is_blank l); simpl; [exact IH|].
    destruct (JSON_parse (JSString.trim l)); simpl; lia.
  - induction (JSString.split LF text) as [|l lines IH]; simpl;
      [constructor|].
    unfold line_fails at 1. destruct (is_blank l) eqn:Eb; simpl.
    + intros H. constructor; [now left | now apply IH].
    + destruct (JSON_parse (JSString.trim l)) as [v|] eqn:Ev; simpl;
        [|discriminate].
      intros H. constructor; [right; eauto | now apply IH].
  - induction 1 as [|l lines Hl _ IH]; simpl; [reflexivity|].
    unfold line_fails at 1. destruct Hl as [-> | [v ->]]; simpl.
    + exact IH.
    + destruct (is_blank l); simpl; exact IH.
Qed.


(** *** What a record holds besides its numbers *)

Lemma has_error_content (recs recs' : list ParsedRecord) :
  map content recs = map content recs' ->
  length (filter has_error recs) = length (filter has_error recs').
Proof.
  revert recs'; induction recs as [|r recs IH]; intros [|r' recs'];
    simpl; try discriminate; [reflexivity|].
  intros [= Hd Hr He Hrest]. rewrite He.
  destruct (has_error r'); simpl; now rewrite (IH recs' Hrest).
Qed.

Lemma record_keys_content (r r' : ParsedRecord) :
  content r = content r' -> record_keys r = record_keys r'.
Proof.
  unfold content, record_keys, has_error. intros [= Hd _ He]. rewrite Hd.
  destruct (error r), (error r'); try discriminate; reflexivity.
Qed.

Lemma flat_map_record_keys_content (recs recs' : list ParsedRecord) :
  map content recs = map content recs' ->
  flat_map record_keys recs = flat_map record_keys recs'.
Proof.
  revert recs'; induction recs as [|r recs IH]; intros [|r' recs'];
    simpl; try discriminate; [reflexivity|].
  intros H. assert (Hc : content r = content r') by congruence.
  assert (Hrest : map content recs = map content recs') by congruence.
  now rewrite (record_keys_content Hc), (IH recs' Hrest).
Qed.

Lemma lines_records_content (lines : list jsstring) (n idx n' idx' : nat) :
  map content (lines_records n idx lines)
  = map content (lines_records n' idx' lines).
Proof.
  revert n idx n' idx'; induction lines as [|l lines IH]; intros; simpl;
    [reflexivity|].
  destruct (is_blank l); [apply IH|]. simpl. f_equal; [|apply IH].
  unfold line_record, content, has_error.
  destruct (JSON_parse (JSString.trim l)); reflexivity.
Qed.

(** *** Two texts, one after the other *)

Lemma split_nonempty (sep : char16) (s : jsstring) :
  JSString.split sep s <> [].
Proof.
  destruct s as [|c s]; simpl; [discriminate|].
  destruct (N.eqb c sep); [discriminate|].
  destruct (JSString.split sep s); discriminate.
Qed.

Lemma split_app (sep : char16) (a b : jsstring) :
  JSString.split sep (a ++ sep :: b)
  = JSString.split sep a ++ JSString.split sep b.
Proof.
  induction a as [|c a IH]; simpl.
  - now rewrite N.eqb_refl.
  - destruct (N.eqb c sep); [now rewrite IH|].
    rewrite IH. pose proof (split_nonempty sep a) as Hne.
    destruct (JSString.split sep a); [contradiction | reflexivity].
Qed.

Lemma count_nonblank_app (la lb : list jsstring) :
  count_nonblank (la ++ lb) = count_nonblank la + count_nonblank lb.
Proof. unfold count_nonblank. now rewrite filter_app, length_app. Qed.

Lemma lines_records_app (la lb : list jsstring) (n idx : nat) :
  lines_records n idx (la ++ lb)
  = lines_records n idx la
    ++ lines_records (n + length la) (idx + count_nonblank la) lb.
Proof.
  revert n idx; induction la as [|l la IH]; intros n idx; simpl.
  - now rewrite !Nat.add_0_r.
  - unfold count_nonblank. simpl. destruct (is_blank l); simpl.
    + rewrite IH. do 2 f_equal. lia.
    + rewrite IH. do 3 f_equal; unfold count_nonblank; lia.
Qed.

Lemma filter_twice {A} (f g : A -> bool) (l : list A) :
  filter f (filter g l) = filter (fun x => g x && f x) l.
Proof.
  induction l as [|x l IH]; simpl; [reflexivity|].
  destruct (g x); simpl; [destruct (f x)|]; now rewrite IH.
Qed.

(** Adding keys to a set appends those of them that are new, each
    once, in the order in which they first come. *)
Lemma fold_Set_add_filter (keys set : list jsstring) :
  fold_left (fun acc k => Set_add k acc) keys set
  = set ++ filter (fun k => negb (Set_has set k)) (ordered_union keys).
Proof.
  revert set; induction keys as [|k keys IH]; intros set; simpl.
  - now rewrite app_nil_r.
  - rewrite IH, filter_twice. unfold Set_add.
    destruct (Set_has set k) eqn:Ek; simpl.
    + f_equal. apply filter_ext. intros x.
      destruct (jsstring_eqb k x) eqn:E; simpl; [|reflexivity].
      apply jsstring_eqb_eq in E. subst x. now rewrite Ek.
    + rewrite <- app_assoc. simpl. do 2 f_equal. apply filter_ext.
      intros x. rewrite Set_has_app. unfold Set_has at 2. simpl.
      rewrite orb_false_r, (jsstring_eqb_sym x k), negb_orb.
      apply andb_comm.
Qed.

Lemma ordered_union_idempotent (keys : list jsstring) :
  ordered_union (ordered_union keys) = ordered_union keys.
Proof. apply ordered_union_NoDup_id, ordered_union_NoDup. Qed.

(** The union of two sequences of keys is that of their unions. *)
Lemma ordered_union_app (a b : list jsstring) :
  ordered_union (a ++ b) = ordered_union (ordered_union a ++ ordered_union b).
Proof.
  rewrite <- (fold_Set_add b a), fold_Set_add_filter.
  rewrite <- (fold_Set_add (ordered_union b) (ordered_union a)).
  rewrite fold_Set_add_filter, !ordered_union_idempotent. reflexivity.
Qed.

Lemma seq_add_map (k start len : nat) :
  seq (k + start) len = map (fun i => k + i) (seq start len).
Proof.
  revert start; induction len as [|len IH]; intros start; simpl;
    [reflexivity|].
  f_equal. rewrite <- IH. f_equal. lia.
Qed.

(** X6. The line-oriented parse of two texts joined by a line feed is
    made of the parses of the two: the records of the first as they
    are, then those of the second with the same data, raw text and
    error flag; the error counts add up, and the columns are the union
    of the columns, those of the first text first. *)
Theorem parseLines_app (a b : jsstring) :
  exists ra rb r,
    parseLines a = Normal ra /\ parseLines b = Normal rb
    /\ parseLines (a ++ LF :: b) = Normal r
    /\ firstn (length (records ra)) (records r) = records ra
    /\ map content (skipn (length (records ra)) (records r))
       = map content (records rb)
    /\ map index (skipn (length (records ra)) (records r))
       = map (fun i => length (records ra) + i) (map index (records rb))
    /\ errorCount r = errorCount ra + errorCount rb
    /\ columns r = ordered_union (columns ra ++ columns rb).
Proof.
  rewrite !parseLines_result, split_app, lines_records_app.
  do 3 eexists. do 3 (split; [reflexivity|]). simpl records.
  set (recs_a := lines_records 1 0 (JSString.split LF a)).
  set (recs_b' := lines_records _ _ (JSString.split LF b)).
  assert (Hc : map content recs_b'
               = map content (lines_records 1 0 (JSString.split LF b)))
    by apply lines_records_content.
  repeat split.
  - now rewrite firstn_app, Nat.sub_diag, firstn_all, app_nil_r.
  - rewrite skipn_app, Nat.sub_diag, skipn_all. simpl. exact Hc.
  - rewrite skipn_app, Nat.sub_diag, skipn_all. simpl. subst recs_b'.
    rewrite !lines_records_index. subst recs_a.
    rewrite lines_records_length, <- seq_add_map. f_equal. lia.
  - simpl. rewrite filter_app, length_app. f_equal.
    now apply has_error_content.
  - simpl. rewrite flat_map_app, (flat_map_record_keys_content _ _ Hc).
    apply ordered_union_app.
Qed.


(** *** The raw text of a record *)

Lemma trimStart_fixed (s : jsstring) :
  match s with
  | [] => True
  | c :: _ => JSString.is_white_space c = false
  end ->
  JSString.trimStart s = s.
Proof. destruct s as [|c s]; simpl; [reflexivity | now intros ->]. Qed.

(** Trimming twice is trimming once. *)
Lemma trim_idempotent (s : jsstring) :
  JSString.trim (JSString.trim s) = JSString.trim s.
Proof.
  assert (Hend : JSString.trimEnd (JSString.trim s) = JSString.trim s).
  { unfold JSString.trim at 1 2, JSString.trimEnd.
    rewrite rev_involutive. f_equal. apply trimStart_fixed.
    destruct (JSString.trimStart (rev (JSString.trimStart s))) eqn:E;
      [exact I | now apply trimStart_head in E]. }
  unfold JSString.trim at 1. rewrite trimStart_fixed; [exact Hend|].
  destruct (JSString.trim s) eqn:E; [exact I | now apply trim_head in E].
Qed.

Lemma In_trimStart (s : jsstring) (c : char16) :
  In c (JSString.trimStart s) -> In c s.
Proof.
  induction s as [|a s IH]; simpl; [tauto|].
  destruct (JSString.is_white_space a); [tauto | now simpl].
Qed.

(** [trim] leaves code units of the string and adds none. *)
Lemma In_trim (s : jsstring) (c : char16) : In c (JSString.trim s) -> In c s.
Proof.
  unfold JSString.trim, JSString.trimEnd. rewrite <- in_rev.
  intros H. apply In_trimStart in H. rewrite <- in_rev in H.
  now apply In_trimStart.
Qed.

Lemma split_no_sep_inside (sep : char16) (s : jsstring) :
  Forall (fun piece => ~ In sep piece) (JSString.split sep s).
Proof.
  induction s as [|c s IH]; simpl.
  - repeat constructor. simpl. tauto.
  - destruct (N.eqb_spec c sep) as [->|Hc].
    + constructor; [simpl; tauto | exact IH].
    + destruct (JSString.split sep s) as [|piece rest].
      * repeat constructor. simpl. intros [E|[]]. contradiction.
      * inversion IH; subst. constructor; [|assumption].
        simpl. intros [E|Hin]; [contradiction | contradiction].
Qed.

Lemma line_record_raw_agrees (n idx : nat) (l : jsstring) :
  is_blank l = false -> raw_agrees (line_record n idx (JSString.trim l)).
Proof.
  intros Hb. unfold raw_agrees, line_record.
  destruct (JSON_parse (JSString.trim l)) as [v|e] eqn:Ev; simpl;
    rewrite Ev, trim_idempotent; repeat split;
    apply jsstring_eqb_neq; exact Hb.
Qed.

Lemma lines_records_raw_in (lines : list jsstring) (n idx : nat)
      (rec : ParsedRecord) :
  In rec (lines_records n idx lines) ->
  exists l, In l lines /\ raw rec = JSString.trim l.
Proof.
  revert n idx; induction lines as [|l lines IH]; intros n idx; simpl;
    [tauto|].
  destruct (is_blank l).
  - intros H. destruct (IH _ _ H) as (l' & Hl' & E). eauto.
  - intros [<-|H].
    + exists l. split; [now left|]. unfold line_record.
      now destruct (JSON_parse (JSString.trim l)).
    + destruct (IH _ _ H) as (l' & Hl' & E). eauto.
Qed.

Lemma lines_records_raw_ok (text : jsstring) (n idx : nat) :
  Forall (fun rec => raw_agrees rec /\ ~ In LF (raw rec))
         (lines_records n idx (JSString.split LF text)).
Proof.
  apply Forall_forall. intros rec Hrec. split.
  - revert rec Hrec. apply Forall_forall. apply lines_records_Forall.
    intros n' idx' l Hb. now apply line_record_raw_agrees.
  - destruct (lines_records_raw_in _ _ _ _ Hrec) as (l & Hl & ->).
    intros Hin. apply In_trim in Hin.
    pose proof (split_no_sep_inside LF text) as Hall.
    rewrite Forall_forall in Hall. exact (Hall l Hl Hin).
Qed.

(** X7. In the result of the line-oriented parse, the raw text of every
    record is not empty, has no white space at either end and no line
    feed, and parsing it again gives what the record holds: its data
    when it has no error, a failure when it has one. *)
Theorem raw_of_line_records (text : jsstring) :
  exists r, parseLines text = Normal r
    /\ Forall (fun rec =>
                 raw rec <> []
                 /\ JSString.trim (raw rec) = raw rec
                 /\ ~ In LF (raw rec)
                 /\ match JSON_parse (raw rec) with
                    | Normal v => error rec = None /\ data rec = v
                    | Throw _ => has_error rec = true /\ data rec = JNull
                    end)
              (records r).
Proof.
  rewrite parseLines_result. eexists; split; [reflexivity|].
  simpl records. eapply Forall_impl; [|apply lines_records_raw_ok].
  intros rec [(Hne & Ht & Hp) Hlf]. auto.
Qed.

(** *** Copying all the records and parsing the copy *)

Lemma lines_records_of_raws (recs : list ParsedRecord) (n idx : nat) :
  Forall raw_agrees recs ->
  map content (lines_records n idx (map raw recs)) = map content recs.
Proof.
  intros H. revert n idx. induction H as [|rec recs Hrec _ IH];
    intros n idx; simpl; [reflexivity|].
  destruct Hrec as (Hne & Ht & Hp). unfold is_blank. rewrite Ht.
  destruct (jsstring_eqb (raw rec) []) eqn:E;
    [apply jsstring_eqb_eq in E; contradiction|].
  simpl. rewrite IH. f_equal. unfold line_record, content, has_error.
  destruct (JSON_parse (raw rec)) as [v|e]; simpl.
  - destruct Hp as [-> ->]. reflexivity.
  - destruct Hp as [He ->]. unfold has_error in He.
    now destruct (error rec).
Qed.

(** X8. Copying all the records of a line-oriented parse and parsing the
    copy line by line gives the same records again, but for the line
    numbers in the messages: the same indices, data, raw text and error
    flags, the same columns and the same error count. *)
Theorem copy_all_reparses (text : jsstring) :
  exists r r',
    parseLines text = Normal r
    /\ parseLines (handleCopyAll_text (records r)) = Normal r'
    /\ map index (records r') = map index (records r)
    /\ map content (records r') = map content (records r)
    /\ columns r' = columns r
    /\ errorCount r' = errorCount r.
Proof.
  rewrite parseLines_result. do 2 eexists. split; [reflexivity|].
  rewrite parseLines_result. split; [reflexivity|]. simpl records.
  set (recs := lines_records 1 0 (JSString.split LF text)).
  assert (Hok : Forall (fun rec => raw_agrees rec /\ ~ In LF (raw rec)) recs)
    by apply lines_records_raw_ok.
  assert (Hsplit : lines_records 1 0
                     (JSString.split LF (handleCopyAll_text recs))
                   = lines_records 1 0 (map raw recs)).
  { unfold handleCopyAll_text. destruct recs as [|rec recs']; [reflexivity|].
    simpl map. rewrite split_join_LF; [reflexivity|].
    change (raw rec :: map raw recs') with (map raw (rec :: recs')).
    apply Forall_map. eapply Forall_impl; [|exact Hok]. simpl. tauto. }
  rewrite Hsplit.
  assert (Hc : map content (lines_records 1 0 (map raw recs))
               = map content recs).
  { apply lines_records_of_raws. eapply Forall_impl; [|exact Hok].
    simpl. tauto. }
  repeat split.
  - rewrite lines_records_index. subst recs. rewrite lines_records_index.
    f_equal. rewrite <- !(lines_records_length 1 0).
    rewrite <- (length_map content), Hc, length_map. reflexivity.
  - exact Hc.
  - simpl. now rewrite (flat_map_record_keys_content _ _ Hc).
  - simpl. now apply has_error_content.
Qed.

(** *** White space around the lines *)

Lemma lines_records_same_trim (ls ls' : list jsstring) (n idx : nat) :
  map JSString.trim ls = map JSString.trim ls' ->
  lines_records n idx ls = lines_records n idx ls'.
Proof.
  revert ls' n idx; induction ls as [|l ls IH]; intros [|l' ls'] n idx;
    simpl; try discriminate; [reflexivity|].
  intros [= Hl Hrest]. unfold is_blank. rewrite Hl.
  destruct (jsstring_eqb (JSString.trim l') []); [now apply IH|].
  f_equal. now apply IH.
Qed.

(** X9. The line-oriented parse reads a line through its trimmed text
    only: two texts whose lines trim to the same texts, line by line,
    have the same result, whatever the indentation, the spaces and the
    carriage returns at the ends of their lines. *)
Theorem parseLines_ignores_outer_white_space (ls ls' : list jsstring) :
  Forall (fun l => ~ In LF l) ls -> Forall (fun l => ~ In LF l) ls' ->
  map JSString.trim ls = map JSString.trim ls' ->
  parseLines (JSString.join [LF] ls) = parseLines (JSString.join [LF] ls').
Proof.
  intros H H' Htrim. rewrite !parseLines_result. do 2 f_equal.
  destruct ls as [|l ls], ls' as [|l' ls']; try discriminate Htrim;
    [reflexivity|].
  rewrite !split_join_LF by assumption.
  now apply lines_records_same_trim.
Qed.

End MoreProperties.

(* ================================================================== *)
(** ** An array too deep for [JSON.stringify] *)
(* ================================================================== *)

Section NestedArrayProperties.

Context {number : JsNumber} {engine : JsEngine}.

Lemma depth_nested_arrays (n : nat) : depth (nested_arrays n) = S n.
Proof.
  induction n as [|n IH]; [reflexivity|].
  cbn [nested_arrays depth fold_right]. rewrite IH. now rewrite Nat.max_0_r.
Qed.

Lemma lex_from_brackets (c : char16) (t : token) (n : nat) (s : jsstring) :
  lex_step LIdle c = Some (LIdle, [t]) ->
  lex_from LIdle (repeat c n ++ s)
  = match lex_from LIdle s with
    | Some more => Some (repeat t n ++ more)
    | None => None
    end.
Proof.
  intros Hc. induction n as [|n IH]; simpl.
  - now destruct (lex_from LIdle s).
  - change (lex_idle c) with (lex_step LIdle c). rewrite Hc, IH.
    now destruct (lex_from LIdle s).
Qed.

Lemma lex_nested_brackets (n : nat) (s : jsstring) :
  lex_from LIdle (nested_brackets n ++ s)
  = match lex_from LIdle s with
    | Some more =>
        Some (repeat TLBracket (S n) ++ repeat TRBracket (S n) ++ more)
    | None => None
    end.
Proof.
  unfold nested_brackets. rewrite <- app_assoc.
  rewrite (@lex_from_brackets 91%N TLBracket) by reflexivity.
  rewrite (@lex_from_brackets 93%N TRBracket) by reflexivity.
  now destruct (lex_from LIdle s).
Qed.

(** After an opening bracket, [n] more and [n + 1] closing ones make
    [n + 1] nested arrays, which go where the value was expected. *)
Lemma parse_from_nested (n : nat) (stack : list frame) (rest : list token) :
  parse_from (PArrayOpen stack)
    (repeat TLBracket n ++ repeat TRBracket (S n) ++ rest)
  = parse_from (deliver (nested_arrays n) stack) rest.
Proof.
  revert stack rest; induction n as [|n IH]; intros stack rest.
  - reflexivity.
  - change (repeat TLBracket (S n)) with (TLBracket :: repeat TLBracket n).
    replace (repeat TRBracket (S (S n)))
      with (repeat TRBracket (S n) ++ [TRBracket])
      by (rewrite <- repeat_cons; reflexivity).
    rewrite <- app_assoc. cbn [app parse_from parse_step parse_value].
    rewrite IH. reflexivity.
Qed.

Lemma not_In_nested_brackets (n : nat) (s : jsstring) :
  ~ In LF s -> ~ In LF (nested_brackets n ++ s).
Proof.
  intros Hs Hin. unfold nested_brackets in Hin.
  apply in_app_or in Hin as [Hin|Hin]; [|contradiction].
  apply in_app_or in Hin as [Hin|Hin]; apply repeat_spec in Hin;
    discriminate.
Qed.

Lemma trim_not_white (c d : char16) (s : jsstring) :
  JSString.is_white_space c = false -> JSString.is_white_space d = false ->
  JSString.trim (c :: s ++ [d]) = c :: s ++ [d].
Proof.
  intros Hc Hd. unfold JSString.trim, JSString.trimEnd.
  cbn [JSString.trimStart]. rewrite Hc.
  change (c :: s ++ [d]) with ((c :: s) ++ [d]).
  rewrite rev_app_distr. cbn [rev app JSString.trimStart]. rewrite Hd.
  change (d :: rev s ++ [c]) with (rev [d] ++ rev (c :: s)).
  now rewrite <- rev_app_distr, rev_involutive.
Qed.

(** The line of the nested arrays and of the bracket that closes the
    array around them is not JSON. *)
Lemma JSON_parse_nested_line (n : nat) :
  JSON_parse (nested_brackets n ++ lit "]") = Throw SyntaxError.
Proof.
  unfold JSON_parse, lex. rewrite lex_nested_brackets.
  change (lex_from LIdle (lit "]")) with (Some [TRBracket]). cbv iota.
  change (repeat TLBracket (S n)) with (TLBracket :: repeat TLBracket n).
  cbn [app parse_from parse_step parse_value].
  rewrite parse_from_nested. reflexivity.
Qed.

Lemma JSON_parse_text_deep_array (n : nat) :
  JSON_parse (text_deep_array n)
  = Normal (JArray [JNumber (StringToNumber (lit "1")); nested_arrays n]).
Proof.
  unfold JSON_parse, lex, text_deep_array.
  assert (Hlex : forall s,
             lex_from LIdle (lit "[1," ++ [LF] ++ s)
             = match lex_from LIdle s with
               | Some more =>
                   Some (TLBracket :: TNumber (StringToNumber (lit "1"))
                         :: TComma :: more)
               | None => None
               end).
  { intros s. cbn. now destruct (lex_from LIdle s). }
  rewrite Hlex, lex_nested_brackets.
  change (lex_from LIdle (lit "]")) with (Some [TRBracket]). cbv iota.
  change (repeat TLBracket (S n)) with (TLBracket :: repeat TLBracket n).
  cbn [app parse_from parse_step parse_value deliver].
  rewrite parse_from_nested. reflexivity.
Qed.

Lemma trim_text_deep_array (n : nat) :
  JSString.trim (text_deep_array n) = text_deep_array n.
Proof.
  unfold text_deep_array.
  change (lit "[1," ++ [LF] ++ nested_brackets n ++ lit "]")
    with (91%N :: (lit "1," ++ [LF] ++ nested_brackets n ++ [93%N])).
  replace (lit "1," ++ [LF] ++ nested_brackets n ++ [93%N])
    with ((lit "1," ++ [LF] ++ nested_brackets n) ++ [93%N])
    by (now rewrite <- !app_assoc).
  now apply trim_not_white.
Qed.

Lemma trim_nested_line (n : nat) :
  JSString.trim (nested_brackets n ++ lit "]") = nested_brackets n ++ lit "]".
Proof.
  unfold nested_brackets.
  change (repeat 91%N (S n)) with (91%N :: repeat 91%N n).
  rewrite <- !app_assoc.
  change ((91%N :: repeat 91%N n) ++ repeat 93%N (S n) ++ lit "]")
    with (91%N :: (repeat 91%N n ++ repeat 93%N (S n) ++ [93%N])).
  replace (repeat 91%N n ++ repeat 93%N (S n) ++ [93%N])
    with ((repeat 91%N n ++ repeat 93%N (S n)) ++ [93%N])
    by (now rewrite <- !app_assoc).
  now apply trim_not_white.
Qed.

(** The array of the number 1 and of [n + 1] nested arrays, on two
    lines: [JSON.parse] reads it, and when [JSON.stringify] runs out on
    the nested arrays the result is that of the two lines, neither of
    which is JSON. *)
Lemma text_deep_array_by_lines (n : nat) :
  stringify_exhausts (nested_arrays n) = true ->
  JSON_parse (JSString.trim (text_deep_array n))
  = Normal (JArray [JNumber (StringToNumber (lit "1")); nested_arrays n])
  /\ JSON_stringify (nested_arrays n) = Throw RangeError
  /\ parseJsonl (text_deep_array n)
     = Normal {| records :=
                   [{| index := 0; data := JNull; raw := lit "[1,";
                       error := Some (lit "Malformed JSON on line 1") |};
                    {| index := 1; data := JNull;
                       raw := nested_brackets n ++ lit "]";
                       error := Some (lit "Malformed JSON on line 2") |}];
                 columns := [];
                 errorCount := 2 |}.
Proof.
  intros Hex. rewrite trim_text_deep_array.
  split; [apply JSON_parse_text_deep_array|]. split.
  { unfold JSON_stringify. now rewrite Hex. }
  rewrite parseJsonl_dispatch. unfold whole_document_records.
  rewrite trim_text_deep_array, JSON_parse_text_deep_array.
  replace (JSString.startsWith (text_deep_array n) (lit "[")) with true
    by reflexivity.
  cbn [orb existsb]. rewrite Hex, orb_true_r.
  rewrite parseLines_result. unfold text_deep_array.
  change (lit "[1," ++ [LF] ++ nested_brackets n ++ lit "]")
    with (lit "[1," ++ LF :: (nested_brackets n ++ lit "]")).
  rewrite split_app.
  rewrite (@split_no_sep LF (nested_brackets n ++ lit "]"))
    by (apply not_In_nested_brackets; intros [H|[]]; discriminate H).
  change (JSString.split LF (lit "[1,")) with [lit "[1,"].
  cbn [app lines_records].
  change (is_blank (lit "[1,")) with false. cbv iota.
  unfold is_blank. rewrite trim_nested_line.
  replace (jsstring_eqb (nested_brackets n ++ lit "]") []) with false
    by reflexivity.
  unfold line_record. rewrite JSON_parse_nested_line.
  change (JSString.trim (lit "[1,")) with (lit "[1,").
  change (JSON_parse (lit "[1,")) with (@Throw JsValue SyntaxError).
  reflexivity.
Qed.

End NestedArrayProperties.

(* ================================================================== *)
(** ** Properties of the viewer *)
(* ================================================================== *)

Section ViewerProperties.

Context {number : JsNumber} {engine : JsEngine}.

Variable toLowerCase : jsstring -> jsstring.

(** *** Looking a record up by its index *)

Lemma Array_find_seq (l : list ParsedRecord) (start i : nat) :
  map index l = seq start (length l) ->
  Array_find (fun r => Nat.eqb (index r) (start + i)) l = nth_error l i.
Proof.
  revert start i; induction l as [|x l IH]; intros start i; simpl.
  - now destruct i.
  - intros [= Hx Hl]. rewrite Hx. destruct i as [|i].
    + now rewrite Nat.add_0_r, Nat.eqb_refl.
    + destruct (Nat.eqb_spec start (start + S i)) as [E|_]; [lia|].
      simpl. replace (start + S i) with (S start + i) by lia.
      now apply IH.
Qed.

Lemma index_of_nth (l : list ParsedRecord) (k : nat) (rec : ParsedRecord) :
  map index l = seq 0 (length l) -> nth_error l k = Some rec ->
  index rec = k.
Proof.
  intros Hidx Hk.
  assert (Hlt : k < length l) by (apply nth_error_Some; congruence).
  assert (H : nth k (map index l) 0 = index rec).
  { apply nth_error_nth. now rewrite nth_error_map, Hk. }
  rewrite Hidx, seq_nth in H by exact Hlt. now symmetry.
Qed.

(** X10. In a result of [parseJsonl], looking a record up by its index,
    as the viewer does for the selected record, finds the record at
    that position: the record a row was clicked on is the one shown,
    and an index past the last record finds nothing. *)
Theorem selectedData_is_nth (text : jsstring) :
  exists r, parseJsonl text = Normal r
    /\ (forall i, selectedData (Some i) r = nth_error (records r) i)
    /\ (forall rec, In rec (records r) ->
                    selectedData (Some (index rec)) r = Some rec)
    /\ (forall i, length (records r) <= i -> selectedData (Some i) r = None).
Proof.
  rewrite parseJsonl_result. eexists; split; [reflexivity|].
  simpl records. unfold selectedData. simpl records.
  pose proof (parsed_records_index text) as Hidx.
  assert (Hfind : forall i,
             Array_find (fun r => Nat.eqb (index r) i) (parsed_records text)
             = nth_error (parsed_records text) i).
  { intros i. exact (Array_find_seq _ 0 i Hidx). }
  repeat split.
  - exact Hfind.
  - intros rec Hin. rewrite Hfind.
    destruct (In_nth_error _ _ Hin) as [k Hk].
    now rewrite (@index_of_nth _ k rec Hidx Hk).
  - intros i Hi. rewrite Hfind. now apply nth_error_None.
Qed.


(** *** The search filter *)

Lemma StronglySorted_seq (start len : nat) :
  StronglySorted lt (seq start len).
Proof.
  revert start; induction len as [|len IH]; intros start; simpl;
    constructor; [apply IH|].
  apply Forall_forall. intros x Hx. apply in_seq in Hx. lia.
Qed.

Lemma StronglySorted_map_filter {A} (f : A -> nat) (p : A -> bool)
      (l : list A) :
  StronglySorted lt (map f l) -> StronglySorted lt (map f (filter p l)).
Proof.
  induction l as [|x l IH]; simpl; [auto|].
  intros H. inversion H as [|? ? Hs Hall]; subst.
  destruct (p x); simpl; [|now apply IH].
  constructor; [now apply IH|].
  rewrite Forall_forall in *. intros y Hy. apply Hall.
  apply in_map_iff in Hy as (z & <- & Hz). apply in_map.
  now apply filter_In in Hz.
Qed.

Lemma StronglySorted_lt_NoDup (l : list nat) :
  StronglySorted lt l -> NoDup l.
Proof.
  induction 1 as [|x l _ IH Hall]; constructor; [|exact IH].
  intros Hin. rewrite Forall_forall in Hall. specialize (Hall x Hin). lia.
Qed.

Lemma filtered_items_sorted (r : ParseResult) (searchQuery : jsstring) :
  StronglySorted lt (map index (records r)) ->
  StronglySorted lt
    (map index (items_of (filteredRecords toLowerCase (Some r) searchQuery))).
Proof.
  intros H. unfold filteredRecords.
  destruct (jsstring_eqb (JSString.trim searchQuery) []); simpl;
    [exact H | now apply StronglySorted_map_filter].
Qed.

Lemma parsed_records_sorted (text : jsstring) :
  StronglySorted lt (map index (parsed_records text)).
Proof. rewrite parsed_records_index. apply StronglySorted_seq. Qed.

(** X11. The records the search keeps are those of the result whose raw
    text, in lower case, includes the query in lower case, or all of
    them when the query is blank.  They come in the order of the result,
    so with indices that increase strictly, and the count of matches is
    at most the total. *)
Theorem filteredRecords_spec (text searchQuery : jsstring) :
  exists r, parseJsonl text = Normal r
    /\ let kept := items_of (filteredRecords toLowerCase (Some r) searchQuery) in
       (forall rec,
           In rec kept
           <-> In rec (records r)
               /\ (JSString.trim searchQuery = []
                   \/ String_includes (toLowerCase (raw rec))
                                      (toLowerCase searchQuery) = true))
       /\ (JSString.trim searchQuery = [] -> kept = records r)
       /\ StronglySorted lt (map index kept)
       /\ matchCount toLowerCase (Some r) searchQuery <= totalCount (Some r).
Proof.
  rewrite parseJsonl_result. eexists; split; [reflexivity|].
  intros kept. subst kept. simpl records.
  split; [|split; [|split]].
  - intros rec. unfold filteredRecords.
    destruct (jsstring_eqb (JSString.trim searchQuery) []) eqn:E; simpl.
    + apply jsstring_eqb_eq in E. tauto.
    + apply jsstring_eqb_neq in E. rewrite filter_In. tauto.
  - unfold filteredRecords. intros E.
    apply jsstring_eqb_eq in E. now rewrite E.
  - apply filtered_items_sorted. apply parsed_records_sorted.
  - unfold matchCount, totalCount, filteredRecords.
    destruct (jsstring_eqb (JSString.trim searchQuery) []); simpl;
      [lia | apply filter_length_le].
Qed.


(** *** Moving the selection *)

Lemma Array_findIndex_none {A} (p : A -> bool) (l : list A) :
  Forall (fun x => p x = false) l -> Array_findIndex p l = (-1)%Z.
Proof.
  induction 1 as [|x l Hx _ IH]; simpl; [reflexivity|].
  now rewrite Hx, IH.
Qed.

Lemma Array_findIndex_nth (l : list ParsedRecord) (k : nat)
      (rec : ParsedRecord) :
  NoDup (map index l) -> nth_error l k = Some rec ->
  Array_findIndex (fun r => Nat.eqb (index r) (index rec)) l = Z.of_nat k.
Proof.
  revert k; induction l as [|x l IH]; intros [|k]; simpl; try discriminate.
  - intros _ [= ->]. now rewrite Nat.eqb_refl.
  - intros Hnd Hk. inversion Hnd as [|? ? Hx Hl]; subst.
    destruct (Nat.eqb_spec (index x) (index rec)) as [E|_].
    + exfalso. apply Hx. rewrite E. apply in_map.
      now apply nth_error_In in Hk.
    + rewrite (IH k Hl Hk).
      destruct (Z.eqb_spec (Z.of_nat k) (-1)); lia.
Qed.

Lemma handleNavigateRecord_at (l : list ParsedRecord) (k : nat)
      (rec : ParsedRecord) (result : ParseResult) :
  NoDup (map index l) -> nth_error l k = Some rec ->
  handleNavigateRecord (Some (index rec)) (Some result) l Next
  = Some (match nth_error l (S k) with
          | Some rec' => index rec'
          | None => index rec
          end)
  /\ handleNavigateRecord (Some (index rec)) (Some result) l Prev
     = Some (match k with
             | 0 => index rec
             | S k' => match nth_error l k' with
                       | Some rec' => index rec'
                       | None => index rec
                       end
             end).
Proof.
  intros Hnd Hk. unfold handleNavigateRecord.
  rewrite (@Array_findIndex_nth l k rec Hnd Hk).
  assert (Hlt : k < length l) by (apply nth_error_Some; congruence).
  destruct (Z.eqb_spec (Z.of_nat k) (-1)) as [E|_]; [lia|]. split.
  - replace (0 <=? Z.of_nat k + 1)%Z with true by (symmetry; apply Z.leb_le; lia).
    rewrite andb_true_l.
    replace (Z.to_nat (Z.of_nat k + 1)) with (S k) by lia.
    destruct (Z.ltb_spec (Z.of_nat k + 1) (Z.of_nat (length l))) as [H1|H1].
    + now destruct (nth_error l (S k)).
    + assert (Hn : nth_error l (S k) = None) by (apply nth_error_None; lia).
      now rewrite Hn.
  - destruct k as [|k']; [reflexivity|].
    replace (0 <=? Z.of_nat (S k') - 1)%Z with true
      by (symmetry; apply Z.leb_le; lia).
    replace (Z.of_nat (S k') - 1 <? Z.of_nat (length l))%Z with true
      by (symmetry; apply Z.ltb_lt; lia).
    rewrite andb_true_l.
    replace (Z.to_nat (Z.of_nat (S k') - 1)) with k' by lia.
    now destruct (nth_error l k').
Qed.

(** X12. With the records the search keeps, and the selection on the
    record at some place among them: "next" selects the record after
    it, or changes nothing at the last one; "previous" selects the
    record before it, or changes nothing at the first one; "previous"
    after a "next" that moved comes back.  A selection that is not
    among the kept records does not move. *)
Theorem handleNavigateRecord_moves (text searchQuery : jsstring) :
  exists r, parseJsonl text = Normal r
    /\ let kept := items_of (filteredRecords toLowerCase (Some r) searchQuery) in
       (forall k rec,
           nth_error kept k = Some rec ->
           handleNavigateRecord (Some (index rec)) (Some r) kept Next
           = Some (match nth_error kept (S k) with
                   | Some rec' => index rec'
                   | None => index rec
                   end)
           /\ handleNavigateRecord (Some (index rec)) (Some r) kept Prev
              = Some (match k with
                      | 0 => index rec
                      | S k' => match nth_error kept k' with
                                | Some rec' => index rec'
                                | None => index rec
                                end
                      end)
           /\ (forall rec', nth_error kept (S k) = Some rec' ->
                 handleNavigateRecord
                   (handleNavigateRecord (Some (index rec)) (Some r) kept Next)
                   (Some r) kept Prev
                 = Some (index rec)))
       /\ (forall selected direction,
             ~ In selected (map index kept) ->
             handleNavigateRecord (Some selected) (Some r) kept direction
             = Some selected).
Proof.
  rewrite parseJsonl_result. eexists; split; [reflexivity|].
  intros kept.
  assert (Hnd : NoDup (map index kept)).
  { apply StronglySorted_lt_NoDup. apply filtered_items_sorted.
    apply parsed_records_sorted. }
  split.
  - intros k rec Hk.
    destruct (@handleNavigateRecord_at kept k rec
                (result_of (parsed_records text)) Hnd Hk) as [Hnext Hprev].
    split; [exact Hnext|]. split; [exact Hprev|].
    intros rec' Hk'. rewrite Hnext, Hk'.
    destruct (@handleNavigateRecord_at kept (S k) rec'
                (result_of (parsed_records text)) Hnd Hk') as [_ Hprev'].
    now rewrite Hprev', Hk.
  - intros selected direction Hnot. unfold handleNavigateRecord.
    rewrite Array_findIndex_none; [reflexivity|].
    apply Forall_forall. intros rec Hrec.
    apply Nat.eqb_neq. intros E. apply Hnot. rewrite <- E. now apply in_map.
Qed.

(** *** Dimmed lines *)

Lemma NumberSet_of_has (l : list nat) (i : nat) :
  NumberSet_has (NumberSet_of l) i = existsb (Nat.eqb i) l.
Proof.
  unfold NumberSet_of, NumberSet_has.
  assert (H : forall set,
             existsb (Nat.eqb i)
               (fold_left (fun set j => NumberSet_add j set) l set)
             = existsb (Nat.eqb i) set || existsb (Nat.eqb i) l).
  { induction l as [|j l IH]; intros set; simpl.
    - now rewrite orb_false_r.
    - rewrite IH. unfold NumberSet_add.
      destruct (existsb (Nat.eqb j) set) eqn:Ej.
      + destruct (Nat.eqb_spec i j) as [->|_]; [now rewrite Ej|reflexivity].
      + rewrite existsb_app. simpl. now rewrite orb_false_r, orb_assoc. }
  now rewrite H.
Qed.

Lemma existsb_index_filter (p : ParsedRecord -> bool)
      (l : list ParsedRecord) (rec : ParsedRecord) :
  NoDup (map index l) -> In rec l ->
  existsb (Nat.eqb (index rec)) (map index (filter p l)) = p rec.
Proof.
  intros Hnd Hin. destruct (p rec) eqn:Ep.
  - apply existsb_exists. exists (index rec). split; [|apply Nat.eqb_refl].
    apply in_map. apply filter_In. now split.
  - destruct (existsb _ _) eqn:Ee; [|reflexivity].
    apply existsb_exists in Ee as (i & Hi & E). apply Nat.eqb_eq in E.
    subst i. apply in_map_iff in Hi as (rec' & Hidx & Hrec').
    apply filter_In in Hrec' as [Hin' Hp'].
    assert (rec' = rec); [|congruence].
    clear Ep Hp'. induction l as [|x l IH]; [contradiction|].
    inversion Hnd as [|? ? Hx Hl]; subst. simpl in Hin, Hin'.
    destruct Hin as [->|Hin], Hin' as [->|Hin']; auto.
    + exfalso. apply Hx. rewrite <- Hidx. now apply in_map.
    + exfalso. apply Hx. rewrite Hidx. now apply in_map.
Qed.

(** X13. The raw view dims a line exactly when a search is on and the raw
    text of its record does not match: with no query, or a blank one,
    no line is dimmed. *)
Theorem isFiltered_iff_no_match (text searchQuery : jsstring) :
  exists r, parseJsonl text = Normal r
    /\ forall rec, In rec (records r) ->
         isFiltered (filteredRecords toLowerCase (Some r) searchQuery) rec
         = negb (jsstring_eqb (JSString.trim searchQuery) [])
           && negb (String_includes (toLowerCase (raw rec))
                                    (toLowerCase searchQuery)).
Proof.
  rewrite parseJsonl_result. eexists; split; [reflexivity|].
  simpl records. intros rec Hin. unfold isFiltered, filteredRecords.
  destruct (jsstring_eqb (JSString.trim searchQuery) []); simpl;
    [reflexivity|].
  rewrite NumberSet_of_has, existsb_index_filter; [reflexivity| |exact Hin].
  apply StronglySorted_lt_NoDup, parsed_records_sorted.
Qed.

(** *** The state of the viewer *)

Lemma result_index_bound (r : ParseResult) (rec : ParsedRecord) :
  (exists text, parseJsonl text = Normal r) -> In rec (records r) ->
  index rec < length (records r).
Proof.
  intros [text Ht] Hin. rewrite parseJsonl_result in Ht.
  injection Ht as <-. simpl records in *.
  pose proof (parsed_records_index text) as Hidx.
  apply (in_map index) in Hin. rewrite Hidx in Hin.
  apply in_seq in Hin. lia.
Qed.

Lemma filteredRecords_incl (r : ParseResult) (q : jsstring)
      (rec : ParsedRecord) :
  In rec (items_of (filteredRecords toLowerCase (Some r) q)) ->
  In rec (records r).
Proof.
  unfold filteredRecords.
  destruct (jsstring_eqb (JSString.trim q) []); simpl; [auto|].
  intros H. now apply filter_In in H.
Qed.

(** Navigating keeps the selection or moves it to a record of the list. *)
Lemma handleNavigateRecord_In (selected : option nat)
      (result : option ParseResult) (l : list ParsedRecord)
      (direction : Direction) :
  handleNavigateRecord selected result l direction = selected
  \/ exists rec, In rec l
       /\ handleNavigateRecord selected result l direction
          = Some (index rec).
Proof.
  unfold handleNavigateRecord.
  destruct selected as [i|]; [|now left].
  destruct result as [r|]; [|now left].
  destruct (Z.eqb _ (-1)); [now left|].
  match goal with |- context [if ?b then _ else _] => destruct b end;
    [|now left].
  match goal with
  | |- context [nth_error l ?k] => destruct (nth_error l k) as [rec|] eqn:E
  end; [|now left].
  right. exists rec. split; [now apply nth_error_In in E | reflexivity].
Qed.

Lemma navigate_invariant (s : ViewerState) (direction : Direction) :
  Viewer_invariant s -> Viewer_invariant (navigate toLowerCase s direction).
Proof.
  intros (Hres & Hsel & Hopen). unfold navigate.
  destruct (handleNavigateRecord_In (selectedRecord s) (parseResult s)
              (items_of (filteredRecords toLowerCase (parseResult s)
                           (searchQuery s))) direction)
    as [E | (rec & Hin & E)]; rewrite E; split; simpl; try exact Hres;
    split; try assumption.
  - intros i [= <-]. destruct (parseResult s) as [r|] eqn:Er.
    + exists r. split; [reflexivity|].
      apply result_index_bound; [now apply Hres|].
      now apply filteredRecords_incl in Hin.
    + simpl in Hin. contradiction.
  - discriminate.
Qed.

Lemma handleSelectRecord_invariant (s : ViewerState) (r : ParseResult)
      (rec : ParsedRecord) :
  Viewer_invariant s -> parseResult s = Some r -> In rec (records r) ->
  Viewer_invariant (handleSelectRecord s (index rec)).
Proof.
  intros (Hres & Hsel & Hopen) Er Hin. split; [exact Hres|]. split; simpl.
  - intros i [= <-]. exists r. split; [exact Er|].
    apply result_index_bound; [now apply Hres | exact Hin].
  - discriminate.
Qed.

Lemma Viewer_step_invariant (s : ViewerState) (e : ViewerEvent) :
  Viewer_invariant s -> Viewer_invariant (Viewer_step toLowerCase s e).
Proof.
  intros Hinv. pose proof Hinv as (Hres & Hsel & Hopen).
  destruct e; simpl.
  - unfold readFile_onload.
    destruct (jsstring_eqb (JSString.trim text) []); [exact Hinv|].
    destruct (parseJsonl text) as [result|] eqn:Ep; [|exact Hinv].
    split; simpl; [|split; discriminate].
    intros r [= <-]. eauto.
  - split; simpl; [|split]; discriminate.
  - destruct (nth_error _ k) as [rec|] eqn:E; [|exact Hinv].
    apply nth_error_In in E.
    destruct (parseResult s) as [r|] eqn:Er; [|simpl in E; contradiction].
    apply handleSelectRecord_invariant with (r := r); auto.
    now apply filteredRecords_incl in E.
  - destruct (parseResult s) as [r|] eqn:Er; [|exact Hinv].
    destruct (nth_error (records r) k) as [rec|] eqn:E; [|exact Hinv].
    apply nth_error_In in E.
    now apply handleSelectRecord_invariant with (r := r).
  - now apply navigate_invariant.
  - split; simpl; [exact Hres|]. split; [exact Hsel | discriminate].
  - split; simpl; [exact Hres|]. split; assumption.
  - split; simpl; [exact Hres|]. split; assumption.
  - split; simpl; [exact Hres|]. split; assumption.
  - destruct (detailOpen s) eqn:Ed.
    + split; simpl; [exact Hres|]. split; [exact Hsel | discriminate].
    + destruct (negb (jsstring_eqb (searchQuery s) [])).
      * split; simpl; [exact Hres|]. split; [exact Hsel|].
        discriminate.
      * destruct (showKeyboardHelp s); [|exact Hinv].
        split; simpl; [exact Hres|]. split; [exact Hsel|].
        discriminate.
  - destruct (detailOpen s); [now apply navigate_invariant | exact Hinv].
Qed.

Lemma Viewer_run_invariant (events : list ViewerEvent) (s : ViewerState) :
  Viewer_invariant s ->
  Viewer_invariant (fold_left (Viewer_step toLowerCase) events s).
Proof.
  revert s; induction events as [|e events IH]; intros s H; [exact H|].
  simpl. apply IH. now apply Viewer_step_invariant.
Qed.

(** X14. Whatever the user does, in whatever order, the result on
    display is a result of [parseJsonl], and when the detail panel is
    open there is a record for it to show: a record is selected, it is
    the record of the result at the selected index, it carries that
    index, and the index is less than the total shown beside it. *)
Theorem Viewer_detail_has_record (events : list ViewerEvent) :
  (forall r, parseResult (Viewer_run toLowerCase events) = Some r ->
             exists text, parseJsonl text = Normal r)
  /\ (detailOpen (Viewer_run toLowerCase events) = true ->
      exists r rec,
        parseResult (Viewer_run toLowerCase events) = Some r
        /\ selectedData (selectedRecord (Viewer_run toLowerCase events)) r
           = Some rec
        /\ selectedRecord (Viewer_run toLowerCase events) = Some (index rec)
        /\ nth_error (records r) (index rec) = Some rec
        /\ index rec < totalCount (Some r)).
Proof.
  assert (Hinv : Viewer_invariant (Viewer_run toLowerCase events)).
  { apply Viewer_run_invariant. split; [|split]; discriminate. }
  destruct Hinv as (Hres & Hsel & Hopen). split; [exact Hres|].
  intros Hd. specialize (Hopen Hd).
  destruct (selectedRecord (Viewer_run toLowerCase events)) as [i|] eqn:Ei;
    [|contradiction].
  destruct (Hsel i eq_refl) as (r & Er & Hi).
  destruct (Hres r Er) as [text Ht]. rewrite parseJsonl_result in Ht.
  injection Ht as <-. simpl records in *.
  pose proof (parsed_records_index text) as Hidx.
  destruct (nth_error (parsed_records text) i) as [rec|] eqn:En;
    [|apply nth_error_None in En; lia].
  assert (Hrec : index rec = i).
  { assert (H : nth_error (map index (parsed_records text)) i
                = Some (index rec)) by now rewrite nth_error_map, En.
    rewrite Hidx in H. rewrite nth_error_seq in H.
    destruct (Nat.ltb_spec i (length (parsed_records text))); [|lia].
    now injection H as <-. }
  eexists. exists rec. split; [exact Er|]. unfold selectedData.
  simpl records. pose proof (Array_find_seq _ 0 i Hidx) as Hfind.
  simpl in Hfind. rewrite Hfind, En, Hrec. simpl. auto.
Qed.

End ViewerProperties.

(** *** The spans of a line of the raw view *)

Lemma gather_app (p : char16 -> bool) (rest : jsstring) :
  fst (gather p rest) ++ snd (gather p rest) = rest
  /\ Forall (fun c => p c = true) (fst (gather p rest)).
Proof.
  induction rest as [|c rest IH]; simpl; [split; [reflexivity|constructor]|].
  destruct (p c) eqn:E; [|split; [reflexivity|constructor]].
  destruct (gather p rest) as [acc stop]. simpl in *.
  destruct IH as [-> Hall]. split; [reflexivity | now constructor].
Qed.

Lemma gather_string_app (rest : jsstring) :
  fst (gather_string rest) ++ snd (gather_string rest) = rest
  /\ match snd (gather_string rest) with
     | [] => True
     | q :: _ => q = 34%N
     end.
Proof.
  remember (length rest) as n eqn:Hn.
  revert rest Hn. induction n as [n IH] using lt_wf_ind. intros rest Hn.
  destruct rest as [|c rest]; simpl; [split; [reflexivity | exact I]|].
  destruct (N.eqb_spec c 34) as [->|_]; [split; reflexivity|].
  destruct (N.eqb c 92).
  - destruct rest as [|d rest]; [split; [reflexivity | exact I]|].
    destruct (IH (length rest)) with (rest := rest) as [Happ Hq];
      [simpl in Hn; lia | reflexivity|].
    destruct (gather_string rest) as [acc stop]. simpl in *.
    split; [now rewrite Happ | exact Hq].
  - destruct (IH (length rest)) with (rest := rest) as [Happ Hq];
      [simpl in Hn; lia | reflexivity|].
    destruct (gather_string rest) as [acc stop]. simpl in *.
    split; [now rewrite Happ | exact Hq].
Qed.

Lemma startsWith_app (s p : jsstring) :
  JSString.startsWith s p = true -> s = p ++ skipn (length p) s.
Proof.
  revert s; induction p as [|x p IH]; intros s; simpl; [reflexivity|].
  destruct s as [|y s]; [discriminate|].
  intros H. apply andb_true_iff in H as [Hx Hp].
  apply N.eqb_eq in Hx. subst y. f_equal. now apply IH.
Qed.

(** A turn takes at least one code unit, and what it takes is the text
    of its segment, which is well formed. *)
Lemma SyntaxLine_turn_spec (c : char16) (after : jsstring) :
  let (segment, rest') := SyntaxLine_turn c after in
  Segment.text segment ++ rest' = c :: after
  /\ Segment.text segment <> []
  /\ segment_well_formed segment.
Proof.
  unfold SyntaxLine_turn.
  destruct (is_space_or_tab c) eqn:Ews.
  { pose proof (gather_app is_space_or_tab (c :: after)) as [Happ Hall].
    simpl in Happ, Hall |- *. rewrite Ews in *.
    destruct (gather is_space_or_tab after) as [acc stop]. simpl in *.
    repeat split; [exact Happ | discriminate|].
    left. repeat split; [discriminate | exact Hall]. }
  destruct (N.eqb_spec c 34) as [->|Hq].
  { pose proof (gather_string_app after) as [Happ Hstop].
    destruct (gather_string after) as [inside stop]. simpl in Happ, Hstop.
    destruct stop as [|q stop'].
    - simpl. rewrite app_nil_r in Happ. subst inside.
      repeat split; [now rewrite app_nil_r | discriminate|].
      right; left. split; [now right | simpl; eauto].
    - subst q. simpl. rewrite <- Happ, <- app_assoc. simpl.
      repeat split; [discriminate|].
      right; left. split; [|simpl; eauto]. simpl.
      match goal with
      | |- context [if ?b then _ else _] => destruct b
      end; auto. }
  destruct (N.eqb c 45 || is_ascii_digit c) eqn:Enum.
  { pose proof (gather_app is_number_char (c :: after)) as [Happ Hall].
    assert (Hc : is_number_char c = true).
    { unfold is_number_char. destruct (N.eqb c 45); [reflexivity|].
      simpl in Enum. rewrite Enum. now rewrite !orb_true_r. }
    simpl in Happ, Hall |- *. rewrite Hc in *.
    destruct (gather is_number_char after) as [acc stop]. simpl in *.
    repeat split; [exact Happ | discriminate|].
    right; right; left. split; [reflexivity|]. split; [exact Hall|].
    do 2 eexists. split; [reflexivity | exact Enum]. }
  destruct (JSString.startsWith (c :: after) (lit "true")) eqn:Et.
  { apply startsWith_app in Et. simpl Segment.text.
    repeat split; [now symmetry | discriminate|].
    right; right; right; left. split; [reflexivity | now left]. }
  destruct (JSString.startsWith (c :: after) (lit "false")) eqn:Ef.
  { apply startsWith_app in Ef. simpl Segment.text.
    repeat split; [now symmetry | discriminate|].
    right; right; right; left. split; [reflexivity | now right]. }
  destruct (JSString.startsWith (c :: after) (lit "null")) eqn:En.
  { apply startsWith_app in En. simpl Segment.text.
    repeat split; [now symmetry | discriminate|].
    do 4 right; left. split; reflexivity. }
  simpl. split; [reflexivity|]. split; [discriminate|].
  do 5 right. split; [reflexivity|]. exists c.
  split; [reflexivity|]. split; [exact Ews|]. split; [|exact Enum].
  now apply N.eqb_neq.
Qed.

Lemma SyntaxLine_loop_spec (fuel : nat) (rest : jsstring) :
  length rest <= fuel ->
  exists segments,
    SyntaxLine_loop fuel rest = Some segments
    /\ concat (map Segment.text segments) = rest
    /\ Forall (fun s => Segment.text s <> []) segments
    /\ Forall segment_well_formed segments.
Proof.
  revert rest; induction fuel as [|fuel IH]; intros rest Hlen.
  - destruct rest; [|simpl in Hlen; lia].
    exists []. repeat split; constructor.
  - destruct rest as [|c after].
    { exists []. repeat split; constructor. }
    cbn [SyntaxLine_loop].
    pose proof (SyntaxLine_turn_spec c after) as Hturn.
    destruct (SyntaxLine_turn c after) as [segment rest'].
    destruct Hturn as (Happ & Hne & Hwf).
    assert (Hlen' : length rest' <= fuel).
    { apply (f_equal (@length _)) in Happ. rewrite length_app in Happ.
      simpl in Happ, Hlen. destruct (Segment.text segment); [congruence|].
      simpl in Happ. lia. }
    destruct (IH rest' Hlen') as (segments & -> & Hcat & Hnes & Hwfs).
    exists (segment :: segments). simpl. rewrite Hcat.
    repeat split; [exact Happ | now constructor | now constructor].
Qed.

(** X15. [SyntaxLine] ends on every text, and loses nothing of it: the
    texts of its spans, put end to end, are the text.  For a record with
    an error there is one span, in the error colour; otherwise no span
    is empty. *)
Theorem SyntaxLine_lossless (text : jsstring) (isError : bool) :
  exists segments,
    SyntaxLine text isError = Some segments
    /\ concat (map Segment.text segments) = text
    /\ (isError = true ->
        map Segment.className segments = [lit "text-destructive"])
    /\ (isError = false ->
        Forall (fun s => Segment.text s <> []) segments
        /\ length segments <= length text).
Proof.
  unfold SyntaxLine. destruct isError.
  - eexists. split; [reflexivity|]. simpl. rewrite app_nil_r.
    repeat split; discriminate.
  - destruct (@SyntaxLine_loop_spec (length text) text (le_n _))
      as (segments & -> & Hcat & Hne & _).
    exists segments. repeat split; try assumption; try discriminate.
    rewrite <- Hcat. clear Hcat.
    induction Hne as [|s segments Hs _ IH]; simpl; [lia|].
    rewrite length_app. destruct (Segment.text s); [congruence|].
    simpl. lia.
Qed.

(** X16. Every span [SyntaxLine] makes of a text without error is of one
    of six kinds: a run of spaces and tabs with no colour; a key or a
    string, which starts with a quotation mark; a number, made of
    digits, signs, point and exponent letters and starting with a digit
    or a minus sign; [true] or [false]; [null]; or one other code unit
    as punctuation. *)
Theorem SyntaxLine_segments_well_formed (text : jsstring) :
  exists segments,
    SyntaxLine text false = Some segments
    /\ Forall segment_well_formed segments.
Proof.
  unfold SyntaxLine.
  destruct (@SyntaxLine_loop_spec (length text) text (le_n _))
    as (segments & -> & _ & _ & Hwf).
  eauto.
Qed.

(** *** The spans of a line of the detail panel *)

(** When the matcher succeeds, the continuation has succeeded on what
    is left after a word of the pattern. *)
Lemma rmatch_sound {A} (r : regex) (fuel : nat) (s : jsstring)
      (k : jsstring -> option A) (x : A) :
  rmatch r fuel s k = Some x ->
  exists w s', s = w ++ s' /\ matches r w /\ k s' = Some x.
Proof.
  revert fuel s k x; induction r as [|p|r1 IH1 r2 IH2|r1 IH1 r2 IH2|r1 IH1];
    intros fuel s k x; cbn [rmatch].
  - intros H. exists [], s. repeat split; [constructor | exact H].
  - destruct s as [|c s']; [discriminate|].
    destruct (p c) eqn:Ep; [|discriminate].
    intros H. exists [c], s'. repeat split; [now constructor | exact H].
  - intros H. apply IH1 in H as (w1 & s1 & -> & Hw1 & H).
    apply IH2 in H as (w2 & s2 & -> & Hw2 & H).
    exists (w1 ++ w2), s2. rewrite <- app_assoc.
    repeat split; [now constructor | exact H].
  - destruct (rmatch r1 fuel s k) as [y|] eqn:E1.
    + intros [= ->]. apply IH1 in E1 as (w & s' & -> & Hw & H).
      exists w, s'. repeat split; [now apply matches_Alt_l | exact H].
    + intros H. apply IH2 in H as (w & s' & -> & Hw & H).
      exists w, s'. repeat split; [now apply matches_Alt_r | exact H].
  - generalize fuel at 2. intros turns. revert s x.
    induction turns as [|turns IHt]; intros s x; cbn [star_loop].
    + intros H. exists [], s. repeat split; [constructor | exact H].
    + match goal with
      | |- context [rmatch r1 fuel s ?k'] =>
          destruct (rmatch r1 fuel s k') as [y|] eqn:E1
      end.
      * intros [= ->]. apply IH1 in E1 as (w1 & s1 & -> & Hw1 & H).
        destruct (Nat.ltb (length s1) (length (w1 ++ s1))); [|discriminate].
        apply IHt in H as (w2 & s2 & -> & Hw2 & H).
        exists (w1 ++ w2), s2. rewrite <- app_assoc.
        repeat split; [now constructor | exact H].
      * intros H. exists [], s. repeat split; [constructor | exact H].
Qed.

(** The matcher fails when its continuation always does. *)
Lemma rmatch_None {A} (r : regex) (fuel : nat) (s : jsstring)
      (k : jsstring -> option A) :
  (forall s', k s' = None) -> rmatch r fuel s k = None.
Proof.
  intros Hk. destruct (rmatch r fuel s k) as [x|] eqn:E; [|reflexivity].
  apply rmatch_sound in E as (w & s' & _ & _ & H). now rewrite Hk in H.
Qed.

(** The length of the text is fuel enough: more changes nothing. *)
Lemma rmatch_fuel {A} (r : regex) (fuel fuel' : nat) (s : jsstring)
      (k k' : jsstring -> option A) :
  length s <= fuel -> length s <= fuel' ->
  (forall s1, length s1 <= length s -> k s1 = k' s1) ->
  rmatch r fuel s k = rmatch r fuel' s k'.
Proof.
  revert fuel fuel' s k k';
    induction r as [|p|r1 IH1 r2 IH2|r1 IH1 r2 IH2|r1 IH1];
    intros fuel fuel' s k k' Hf Hf' Hk; cbn [rmatch].
  - now apply Hk.
  - destruct s as [|c s']; [reflexivity|].
    destruct (p c); [|reflexivity]. apply Hk. simpl. lia.
  - apply IH1; try assumption. intros s1 H1.
    apply IH2; try lia. intros s2 H2. apply Hk. lia.
  - rewrite (IH1 fuel fuel' s k k') by assumption.
    now rewrite (IH2 fuel fuel' s k k').
  - assert (Hturns : forall turns turns' s0,
               length s0 <= length s ->
               length s0 <= turns -> length s0 <= turns' ->
               star_loop (rmatch r1 fuel) k turns s0
               = star_loop (rmatch r1 fuel') k' turns' s0).
    { induction turns as [|turns IHt]; intros turns' s0 Hs0 Ht Ht'.
      - destruct s0; [|simpl in Ht; lia].
        destruct turns' as [|turns']; cbn [star_loop]; [now apply Hk|].
        rewrite rmatch_None by (intros s'; reflexivity). now apply Hk.
      - destruct turns' as [|turns']; cbn [star_loop].
        + destruct s0; [|simpl in Ht'; lia].
          rewrite rmatch_None by (intros s'; reflexivity). now apply Hk.
        + rewrite (IH1 fuel fuel' s0 _
                     (fun s1 => if Nat.ltb (length s1) (length s0)
                                then star_loop (rmatch r1 fuel') k' turns' s1
                                else None)); try lia.
          * now rewrite (Hk s0 Hs0).
          * intros s1 H1.
            destruct (Nat.ltb_spec (length s1) (length s0)); [|reflexivity].
            apply IHt; lia. }
    now apply Hturns.
Qed.

Lemma matches_not_nullable (r : regex) (w : jsstring) :
  matches r w -> nullable r = false -> w <> [].
Proof.
  intros Hm.
  induction Hm as [|p c Hc|r1 r2 w1 w2 _ IH1 _ IH2|r1 r2 w _ IH|r1 r2 w _ IH
                  |r|r w1 w2 _ _ _ _]; simpl; try discriminate.
  - intros H. apply andb_false_iff in H as [H|H].
    + specialize (IH1 H). now destruct w1.
    + specialize (IH2 H). destruct w1; [exact IH2 | discriminate].
  - intros H. apply orb_false_iff in H as [H _]. auto.
  - intros H. apply orb_false_iff in H as [_ H]. auto.
Qed.

(** What [match_groups] returns: the two groups are words of the two
    patterns and, with the rest, make up the string. *)
Lemma match_groups_sound (r1 r2 : regex) (s g1 g2 rest : jsstring) :
  match_groups r1 r2 s = Some (g1, g2, rest) ->
  s = g1 ++ g2 ++ rest /\ matches r1 g1 /\ matches r2 g2.
Proof.
  unfold match_groups. intros H.
  apply rmatch_sound in H as (w1 & s1 & -> & Hw1 & H).
  apply rmatch_sound in H as (w2 & s2 & -> & Hw2 & H).
  injection H as <- <- <-.
  rewrite !length_app.
  replace (length w1 + (length w2 + length s2) - (length w2 + length s2))
    with (length w1) by lia.
  replace (length w2 + length s2 - length s2) with (length w2) by lia.
  rewrite !firstn_app, !Nat.sub_diag, !firstn_all. simpl.
  now rewrite !app_nil_r.
Qed.

Lemma without_white_space_app (a b : jsstring) :
  without_white_space (a ++ b) = without_white_space a ++ without_white_space b.
Proof. apply filter_app. Qed.

Lemma matches_Star_space (w : jsstring) :
  matches (Star re_space) w -> without_white_space w = [].
Proof.
  intros Hm. remember (Star re_space) as r eqn:Er.
  induction Hm as [| | | | | |r' w1 w2 H1 _ _ IH2]; try discriminate.
  - reflexivity.
  - injection Er as ->.
    rewrite without_white_space_app, IH2 by reflexivity.
    inversion H1 as [|p c Hc| | | | |]; subst.
    unfold without_white_space. simpl. now rewrite Hc.
Qed.

Lemma matches_colon (w : jsstring) :
  matches re_colon w -> without_white_space w = [58%N].
Proof.
  intros Hm. inversion Hm as [| |r1 r2 w1 w2 H1 H2| | | |]; subst.
  rewrite without_white_space_app, (matches_Star_space H1).
  inversion H2 as [|p c Hc| | | | |]; subst.
  apply N.eqb_eq in Hc. subst c. reflexivity.
Qed.

Lemma trimStart_split (s : jsstring) :
  s = firstn (length s - length (JSString.trimStart s)) s ++ JSString.trimStart s
  /\ without_white_space (firstn (length s - length (JSString.trimStart s)) s)
     = [].
Proof.
  induction s as [|c s [IH1 IH2]]; [split; reflexivity|].
  cbn [JSString.trimStart].
  destruct (JSString.is_white_space c) eqn:Ec.
  - assert (Hle : length (JSString.trimStart s) <= length s).
    { clear. induction s as [|a s IH]; simpl; [lia|].
      destruct (JSString.is_white_space a); simpl; lia. }
    replace (length (c :: s) - length (JSString.trimStart s))
      with (S (length s - length (JSString.trimStart s)))
      by (cbn [length]; lia).
    cbn [firstn]. split.
    + simpl. now rewrite <- IH1.
    + unfold without_white_space in *. simpl. now rewrite Ec.
  - rewrite Nat.sub_diag. split; reflexivity.
Qed.

Lemma value_spans_shown (className : string) (value comma : jsstring) :
  shown (value_spans className value comma) = value ++ comma.
Proof.
  unfold value_spans, shown. destruct (jsstring_eqb comma []) eqn:E; simpl.
  - apply jsstring_eqb_eq in E. subst comma. reflexivity.
  - now rewrite app_nil_r.
Qed.

Lemma value_spans_no_key (className : string) (value comma : jsstring) :
  jsstring_eqb (lit className) (lit "text-syntax-key") = false ->
  existsb is_key_span (value_spans className value comma) = false.
Proof.
  intros H. unfold value_spans.
  destruct (jsstring_eqb comma []); simpl; unfold is_key_span; simpl;
    rewrite H; reflexivity.
Qed.

(** A turn takes at least one code unit; what it shows is what it
    takes, white space apart, and exactly what it takes when it pushes
    no key. *)
Lemma HighlightLine_turn_spec (c : char16) (after : jsstring) :
  let (spans, rest) := HighlightLine_turn c after in
  exists taken,
    c :: after = taken ++ rest /\ taken <> []
    /\ without_white_space (shown spans) = without_white_space taken
    /\ (existsb is_key_span spans = false -> shown spans = taken).
Proof.
  unfold HighlightLine_turn.
  assert (Hvalue : forall r className g1 g2 rest,
             match_groups r re_comma (c :: after) = Some (g1, g2, rest) ->
             nullable r = false ->
             jsstring_eqb (lit className) (lit "text-syntax-key") = false ->
             exists taken,
               c :: after = taken ++ rest /\ taken <> []
               /\ without_white_space (shown (value_spans className g1 g2))
                  = without_white_space taken
               /\ (existsb is_key_span (value_spans className g1 g2) = false ->
                   shown (value_spans className g1 g2) = taken)).
  { intros r className g1 g2 rest H Hn Hc.
    apply match_groups_sound in H as (Hs & H1 & H2).
    exists (g1 ++ g2). rewrite <- app_assoc, value_spans_shown.
    repeat split; [exact Hs|].
    pose proof (matches_not_nullable H1 Hn). now destruct g1. }
  destruct (match_groups (Plus re_space) Empty (c :: after))
    as [[[ws g2] rest]|] eqn:Ews.
  { apply match_groups_sound in Ews as (Hs & H1 & H2).
    inversion H2; subst g2. simpl in Hs.
    exists ws. unfold shown. simpl. rewrite app_nil_r.
    repeat split; [exact Hs|].
    apply (matches_not_nullable H1). reflexivity. }
  destruct (match_groups re_string re_colon (c :: after))
    as [[[key g2] rest]|] eqn:Ekey.
  { apply match_groups_sound in Ekey as (Hs & H1 & H2).
    destruct (trimStart_split rest) as [Hrest Hws].
    set (lead := firstn (length rest - length (JSString.trimStart rest)) rest)
      in *.
    exists (key ++ g2 ++ lead). split; [|split; [|split]].
    - rewrite <- !app_assoc, <- Hrest. exact Hs.
    - pose proof (@matches_not_nullable _ _ H1 eq_refl). now destruct key.
    - rewrite !without_white_space_app, (matches_colon H2), Hws.
      assert (Hshown : forall tail,
                 shown (span key "text-syntax-key"
                        :: span (lit ": ") "text-syntax-bracket" :: tail)
                 = key ++ lit ": " ++ shown tail) by reflexivity.
      rewrite Hshown, !without_white_space_app.
      replace (without_white_space (lit ": ")) with [58%N] by reflexivity.
      destruct (jsstring_eqb (JSString.trimStart rest) rest);
        [reflexivity|].
      unfold shown. cbn [map concat span Segment.text].
      now rewrite app_nil_r, Hws.
    - unfold is_key_span. simpl. discriminate. }
  destruct (match_groups re_string re_comma (c :: after))
    as [[[g1 g2] rest]|] eqn:Estr.
  { now apply (Hvalue re_string). }
  destruct (match_groups re_number re_comma (c :: after))
    as [[[g1 g2] rest]|] eqn:Enum.
  { now apply (Hvalue re_number). }
  destruct (match_groups re_boolean re_comma (c :: after))
    as [[[g1 g2] rest]|] eqn:Ebool.
  { now apply (Hvalue re_boolean). }
  destruct (match_groups re_null re_comma (c :: after))
    as [[[g1 g2] rest]|] eqn:Enull.
  { now apply (Hvalue re_null). }
  exists [c]. unfold shown. simpl. repeat split. discriminate.
Qed.

Lemma HighlightLine_loop_spec (fuel : nat) (remaining : jsstring) :
  length remaining <= fuel ->
  exists segments,
    HighlightLine_loop fuel remaining = Some segments
    /\ without_white_space (shown segments) = without_white_space remaining
    /\ (existsb is_key_span segments = false -> shown segments = remaining).
Proof.
  revert remaining; induction fuel as [|fuel IH]; intros remaining Hlen.
  - destruct remaining; [|simpl in Hlen; lia].
    exists []. repeat split.
  - destruct remaining as [|c after].
    { exists []. repeat split. }
    cbn [HighlightLine_loop].
    pose proof (HighlightLine_turn_spec c after) as Hturn.
    destruct (HighlightLine_turn c after) as [spans rest].
    destruct Hturn as (taken & Hs & Hne & Hw & Hk).
    assert (Hlen' : length rest <= fuel).
    { apply (f_equal (@length _)) in Hs. rewrite length_app in Hs.
      simpl in Hs, Hlen. destruct taken; [congruence|]. simpl in Hs. lia. }
    destruct (IH rest Hlen') as (segments & -> & Hw' & Hk').
    exists (spans ++ segments). split; [reflexivity|].
    unfold shown in *. rewrite map_app, concat_app. split.
    + rewrite without_white_space_app, Hw, Hw', Hs.
      now rewrite without_white_space_app.
    + rewrite existsb_app. intros H. apply orb_false_iff in H as [Ha Hb].
      now rewrite (Hk Ha), (Hk' Hb).
Qed.

(** X17. [HighlightLine] ends on every line.  What it shows is the line,
    white space apart; when it finds no key in the line, it shows the
    line as it is. *)
Theorem HighlightLine_shows_the_line (line : jsstring) :
  exists segments,
    HighlightLine line = Some segments
    /\ without_white_space (shown segments) = without_white_space line
    /\ (existsb is_key_span segments = false -> shown segments = line).
Proof. apply HighlightLine_loop_spec. apply le_n. Qed.

(** *** The position of the tree view *)

Lemma leading_digits_of_uint (u : Decimal.uint) (acc : Z) (seen : bool) :
  leading_digits acc seen (JSString.of_uint u)
  = match u with
    | Decimal.Nil => if seen then Some acc else None
    | _ => Some (Z.of_nat (Nat.of_uint_acc u (Z.to_nat acc)))
    end
  \/ (acc < 0)%Z.
Proof.
  destruct (Z.ltb_spec acc 0) as [Hneg|Hpos]; [now right|]. left.
  revert acc seen Hpos.
  induction u as [|u IH|u IH|u IH|u IH|u IH|u IH|u IH|u IH|u IH|u IH];
    intros acc seen Hpos; [reflexivity|..];
    cbn [JSString.of_uint leading_digits Nat.of_uint_acc];
    change (N.leb 48 _ && N.leb _ 57) with true; cbv iota;
    (rewrite IH by (cbn; lia));
    rewrite ?Nat.tail_mul_spec;
    (destruct u;
     [cbn [Nat.of_uint_acc]; f_equal; cbn; lia
     | f_equal; f_equal; f_equal; cbn; lia ..]).
Qed.

Lemma Number_parseInt_of_uint (u : Decimal.uint) :
  Number_parseInt (JSString.of_uint u)
  = leading_digits 0 false (JSString.of_uint u).
Proof. destruct u; reflexivity. Qed.

(** Reading back the digits a number is printed as gives the number. *)
Lemma Number_parseInt_of_nat (n : nat) :
  Number_parseInt (JSString.of_nat n) = Some (Z.of_nat n).
Proof.
  unfold JSString.of_nat. rewrite Number_parseInt_of_uint.
  pose proof (Unsigned.of_to n) as Hn. unfold Nat.of_uint in Hn.
  destruct (leading_digits_of_uint (Nat.to_uint n) 0 false) as [H|H]; [|lia].
  assert (Hne : Nat.to_uint n <> Decimal.Nil).
  { intros E.
    assert (Hu : Nat.to_uint n = Decimal.unorm (Nat.to_uint n))
      by now rewrite <- Unsigned.to_of, Unsigned.of_to.
    rewrite E in Hu. discriminate Hu. }
  rewrite H. simpl Z.to_nat. rewrite Hn.
  now destruct (Nat.to_uint n).
Qed.

(** X18. In the tree view over [length] records, with the position on
    one of them: neither button nor anything typed in the box moves the
    position off the records, whatever the order of the events; typing
    the number of a record, counted from 1, moves to that record;
    "previous" undoes a "next" that was not at the last record. *)
Theorem TreeView_position (length : nat) (i : Z) :
  (0 <= i < Z.of_nat length)%Z ->
  (forall events,
      (0 <= fold_left (TreeView_step length) events i < Z.of_nat length)%Z)
  /\ (forall k, 1 <= k <= length ->
        handleIndexInput length (JSString.of_nat k) i = (Z.of_nat k - 1)%Z)
  /\ ((i + 1 < Z.of_nat length)%Z -> handlePrev (handleNext length i) = i)
  /\ ((0 < i)%Z -> handleNext length (handlePrev i) = i).
Proof.
  intros Hi. split; [|split; [|split]].
  - intros events. revert i Hi.
    induction events as [|e events IH]; intros i Hi; [exact Hi|].
    simpl. apply IH. destruct e; simpl.
    + unfold handlePrev. lia.
    + unfold handleNext. lia.
    + unfold handleIndexInput.
      destruct (Number_parseInt value) as [val|]; [|exact Hi].
      destruct (Z.leb_spec 1 val); simpl; [|exact Hi].
      destruct (Z.leb_spec val (Z.of_nat length)); [lia | exact Hi].
  - intros k Hk. unfold handleIndexInput.
    rewrite Number_parseInt_of_nat.
    destruct (Z.leb_spec 1 (Z.of_nat k)); [|lia]. simpl.
    destruct (Z.leb_spec (Z.of_nat k) (Z.of_nat length)); [reflexivity|lia].
  - unfold handlePrev, handleNext. lia.
  - unfold handlePrev, handleNext. lia.
Qed.

(** *** The highlight of the drop zone *)

(** X19. As long as no element is left that was not entered, the drop
    zone is highlighted exactly while the pointer is over it or over
    one of its children: the counter is never negative and the
    highlight is on exactly when the counter is positive. *)
Theorem DropZone_highlight (events : list DragEvent) :
  leaves_follow_enters 0 events ->
  let s := fold_left DropZone_step events initial_DragState in
  (0 <= dragCounter s)%Z /\ isDragging s = Z.ltb 0 (dragCounter s).
Proof.
  assert (H : forall s,
             (0 <= dragCounter s)%Z ->
             isDragging s = Z.ltb 0 (dragCounter s) ->
             leaves_follow_enters (dragCounter s) events ->
             let s' := fold_left DropZone_step events s in
             (0 <= dragCounter s')%Z
             /\ isDragging s' = Z.ltb 0 (dragCounter s')).
  { induction events as [|e events IH]; intros s Hpos Hdrag Hev.
    - now split.
    - simpl. destruct e; simpl in Hev.
      + apply IH; simpl; [lia | | exact Hev].
        symmetry. apply Z.ltb_lt. lia.
      + destruct Hev as [Hc Hev]. apply IH; simpl; [lia | | exact Hev].
        destruct (Z.eqb_spec (dragCounter s - 1) 0) as [E|E].
        * rewrite E. reflexivity.
        * rewrite Hdrag.
          destruct (Z.ltb_spec 0 (dragCounter s)),
            (Z.ltb_spec 0 (dragCounter s - 1)); try reflexivity; lia.
      + apply IH; simpl; [lia | reflexivity | exact Hev]. }
  intros Hev. apply H; simpl; [lia | reflexivity | exact Hev].
Qed.

(* ================================================================== *)
(** ** The properties on sample texts *)
(* ================================================================== *)

#[local] Existing Instance numeralNumbers.
#[local] Existing Instance sample_engine.

Lemma fallback_is_line_oriented_witness :
  parseJsonl text_bad_then_good = parseLines text_bad_then_good.
Proof.
  apply fallback_is_line_oriented. right; left.
  exists SyntaxError. vm_compute. reflexivity.
Defined.

(** C2 as it is stated fails on the text [null]: the one record of the
    result has null data and no error. *)
Lemma null_line_has_neither :
  exists r, parseJsonl (lit "null") = Normal r
    /\ ~ Forall exactly_one_of_data_and_error (records r).
Proof.
  eexists; split; [vm_compute; reflexivity|].
  intros H. inversion H as [|rec recs [[H1 _]|[_ H2]] _]; discriminate.
Qed.

(** C4, on a text on which the code does not do what the claim says.
    The text is an array of two elements on two lines: the number 1,
    then 5000 arrays nested in one another.  [JSON.parse] reads it.  In
    an engine whose [JSON.stringify] runs out of stack at that depth,
    the map of [parseJsonl] throws inside the [try]; the [catch], which
    is there for a text that is not a JSON document, takes it, and the
    result is that of the two lines: two records with an error, where
    the claim has the two records of the elements and no error. *)
Theorem deep_array_is_read_by_lines :
  JSON_parse (JSString.trim (text_deep_array 4999))
  = Normal (JArray [JNumber (lit "1"); nested_arrays 4999])
  /\ JSON_stringify (nested_arrays 4999) = Throw RangeError
  /\ parseJsonl (text_deep_array 4999)
     = Normal {| records :=
                   [{| index := 0; data := JNull; raw := lit "[1,";
                       error := Some (lit "Malformed JSON on line 1") |};
                    {| index := 1; data := JNull;
                       raw := nested_brackets 4999 ++ lit "]";
                       error := Some (lit "Malformed JSON on line 2") |}];
                 columns := [];
                 errorCount := 2 |}.
Proof.
  apply (text_deep_array_by_lines (engine := sample_engine)).
  change (Nat.ltb 4096 (depth (nested_arrays 4999)) = true).
  rewrite depth_nested_arrays. reflexivity.
Qed.

Lemma whole_document_array_witness :
  JSON_parse (JSString.trim text_mixed_array) = Normal (JArray mixed_array)
  /\ exists r, parseJsonl text_mixed_array = Normal r
       /\ map index (records r) = [0; 1; 2; 3; 4]
       /\ map raw (records r)
          = [lit "1"; qlit "'a'"; lit "null"; qlit "{'k':true}"; lit "[2]"]
       /\ nth_error (map data (records r)) 2
          = Some (JObject [(lit "value", JNull)])
       /\ nth_error (map data (records r)) 4 = Some (JArray [JNumber (lit "2")])
       /\ errorCount r = 0.
Proof.
  assert (H : JSON_parse (JSString.trim text_mixed_array)
              = Normal (JArray mixed_array)) by (vm_compute; reflexivity).
  split; [exact H|].
  assert (Hall : Forall (fun item => exists s, JSON_stringify item = Normal s)
                        mixed_array)
    by (repeat constructor; eexists; vm_compute; reflexivity).
  destruct (proj1 (whole_document_array text_mixed_array H)
              (proj1 (Forall_forall _ _) Hall))
    as (r & Hr & Hlen & Hnth & _ & Hcount).
  exists r. split; [exact Hr|].
  assert (Hrecs : records r
                  = map (fun i => match nth_error (records r) i with
                                  | Some rec => rec
                                  | None => {| index := 0; data := JNull;
                                               raw := []; error := None |}
                                  end) [0; 1; 2; 3; 4]).
  { destruct (records r) as [|r0 [|r1 [|r2 [|r3 [|r4 [|r5 rest]]]]]];
      try discriminate Hlen. reflexivity. }
  rewrite Hrecs. cbn [map].
  destruct (Hnth 0 _ eq_refl) as (s0 & Hs0 & ->).
  destruct (Hnth 1 _ eq_refl) as (s1 & Hs1 & ->).
  destruct (Hnth 2 _ eq_refl) as (s2 & Hs2 & ->).
  destruct (Hnth 3 _ eq_refl) as (s3 & Hs3 & ->).
  destruct (Hnth 4 _ eq_refl) as (s4 & Hs4 & ->).
  vm_compute in Hs0, Hs1, Hs2, Hs3, Hs4.
  injection Hs0 as <-. injection Hs1 as <-. injection Hs2 as <-.
  injection Hs3 as <-. injection Hs4 as <-.
  repeat split; try exact Hcount; vm_compute; reflexivity.
Defined.

Lemma failed_line_record_witness :
  exists r, parseLines text_with_bad_line = Normal r
    /\ length (records r) = 3
    /\ nth_error (records r) 1
       = Some {| index := 1; data := JNull; raw := lit "bad";
                 error := Some (lit "Malformed JSON on line 3") |}.
Proof.
  exact (failed_line_record text_with_bad_line 2 (l := lit "  bad ")
           (e := SyntaxError) eq_refl eq_refl eq_refl).
Defined.

Lemma null_line_record_witness :
  exists r, parseLines text_with_null_line = Normal r
    /\ nth_error (records r) 1
       = Some {| index := 1; data := JNull; raw := lit "null";
                 error := None |}
    /\ errorCount r
       = length (filter has_error (firstn 1 (records r) ++ skipn 2 (records r)))
    /\ columns r
       = ordered_union
           (flat_map record_keys (firstn 1 (records r) ++ skipn 2 (records r))).
Proof.
  exact (null_line_record text_with_null_line 1 (l := lit " null ")
           eq_refl eq_refl).
Defined.

Lemma some_lines_have_no_line_end :
  Forall (fun l => ~ In LF l /\ ~ In CR l) some_lines.
Proof.
  repeat constructor; intros H; vm_compute in H;
    repeat (destruct H as [H|H]; [discriminate H|]); exact H.
Qed.

Lemma parseLines_CRLF_witness :
  parseLines (JSString.join [CR; LF] some_lines)
  = parseLines (JSString.join [LF] some_lines).
Proof.
  exact (parseLines_CRLF some_lines_have_no_line_end).
Defined.

Lemma whole_document_object_witness :
  JSON_parse (JSString.trim text_one_object) = Normal (JObject one_object)
  /\ parseJsonl text_one_object
     = Normal {| records := [{| index := 0; data := JObject one_object;
                                raw := qlit "{'b':1,'2':true,'b':null,'1':[]}";
                                error := None |}];
                 columns := [lit "1"; lit "2"; lit "b"];
                 errorCount := 0 |}.
Proof.
  assert (H : JSON_parse (JSString.trim text_one_object)
              = Normal (JObject one_object)) by (vm_compute; reflexivity).
  split; [exact H|]. exact (proj1 (whole_document_object text_one_object H)).
Defined.

Lemma parsed_line_record_witness :
  exists r, parseLines text_with_bad_line = Normal r
    /\ nth_error (records r) 2
       = Some {| index := 2;
                 data := JObject [(lit "id", JNumber (lit "2"))];
                 raw := qlit "{'id':2}";
                 error := None |}.
Proof.
  exact (parsed_line_record text_with_bad_line 3 (l := qlit "{'id':2}")
           (v := JObject [(lit "id", JNumber (lit "2"))])
           eq_refl eq_refl eq_refl).
Defined.

Lemma sample_lines_have_no_line_feed :
  Forall (fun l => ~ In LF l) indented_lines
  /\ Forall (fun l => ~ In LF l) bare_lines.
Proof.
  split; repeat constructor; intros H; vm_compute in H;
    repeat (destruct H as [H|H]; [discriminate H|]); exact H.
Qed.

Lemma parseLines_ignores_outer_white_space_witness :
  parseLines (JSString.join [LF] indented_lines)
  = parseLines (JSString.join [LF] bare_lines).
Proof.
  exact (parseLines_ignores_outer_white_space
           (proj1 sample_lines_have_no_line_feed)
           (proj2 sample_lines_have_no_line_feed) eq_refl).
Defined.

Lemma TreeView_position_witness :
  (0 <= fold_left (TreeView_step 3)
          [ClickNext; ClickNext; TypeIndex (lit "0"); ClickNext] 1
   < 3)%Z
  /\ handleIndexInput 3 (lit "2") 1 = 1%Z.
Proof.
  assert (H : (0 <= 1 < Z.of_nat 3)%Z) by (simpl; lia).
  assert (Hk : 1 <= 2 <= 3) by lia.
  destruct (@TreeView_position 3 1 H) as (Hin & Htyped & _).
  split; [exact (Hin _) | exact (Htyped 2 Hk)].
Defined.

Lemma DropZone_highlight_witness :
  (0 <= dragCounter
          (fold_left DropZone_step pointer_in_and_out initial_DragState))%Z
  /\ isDragging (fold_left DropZone_step pointer_in_and_out initial_DragState)
     = true.
Proof.
  assert (H : leaves_follow_enters 0 pointer_in_and_out)
    by (repeat split).
  exact (DropZone_highlight pointer_in_and_out H).
Defined.
(* ================================================================== *)
(** ** Sample runs *)
(* ================================================================== *)

Example run_empty_text :
  parseJsonl (lit "")
  = Normal {| records := []; columns := []; errorCount := 0 |}.
Proof. vm_compute. reflexivity. Qed.

Example run_white_space_only :
  parseJsonl (lit "  " ++ [LF; CR; 9%N]) = parseJsonl (lit "").
Proof. vm_compute. reflexivity. Qed.

Example run_not_json :
  parseJsonl (lit "not json at all")
  = Normal {| records := [{| index := 0; data := JNull;
                             raw := lit "not json at all";
                             error := Some (lit "Malformed JSON on line 1") |}];
              columns := [];
              errorCount := 1 |}.
Proof. vm_compute. reflexivity. Qed.

Example run_array_of_objects :
  shape (parseJsonl (qlit "[{'id':1},{'id':2}]"))
  = Some ([(0, None); (1, None)], [lit "id"], 0).
Proof. vm_compute. reflexivity. Qed.

Example run_single_object :
  parseJsonl (qlit "{'a':1,'b':2}")
  = Normal {| records :=
                [{| index := 0;
                    data := JObject [(lit "a", JNumber (lit "1"));
                                     (lit "b", JNumber (lit "2"))];
                    raw := qlit "{'a':1,'b':2}";
                    error := None |}];
              columns := [lit "a"; lit "b"];
              errorCount := 0 |}.
Proof. vm_compute. reflexivity. Qed.

Example run_array_of_scalars :
  match parseJsonl (lit "[1,2,3]") with
  | Normal r => map data (records r)
  | Throw _ => []
  end
  = [JObject [(lit "value", JNumber (lit "1"))];
     JObject [(lit "value", JNumber (lit "2"))];
     JObject [(lit "value", JNumber (lit "3"))]].
Proof. vm_compute. reflexivity. Qed.

Example run_one_bad_line :
  shape (parseJsonl (qlit "{'id':1}" ++ [LF] ++ lit "bad" ++ [LF]
                     ++ qlit "{'id':2}"))
  = Some ([(0, None); (1, Some (lit "Malformed JSON on line 2")); (2, None)],
          [lit "id"], 1).
Proof. vm_compute. reflexivity. Qed.

(** Keys that are array indices come first, in ascending order; a key
    met twice keeps its first place. *)
Example run_key_order :
  shape (parseJsonl (qlit "{'b':1,'10':2,'a':3,'2':4,'b':5,'01':6}"))
  = Some ([(0, None)],
          [lit "2"; lit "10"; lit "b"; lit "a"; lit "01"], 0).
Proof. vm_compute. reflexivity. Qed.

(** A scalar on a line is kept as it is; the same scalar in a top-level
    array is wrapped. *)
Example run_scalar_line_and_element :
  match parseJsonl (lit "5" ++ [LF] ++ lit "6"), parseJsonl (lit "[5]") with
  | Normal lines, Normal array =>
      (map data (records lines), map data (records array))
  | _, _ => ([], [])
  end
  = ([JNumber (lit "5"); JNumber (lit "6")],
     [JObject [(lit "value", JNumber (lit "5"))]]).
Proof. vm_compute. reflexivity. Qed.

(** A key and its value in the detail panel: after the colon, the space
    of the colon span and the space of the line. *)
Example run_HighlightLine_key :
  option_map shown (HighlightLine (qlit "  'a': 1,"))
  = Some (qlit "  'a':  1,").
Proof. vm_compute. reflexivity. Qed.

Example run_SyntaxLine_classes :
  option_map (map Segment.className)
    (SyntaxLine (qlit "{'a': -1.5, 'b':'x'}") false)
  = Some [lit "text-syntax-bracket"; lit "text-syntax-key";
          lit "text-syntax-bracket"; lit ""; lit "text-syntax-number";
          lit "text-syntax-bracket"; lit ""; lit "text-syntax-key";
          lit "text-syntax-bracket"; lit "text-syntax-string";
          lit "text-syntax-bracket"].
Proof. vm_compute. reflexivity. Qed.
